(** * EngineNoSQL: the storage and query engine, embedded in Rocq

    The development follows the Go sources of the engine package:
    [internal/engine/storage.go] (documents, collections, indexes), the
    query builder and the aggregation pipeline, and the prelude of
    [ImportData].  Go maps are finite maps ([gmap]), Go slices are lists,
    [float64] is the kernel's binary64 type, and every function that can fail
    returns its error next to the state it leaves behind. *)

From Stdlib Require Import Floats ZArith String Ascii.
From stdpp Require Import gmap strings list fin_maps pretty.

Local Open Scope string_scope.
Local Open Scope Z_scope.
Local Open Scope list_scope.

(** ** The Go runtime seen by the engine *)

(** Readings of [time.Now()]. *)
Definition Time := Z.

(** The dynamic values ([interface{}]) that the engine stores or receives:
    what [encoding/json] decodes ([nil], [bool], [float64], [string],
    [[]interface{}], [map[string]interface{}]), what the CSV reader adds
    ([int64]), plain [int] from Go callers and the [time.Time] stamps that
    [Aggregate] copies into its items.  A [VMap] lists its entries in
    increasing key order, the order in which [fmt] prints a map. *)
#[warnings="-register-all"]
Inductive Value : Type :=
  | VNil
  | VBool (b : bool)
  | VInt (n : Z)
  | VInt64 (n : Z)
  | VFloat (x : float)
  | VString (s : string)
  | VSlice (l : list Value)
  | VMap (m : list (string * Value))
  | VTime (t : Time).

(** The functions of Go's standard library that the engine calls and whose
    code is not part of the repository.  [RegexpMatch p s] is [None] when
    [regexp.Compile p] fails, and the result of [MatchString s] otherwise;
    [ParseFloat s] is [None] when [strconv.ParseFloat s 64] returns an
    error; [FormatFloat] is the shortest [%v] rendering of a [float64]. *)
Class GoLib : Type := {
  FormatFloat : float → string;
  FormatTime : Time → string;
  ParseFloat : string → option float;
  RegexpMatch : string → string → option bool
}.

(** The order in which one [for ... range] loop visits a Go map: any
    enumeration of its entries.  Each loop takes its own order. *)
Definition Range (A : Type) : Type := gmap string A → list (string * A).

Definition go_range {A : Type} (rng : Range A) (m : gmap string A) : Prop :=
  rng m ≡ₚ map_to_list m.

Section Engine.
Context `{GoLib}.

(** [fmt.Sprintf("%v", v)]. *)
Fixpoint Sprint (v : Value) : string :=
  match v with
  | VNil => "<nil>"
  | VBool true => "true"
  | VBool false => "false"
  | VInt n => pretty n
  | VInt64 n => pretty n
  | VFloat x => FormatFloat x
  | VString s => s
  | VSlice l => "[" +:+ String.concat " " (map Sprint l) +:+ "]"
  | VMap m =>
      "map[" +:+
      String.concat " " (map (λ kv, fst kv +:+ ":" +:+ Sprint (snd kv)) m)
      +:+ "]"
  | VTime t => FormatTime t
  end.

(** ** storage.go: documents, indexes, collections *)

Record Document : Type := {
  ID : string;
  Data : gmap string Value;
  CreatedAt : Time;
  UpdatedAt : Time
}.

Record Index : Type := {
  Field : string;
  Values : gmap string string
}.

Record Collection : Type := {
  Name : string;
  Documents : gmap string Document;
  Indexes : gmap string Index
}.

Record Database : Type := {
  DBName : string;
  Collections : gmap string Collection;
  Path : string
}.

Inductive error : Type :=
  | DocumentAlreadyExists (id : string)
  | DocumentNotFound (id : string)
  | CollectionAlreadyExists (name : string)
  | CollectionNotFound (name : string)
  | FailedToCreateCollection (e : error)
  | FailedToGetCreatedCollection (e : error)
  | ImportCollectionNotFound (e : error)
  | UnsupportedImportFormat (format : string)
  | UnknownAggregation (operation : string).

Definition setDocuments (docs : gmap string Document) (c : Collection) : Collection :=
  {| Name := Name c; Documents := docs; Indexes := Indexes c |}.

Definition setIndexes (ixs : gmap string Index) (c : Collection) : Collection :=
  {| Name := Name c; Documents := Documents c; Indexes := ixs |}.

(** The collection that [CreateCollection] builds. *)
Definition newCollection (name : string) : Collection :=
  {| Name := name; Documents := ∅; Indexes := ∅ |}.

Definition CreateCollection (name : string) (db : Database) : Database * option error :=
  match Collections db !! name with
  | Some _ => (db, Some (CollectionAlreadyExists name))
  | None =>
      ({| DBName := DBName db;
          Collections := <[name := newCollection name]> (Collections db);
          Path := Path db |}, None)
  end.

Definition GetCollection (name : string) (db : Database) : Collection + error :=
  match Collections db !! name with
  | Some collection => inl collection
  | None => inr (CollectionNotFound name)
  end.

(** One turn of the loop of [updateIndexes] on the index stored under
    [field].  The loop writes only the key it is visiting, so the visiting
    order cannot be observed and the loop is a map over [c.Indexes]. *)
Definition updateIndex (doc : Document) (field : string) (index : Index) : Index :=
  match Data doc !! field with
  | Some value =>
      {| Field := Field index;
         Values := <[Sprint value := ID doc]> (Values index) |}
  | None => index
  end.

Definition updateIndexes (doc : Document) (c : Collection) : Collection :=
  setIndexes (map_imap (λ field index, Some (updateIndex doc field index)) (Indexes c)) c.

(** One turn of the loop of [removeFromIndexes]. *)
Definition removeFromIndex (doc : Document) (field : string) (index : Index) : Index :=
  match Data doc !! field with
  | Some value =>
      {| Field := Field index;
         Values := delete (Sprint value) (Values index) |}
  | None => index
  end.

Definition removeFromIndexes (doc : Document) (c : Collection) : Collection :=
  setIndexes (map_imap (λ field index, Some (removeFromIndex doc field index)) (Indexes c)) c.

(** [Insert]; [created] and [updated] are the two readings of the clock. *)
Definition Insert (created updated : Time) (id : string) (data : gmap string Value)
    (c : Collection) : Collection * option error :=
  match Documents c !! id with
  | Some _ => (c, Some (DocumentAlreadyExists id))
  | None =>
      let doc := {| ID := id; Data := data; CreatedAt := created; UpdatedAt := updated |} in
      (updateIndexes doc (setDocuments (<[id := doc]> (Documents c)) c), None)
  end.

(** [Update]; the document is changed through its pointer, so the entry of
    [c.Documents] under [id] changes with it. *)
Definition Update (now : Time) (id : string) (data : gmap string Value)
    (c : Collection) : Collection * option error :=
  match Documents c !! id with
  | None => (c, Some (DocumentNotFound id))
  | Some doc =>
      let c1 := removeFromIndexes doc c in
      let doc' := {| ID := ID doc; Data := data; CreatedAt := CreatedAt doc; UpdatedAt := now |} in
      (updateIndexes doc' (setDocuments (<[id := doc']> (Documents c1)) c1), None)
  end.

Definition Delete (id : string) (c : Collection) : Collection * option error :=
  match Documents c !! id with
  | None => (c, Some (DocumentNotFound id))
  | Some doc =>
      let c1 := removeFromIndexes doc c in
      (setDocuments (delete id (Documents c1)) c1, None)
  end.

(** The full scan of [Find], the branch taken when no index exists. *)
Definition scanDocuments (docs : list (string * Document)) (field : string) (value : Value)
    : list Document :=
  foldl (λ results kd,
           match Data (snd kd) !! field with
           | Some docValue =>
               if String.eqb (Sprint docValue) (Sprint value)
               then (results ++ [snd kd])%list else results
           | None => results
           end) [] docs.

(** [Find]; its error result is always [nil]. *)
Definition Find (rng : Range Document) (c : Collection) (field : string) (value : Value)
    : list Document :=
  match Indexes c !! field with
  | Some index =>
      match Values index !! Sprint value with
      | Some docID =>
          match Documents c !! docID with
          | Some doc => [doc]
          | None => []
          end
      | None => []
      end
  | None => scanDocuments (rng (Documents c)) field value
  end.

Definition GetAll (rng : Range Document) (c : Collection) : list Document :=
  foldl (λ docs kd, (docs ++ [snd kd])%list) [] (rng (Documents c)).

(** The loop that [CreateIndex] and [CompactDatabase] run to fill an index. *)
Definition buildIndex (docs : list (string * Document)) (field : string) : Index :=
  foldl (λ index kd,
           match Data (snd kd) !! field with
           | Some value =>
               {| Field := Field index;
                  Values := <[Sprint value := ID (snd kd)]> (Values index) |}
           | None => index
           end) {| Field := field; Values := ∅ |} docs.

Definition CreateIndex (rng : Range Document) (field : string) (c : Collection) : Collection :=
  setIndexes (<[field := buildIndex (rng (Documents c)) field]> (Indexes c)) c.

(** ** The query builder *)

(** [Filter]; its fields [Field] and [Value] carry an [F] here, the plain
    names being taken by [Index] and by the type of values. *)
Record Filter : Type := {
  FField : string;
  FOperator : string;
  FValue : Value
}.

Record QueryBuilder : Type := {
  collection : Collection;
  filters : list Filter;
  sortBy : string;
  sortOrder : Z;
  limit : Z;
  skip : Z
}.

Definition OpEqual := "$eq".
Definition OpNotEqual := "$ne".
Definition OpGreaterThan := "$gt".
Definition OpGreaterThanOrEqual := "$gte".
Definition OpLessThan := "$lt".
Definition OpLessThanOrEqual := "$lte".
Definition OpIn := "$in".
Definition OpNotIn := "$nin".
Definition OpRegex := "$regex".
Definition OpExists := "$exists".
Definition OpType := "$type".
Definition OpSize := "$size".

Definition NewQuery (c : Collection) : QueryBuilder :=
  {| collection := c; filters := []; sortBy := ""; sortOrder := 1; limit := 0; skip := 0 |}.

Definition Where (field operator : string) (value : Value) (qb : QueryBuilder) : QueryBuilder :=
  {| collection := collection qb;
     filters := (filters qb ++ [{| FField := field; FOperator := operator; FValue := value |}])%list;
     sortBy := sortBy qb; sortOrder := sortOrder qb; limit := limit qb; skip := skip qb |}.

Definition Sort (field : string) (ascending : bool) (qb : QueryBuilder) : QueryBuilder :=
  {| collection := collection qb; filters := filters qb;
     sortBy := field; sortOrder := if ascending then 1 else -1;
     limit := limit qb; skip := skip qb |}.

Definition Limit (l : Z) (qb : QueryBuilder) : QueryBuilder :=
  {| collection := collection qb; filters := filters qb;
     sortBy := sortBy qb; sortOrder := sortOrder qb; limit := l; skip := skip qb |}.

Definition Skip (s : Z) (qb : QueryBuilder) : QueryBuilder :=
  {| collection := collection qb; filters := filters qb;
     sortBy := sortBy qb; sortOrder := sortOrder qb; limit := limit qb; skip := s |}.

(** Go's [<] on strings: byte-wise lexicographic order. *)
Fixpoint stringLess (s t : string) : bool :=
  match s, t with
  | _, EmptyString => false
  | EmptyString, String _ _ => true
  | String c1 s', String c2 t' =>
      if (N_of_ascii c1 <? N_of_ascii c2)%N then true
      else if (N_of_ascii c2 <? N_of_ascii c1)%N then false
      else stringLess s' t'
  end.

(** [compareValues]: the numeric branch returns from inside the two nested
    tests, every other path falls through to the string comparison. *)
Definition compareValues (a b : Value) : Z :=
  let aStr := Sprint a in
  let bStr := Sprint b in
  let stringComparison :=
    if stringLess aStr bStr then -1
    else if stringLess bStr aStr then 1
    else 0 in
  match ParseFloat aStr with
  | Some aNum =>
      match ParseFloat bStr with
      | Some bNum =>
          if PrimFloat.ltb aNum bNum then -1
          else if PrimFloat.ltb bNum aNum then 1
          else 0
      | None => stringComparison
      end
  | None => stringComparison
  end.

Definition getValueType (value : Value) : string :=
  match value with
  | VNil => "null"
  | VString _ => "string"
  | VInt _ | VInt64 _ => "int"
  | VFloat _ => "double"
  | VBool _ => "bool"
  | VSlice _ => "array"
  | VMap _ => "object"
  | VTime _ => "unknown"
  end.

Definition getValueSize (value : Value) : Z :=
  match value with
  | VString s => Z.of_nat (String.length s)
  | VSlice l => Z.of_nat (length l)
  | VMap m => Z.of_nat (length m)
  | _ => 0
  end.

Definition matchesFilter (doc : Document) (filter : Filter) : bool :=
  let fieldValue := Data doc !! FField filter in
  let op := FOperator filter in
  if String.eqb op OpEqual then
    match fieldValue with
    | Some v => compareValues v (FValue filter) =? 0
    | None => false
    end
  else if String.eqb op OpNotEqual then
    match fieldValue with
    | Some v => negb (compareValues v (FValue filter) =? 0)
    | None => true
    end
  else if String.eqb op OpGreaterThan then
    match fieldValue with
    | Some v => compareValues v (FValue filter) >? 0
    | None => false
    end
  else if String.eqb op OpGreaterThanOrEqual then
    match fieldValue with
    | Some v => compareValues v (FValue filter) >=? 0
    | None => false
    end
  else if String.eqb op OpLessThan then
    match fieldValue with
    | Some v => compareValues v (FValue filter) <? 0
    | None => false
    end
  else if String.eqb op OpLessThanOrEqual then
    match fieldValue with
    | Some v => compareValues v (FValue filter) <=? 0
    | None => false
    end
  else if String.eqb op OpIn then
    match fieldValue, FValue filter with
    | Some v, VSlice values => existsb (λ value, compareValues v value =? 0) values
    | _, _ => false
    end
  else if String.eqb op OpNotIn then
    match fieldValue, FValue filter with
    | Some v, VSlice values => negb (existsb (λ value, compareValues v value =? 0) values)
    | _, _ => true
    end
  else if String.eqb op OpRegex then
    match fieldValue, FValue filter with
    | Some v, VString pattern =>
        match RegexpMatch pattern (Sprint v) with
        | Some matched => matched
        | None => false
        end
    | _, _ => false
    end
  else if String.eqb op OpExists then
    match FValue filter with
    | VBool expected => Bool.eqb (match fieldValue with Some _ => true | None => false end) expected
    | _ => false
    end
  else if String.eqb op OpType then
    match fieldValue, FValue filter with
    | Some v, VString expectedType => String.eqb (getValueType v) expectedType
    | _, _ => false
    end
  else if String.eqb op OpSize then
    match fieldValue, FValue filter with
    | Some v, VInt expectedSize => getValueSize v =? expectedSize
    | _, _ => false
    end
  else false.

(** [matchesFilters]: the loop leaves at the first filter that fails. *)
Fixpoint matchesFiltersLoop (doc : Document) (fs : list Filter) : bool :=
  match fs with
  | [] => true
  | filter :: rest =>
      if negb (matchesFilter doc filter) then false
      else matchesFiltersLoop doc rest
  end.

Definition matchesFilters (qb : QueryBuilder) (doc : Document) : bool :=
  matchesFiltersLoop doc (filters qb).

(** The test of [sortDocuments] on [docs[j]] and [docs[j+1]]. *)
Definition shouldSwap (qb : QueryBuilder) (d1 d2 : Document) : bool :=
  match Data d1 !! sortBy qb, Data d2 !! sortBy qb with
  | None, Some _ => sortOrder qb =? 1
  | Some _, None => sortOrder qb =? -1
  | Some val1, Some val2 =>
      let cmp := compareValues val1 val2 in
      (sortOrder qb =? 1) && (cmp >? 0) || (sortOrder qb =? -1) && (cmp <? 0)
  | None, None => false
  end.

End Engine.

(** The two nested loops of [sortDocuments], for any element type and any
    swap test.  [bubbleStep] is one turn of the inner loop at index [j];
    [innerLoop cnt j] runs [cnt] turns from index [j]; [outerLoop n cnt i]
    runs [cnt] turns of the outer loop from [i] on a slice of length [n]. *)
Section Bubble.
Context {A : Type} (swap : A → A → bool).

(** An index outside the slice, where Go would panic, leaves the slice as it
    is; the loops never reach one. *)
Definition bubbleStep (j : nat) (docs : list A) : list A :=
  match docs !! j, docs !! S j with
  | Some d1, Some d2 =>
      if swap d1 d2 then <[j := d2]> (<[S j := d1]> docs) else docs
  | _, _ => docs
  end.

Fixpoint innerLoop (cnt j : nat) (docs : list A) : list A :=
  match cnt with
  | O => docs
  | S cnt' => innerLoop cnt' (S j) (bubbleStep j docs)
  end.

Fixpoint outerLoop (n cnt i : nat) (docs : list A) : list A :=
  match cnt with
  | O => docs
  | S cnt' => outerLoop n cnt' (S i) (innerLoop (n - i - 1) 0 docs)
  end.

Definition bubbleSort (docs : list A) : list A :=
  let n := length docs in
  outerLoop n (n - 1) 0 docs.

(** The inner loop as a recursion on the slice: [cnt] turns from the head,
    the element that the loop carries along staying at the front. *)
Fixpoint bubblePass (cnt : nat) (docs : list A) : list A :=
  match cnt, docs with
  | S cnt', d1 :: d2 :: rest =>
      if swap d1 d2 then d2 :: bubblePass cnt' (d1 :: rest)
      else d1 :: bubblePass cnt' (d2 :: rest)
  | _, _ => docs
  end.

(** The outer loop over [bubblePass]. *)
Fixpoint bubblePasses (n cnt i : nat) (docs : list A) : list A :=
  match cnt with
  | O => docs
  | S cnt' => bubblePasses n cnt' (S i) (bubblePass (n - i - 1) docs)
  end.

(** [Swaps l l']: [l'] comes from [l] by exchanging, any number of times,
    two neighbours that the swap test orders the other way round. *)
Inductive Swaps : list A → list A → Prop :=
  | Swaps_refl l : Swaps l l
  | Swaps_step pre x y post l' :
      swap x y = true →
      Swaps (pre ++ y :: x :: post) l' →
      Swaps (pre ++ x :: y :: post) l'.

End Bubble.

(** The swap test on flags: a raised flag moves behind a lowered one. *)
Definition swapFlags (a b : bool) : bool := a && negb b.

(** [x] stands before [y] in [l]. *)
Definition before {A : Type} (x y : A) (l : list A) : Prop :=
  [x; y] `sublist_of` l.

Section Query.
Context `{GoLib}.

Definition sortDocuments (qb : QueryBuilder) (docs : list Document) : list Document :=
  if String.eqb (sortBy qb) "" then docs
  else bubbleSort (shouldSwap qb) docs.

(** The filtering loop shared by [Execute] and [Count]. *)
Definition filterDocuments (qb : QueryBuilder) (docs : list (string * Document))
    : list Document :=
  foldl (λ results kd,
           if matchesFilters qb (snd kd) then (results ++ [snd kd])%list else results)
        [] docs.

(** [Execute]; its error result is always [nil]. *)
Definition Execute (rng : Range Document) (qb : QueryBuilder) : list Document :=
  let results := filterDocuments qb (rng (Documents (collection qb))) in
  let results :=
    if negb (String.eqb (sortBy qb) "") then sortDocuments qb results else results in
  let results :=
    if (skip qb >? 0) && (skip qb <? Z.of_nat (length results))
    then drop (Z.to_nat (skip qb)) results
    else if skip qb >=? Z.of_nat (length results) then []
    else results in
  let results :=
    if (limit qb >? 0) && (limit qb <? Z.of_nat (length results))
    then take (Z.to_nat (limit qb)) results
    else results in
  results.

Definition Count (rng : Range Document) (qb : QueryBuilder) : Z :=
  foldl (λ count kd, if matchesFilters qb (snd kd) then count + 1 else count)
        0 (rng (Documents (collection qb))).

(** ** The aggregation pipeline: the group stage *)

(** [AggregateFunc] and [GroupStage]; [AggField] is the field [Field] and
    [GroupID] the field [ID] of the source. *)
Record AggregateFunc : Type := {
  Operation : string;
  AggField : string
}.

Record GroupStage : Type := {
  GroupID : Value;
  Fields : gmap string AggregateFunc
}.

Definition getGroupKey (s : GroupStage) (item : gmap string Value) : string :=
  match GroupID s with
  | VString idStr =>
      match item !! idStr with
      | Some value => Sprint value
      | None => "null"
      end
  | _ => "null"
  end.

(** The number that an item contributes to a numeric reduction on [field]:
    present and parsed by [strconv.ParseFloat]. *)
Definition numericField (field : string) (item : gmap string Value) : option float :=
  match item !! field with
  | Some value => ParseFloat (Sprint value)
  | None => None
  end.

(** The loop of the ["sum"] case. *)
Definition sumLoop (field : string) (data : list (gmap string Value)) : float :=
  foldl (λ sum item,
           match numericField field item with
           | Some num => PrimFloat.add sum num
           | None => sum
           end) 0%float data.

(** The loop of ["max"] and ["min"], on the pair ([first], extremum);
    [better num cur] is the test that replaces the extremum. *)
Definition extremumLoop (better : float → float → bool) (field : string)
    (data : list (gmap string Value)) : bool * float :=
  foldl (λ st item,
           match numericField field item with
           | Some num =>
               if fst st || better num (snd st) then (false, num) else st
           | None => st
           end) (true, 0%float) data.

Definition calculateAggregation (data : list (gmap string Value)) (aggFunc : AggregateFunc)
    : Value + error :=
  let op := Operation aggFunc in
  if String.eqb op "count" then inl (VInt (Z.of_nat (length data)))
  else if String.eqb op "sum" then inl (VFloat (sumLoop (AggField aggFunc) data))
  else if String.eqb op "avg" then
    let r := foldl (λ st item,
                      match numericField (AggField aggFunc) item with
                      | Some num => (PrimFloat.add (fst st) num, snd st + 1)
                      | None => st
                      end) (0%float, 0) data in
    if snd r >? 0
    then inl (VFloat (PrimFloat.div (fst r) (PrimFloat.of_uint63 (Uint63.of_Z (snd r)))))
    else inl (VInt 0)
  else if String.eqb op "max" then
    let r := extremumLoop (λ num cur, PrimFloat.ltb cur num) (AggField aggFunc) data in
    if fst r then inl VNil else inl (VFloat (snd r))
  else if String.eqb op "min" then
    let r := extremumLoop (λ num cur, PrimFloat.ltb num cur) (AggField aggFunc) data in
    if fst r then inl VNil else inl (VFloat (snd r))
  else inr (UnknownAggregation op).

(** The first loop of [GroupStage.Process]: the items of each group, in the
    order of the input. *)
Definition groupItems (s : GroupStage) (data : list (gmap string Value))
    : gmap string (list (gmap string Value)) :=
  foldl (λ groups item,
           let groupKey := getGroupKey s item in
           <[groupKey := (default [] (groups !! groupKey) ++ [item])%list]> groups)
        ∅ data.

(** The loop over [s.Fields] that fills one [groupResult]; it leaves at the
    first aggregation that fails. *)
Fixpoint groupFields (fields : list (string * AggregateFunc))
    (groupData : list (gmap string Value)) (groupResult : gmap string Value)
    : gmap string Value + error :=
  match fields with
  | [] => inl groupResult
  | (fieldName, aggFunc) :: rest =>
      match calculateAggregation groupData aggFunc with
      | inr err => inr err
      | inl value => groupFields rest groupData (<[fieldName := value]> groupResult)
      end
  end.

(** The loop over the groups.  [frng] gives the order of the loop over
    [s.Fields] that runs inside each turn. *)
Fixpoint groupResults (frng : nat → Range AggregateFunc) (s : GroupStage)
    (groups : list (string * list (gmap string Value))) (turn : nat)
    (result : list (gmap string Value)) : list (gmap string Value) + error :=
  match groups with
  | [] => inl result
  | (groupKey, groupData) :: rest =>
      match groupFields (frng turn (Fields s)) groupData {[ "_id" := VString groupKey ]} with
      | inr err => inr err
      | inl groupResult => groupResults frng s rest (S turn) (result ++ [groupResult])%list
      end
  end.

(** [GroupStage.Process]; [grng] orders the loop over the groups. *)
Definition Process (grng : Range (list (gmap string Value))) (frng : nat → Range AggregateFunc)
    (s : GroupStage) (data : list (gmap string Value))
    : list (gmap string Value) + error :=
  groupResults frng s (grng (groupItems s data)) 0 [].

(** ** The prelude of [ImportData] *)

(** [ImportOptions]; [TargetCollection] is the field [Collection] and
    [CreateIfMissing] the field [CreateCollection] of the source. *)
Record ImportOptions : Type := {
  Format : string;
  TargetCollection : string;
  FilePath : string;
  CreateIfMissing : bool;
  OverwriteData : bool;
  IDField : string
}.

(** [ImportData] from the lookup of the collection to the [switch] on the
    format: the database it leaves, and the error when it returns before
    the [switch].  What follows is the work of the three readers, which
    insert the rows with [Insert]. *)
Definition ImportDataPrelude (options : ImportOptions) (db : Database)
    : Database * option error :=
  let name := TargetCollection options in
  let found :=
    match GetCollection name db with
    | inl _ => (db, None)
    | inr err =>
        if CreateIfMissing options then
          match CreateCollection name db with
          | (db1, Some err1) => (db1, Some (FailedToCreateCollection err1))
          | (db1, None) =>
              match GetCollection name db1 with
              | inl _ => (db1, None)
              | inr err2 => (db1, Some (FailedToGetCreatedCollection err2))
              end
          end
        else (db, Some (ImportCollectionNotFound err))
    end in
  match found with
  | (db1, Some err) => (db1, Some err)
  | (db1, None) =>
      if OverwriteData options then
        ({| DBName := DBName db1;
            Collections := alter (setDocuments ∅) name (Collections db1);
            Path := Path db1 |}, None)
      else (db1, None)
  end.

End Query.

(** ** More of the engine: the match stage, the pipeline, compaction, the
    service's query building and the import loops *)

Section EngineMore.
Context `{GoLib}.

(** *** The match stage and [Aggregate] *)

Record MatchStage : Type := {
  Filters : list Filter
}.

(** [MatchStage.matchesFilter]: three operators, everything else fails. *)
Definition matchStageFilter (item : gmap string Value) (flt : Filter) : bool :=
  let fieldValue := item !! FField flt in
  let op := FOperator flt in
  if String.eqb op OpEqual then
    match fieldValue with
    | Some v => compareValues v (FValue flt) =? 0
    | None => false
    end
  else if String.eqb op OpGreaterThan then
    match fieldValue with
    | Some v => compareValues v (FValue flt) >? 0
    | None => false
    end
  else if String.eqb op OpLessThan then
    match fieldValue with
    | Some v => compareValues v (FValue flt) <? 0
    | None => false
    end
  else false.

(** The inner loop of [MatchStage.Process]: it breaks at the first filter
    that fails. *)
Fixpoint matchStageAll (item : gmap string Value) (fs : list Filter) : bool :=
  match fs with
  | [] => true
  | flt :: rest =>
      if negb (matchStageFilter item flt) then false
      else matchStageAll item rest
  end.

(** [MatchStage.Process]; its error is always [nil]. *)
Definition MatchProcess (s : MatchStage) (data : list (gmap string Value))
    : list (gmap string Value) + error :=
  inl (foldl (λ result item,
                if matchStageAll item (Filters s) then result ++ [item] else result)
             [] data).

(** The two implementations of the interface [AggregationStage]. *)
Inductive AggregationStage : Type :=
  | StageMatch (s : MatchStage)
  | StageGroup (s : GroupStage).

(** The orders of the map loops that one stage runs. *)
Record StageOrders : Type := {
  groupOrder : Range (list (gmap string Value));
  fieldOrder : nat → Range AggregateFunc
}.

Definition stageProcess (ord : StageOrders) (stage : AggregationStage)
    (data : list (gmap string Value)) : list (gmap string Value) + error :=
  match stage with
  | StageMatch s => MatchProcess s data
  | StageGroup s => Process (groupOrder ord) (fieldOrder ord) s data
  end.

(** The loop of [Aggregate] over the pipeline; it returns at the first
    stage that fails. *)
Fixpoint runPipeline (ords : nat → StageOrders) (pipeline : list AggregationStage)
    (turn : nat) (data : list (gmap string Value))
    : list (gmap string Value) + error :=
  match pipeline with
  | [] => inl data
  | stage :: rest =>
      match stageProcess (ords turn) stage data with
      | inr err => inr err
      | inl data' => runPipeline ords rest (S turn) data'
      end
  end.

(** The item that [Aggregate] makes of a document: the three reserved keys
    first, then every key of the data written over them.  The keys of the
    data are distinct, so the order of that loop cannot be observed and the
    item is the union that prefers the data. *)
Definition documentItem (doc : Document) : gmap string Value :=
  Data doc ∪
  {[ "_id" := VString (ID doc);
     "created_at" := VTime (CreatedAt doc);
     "updated_at" := VTime (UpdatedAt doc) ]}.

Definition Aggregate (rng : Range Document) (ords : nat → StageOrders)
    (c : Collection) (pipeline : list AggregationStage)
    : list (gmap string Value) + error :=
  runPipeline ords pipeline 0
    (foldl (λ data kd, data ++ [documentItem (snd kd)]) [] (rng (Documents c))).

(** *** Compaction *)



(** *** The service: building the query of a request *)

Record QueryFilter : Type := {
  QFField : string;
  QFOperator : string;
  QFValue : Value
}.

Record SortOption : Type := {
  SortField : string;
  Ascending : bool
}.

(** [AdvancedQueryRequest] without the names of the database and of the
    collection, which the service resolves before it builds the query. *)
Record AdvancedQueryRequest : Type := {
  ReqFilters : list QueryFilter;
  ReqSort : option SortOption;
  ReqLimit : Z;
  ReqSkip : Z
}.

Definition addFilters (fs : list QueryFilter) (query : QueryBuilder) : QueryBuilder :=
  foldl (λ q f, Where (QFField f) (QFOperator f) (QFValue f) q) query fs.

(** The query that [AdvancedQuery] builds on the collection it has found. *)
Definition buildQuery (c : Collection) (req : AdvancedQueryRequest) : QueryBuilder :=
  let query := addFilters (ReqFilters req) (NewQuery c) in
  let query :=
    match ReqSort req with
    | Some sort => Sort (SortField sort) (Ascending sort) query
    | None => query
    end in
  let query := if ReqLimit req >? 0 then Limit (ReqLimit req) query else query in
  let query := if ReqSkip req >? 0 then Skip (ReqSkip req) query else query in
  query.

(** [AdvancedQuery] and [CountDocuments] between the lookup of the
    collection and the conversion of the result. *)
Definition AdvancedQueryOn (rng : Range Document) (c : Collection)
    (req : AdvancedQueryRequest) : list Document :=
  Execute rng (buildQuery c req).

Definition CountDocumentsOn (rng : Range Document) (c : Collection)
    (req : AdvancedQueryRequest) : Z :=
  Count rng (addFilters (ReqFilters req) (NewQuery c)).

(** *** The import loops *)

Record ImportResult : Type := {
  Imported : Z;
  Skipped : Z;
  Errors : list string
}.

Inductive importError : Type :=
  | UnsupportedJSONFormat
  | DocumentsNotAnArray
  | FailedToParseJSONData (e : importError)
  | TooFewRecords.

(** The text of an error, as [%v] prints it. *)
Fixpoint errorText (e : error) : string :=
  match e with
  | DocumentAlreadyExists id => "document with id '" +:+ id +:+ "' already exists"
  | DocumentNotFound id => "document with id '" +:+ id +:+ "' not found"
  | CollectionAlreadyExists name => "collection '" +:+ name +:+ "' already exists"
  | CollectionNotFound name => "collection '" +:+ name +:+ "' not found"
  | FailedToCreateCollection e' => "failed to create collection: " +:+ errorText e'
  | FailedToGetCreatedCollection e' => "failed to get created collection: " +:+ errorText e'
  | ImportCollectionNotFound e' => "collection not found: " +:+ errorText e'
  | UnsupportedImportFormat format => "unsupported import format: " +:+ format
  | UnknownAggregation operation => "unknown aggregation operation: " +:+ operation
  end.

(** What one turn of an import loop reads from the clock: the stamp that
    goes into a generated id, and the two readings of [Insert]. *)
Record Tick : Type := {
  stamp : Z;
  created : Time;
  updated : Time
}.

Definition newResult : ImportResult :=
  {| Imported := 0; Skipped := 0; Errors := [] |}.

(** The end of every turn of the import loops: insert, and count the
    outcome. *)
Definition insertCounted (tick : Tick) (docID : string) (docData : gmap string Value)
    (st : Collection * ImportResult) : Collection * ImportResult :=
  match Insert (created tick) (updated tick) docID docData (fst st) with
  | (c', Some err) =>
      (c', {| Imported := Imported (snd st);
              Skipped := Skipped (snd st) + 1;
              Errors := Errors (snd st) ++
                        ["Failed to insert " +:+ docID +:+ ": " +:+ errorText err] |})
  | (c', None) =>
      (c', {| Imported := Imported (snd st) + 1;
              Skipped := Skipped (snd st);
              Errors := Errors (snd st) |})
  end.

(** The Go map that a decoded JSON object is. *)
Definition objectOf (m : list (string * Value)) : gmap string Value := list_to_map m.

Definition parseDocumentsArray (documents : Value)
    : list (gmap string Value) + importError :=
  match documents with
  | VSlice docs =>
      inl (foldl (λ result doc,
                    match doc with
                    | VMap docMap =>
                        match objectOf docMap !! "data" with
                        | Some (VMap dataMap) => result ++ [objectOf dataMap]
                        | Some _ => result
                        | None => result ++ [objectOf docMap]
                        end
                    | _ => result
                    end) [] docs)
  | _ => inr DocumentsNotAnArray
  end.

Definition parseJsonData (jsonData : Value) : list (gmap string Value) + importError :=
  match jsonData with
  | VMap data =>
      match objectOf data !! "documents" with
      | Some documents => parseDocumentsArray documents
      | None => inl [objectOf data]
      end
  | VSlice data =>
      inl (foldl (λ documents item,
                    match item with
                    | VMap doc => documents ++ [objectOf doc]
                    | _ => documents
                    end) [] data)
  | _ => inr UnsupportedJSONFormat
  end.

(** The id and the data that [importJSON] inserts for the document of turn
    [i]: the configured field when the document holds a value other than
    [nil] under it, a generated id otherwise. *)
Definition jsonDocument (idField : string) (tick : Tick) (i : nat)
    (docData : gmap string Value) : string * gmap string Value :=
  let generated :=
    ("imported_" +:+ pretty (stamp tick) +:+ "_" +:+ pretty (Z.of_nat i), docData) in
  if String.eqb idField "" then generated
  else
    match docData !! idField with
    | None | Some VNil => generated
    | Some v => (Sprint v, delete idField docData)
    end.

(** The loop of [importJSON] over the documents, from turn [i] on. *)
Fixpoint importDocuments (idField : string) (clock : nat → Tick) (i : nat)
    (documents : list (gmap string Value)) (st : Collection * ImportResult)
    : Collection * ImportResult :=
  match documents with
  | [] => st
  | docData :: rest =>
      let '(docID, data) := jsonDocument idField (clock i) i docData in
      importDocuments idField clock (S i) rest (insertCounted (clock i) docID data st)
  end.

(** [importJSON] on the decoded content of the file. *)
Definition importJSONDecoded (options : ImportOptions) (clock : nat → Tick)
    (jsonData : Value) (c : Collection)
    : Collection * (ImportResult + importError) :=
  match parseJsonData jsonData with
  | inr err => (c, inr (FailedToParseJSONData err))
  | inl documents =>
      let st := importDocuments (IDField options) clock 0 documents (c, newResult) in
      (fst st, inl (snd st))
  end.

(** [importJSONFromContent] on the decoded content: every id is generated. *)
Definition importJSONContentDecoded (clock : nat → Tick) (jsonData : Value)
    (c : Collection) : Collection * (ImportResult + importError) :=
  match parseJsonData jsonData with
  | inr err => (c, inr (FailedToParseJSONData err))
  | inl documents =>
      let st := importDocuments "" clock 0 documents (c, newResult) in
      (fst st, inl (snd st))
  end.

End EngineMore.

(** ** A model of the library for evaluating examples

    [parseDecimal] reads Go's decimal floating-point syntax: an optional
    sign, digits with an optional point, an optional exponent; and the
    names [inf], [infinity] (signed or not) and [nan], in any letter case.
    The value is the binary64 number nearest to the numeral, ties to even;
    a numeral beyond the largest binary64 is an error ([ErrRange]).
    Numerals with underscores or in hexadecimal are outside the model.  The
    other three functions of [exampleLib] are stand-ins: no example reaches a
    [float64] or a time to print, nor a regular expression. *)
Module GoModel.

Definition isDigit (c : ascii) : bool :=
  let n := Z.of_N (N_of_ascii c) in (48 <=? n) && (n <=? 57).

Definition lower (c : ascii) : ascii :=
  let n := N_of_ascii c in
  if ((65 <=? n) && (n <=? 90))%N then ascii_of_N (n + 32) else c.

Fixpoint lowerString (s : string) : string :=
  match s with
  | EmptyString => EmptyString
  | String c rest => String (lower c) (lowerString rest)
  end.

(** Leading digits of [s]: their value on top of [acc], how many they are,
    and the rest of the string. *)
Fixpoint readDigits (s : string) (acc : Z) (cnt : Z) : Z * Z * string :=
  match s with
  | String c rest =>
      if isDigit c
      then readDigits rest (10 * acc + (Z.of_N (N_of_ascii c) - 48)) (cnt + 1)
      else (acc, cnt, s)
  | EmptyString => (acc, cnt, s)
  end.

(** The digits of an exponent; as in [readFloat] the value stops growing
    once it has reached 10000. *)
Fixpoint readExponent (s : string) (acc : Z) (cnt : Z) : Z * Z * string :=
  match s with
  | String c rest =>
      if isDigit c
      then readExponent rest
             (if acc <? 10000 then 10 * acc + (Z.of_N (N_of_ascii c) - 48) else acc)
             (cnt + 1)
      else (acc, cnt, s)
  | EmptyString => (acc, cnt, s)
  end.

Definition splitSign (s : string) : bool * bool * string :=
  match s with
  | String "-" rest => (true, true, rest)
  | String "+" rest => (true, false, rest)
  | _ => (false, false, s)
  end.

(** [mant * 10 ^ e10], negated when [neg], rounded to binary64. *)
Definition roundDecimal (neg : bool) (mant e10 : Z) : spec_float :=
  let signed (m : Z) := if neg then - m else m in
  if mant =? 0 then S754_zero neg
  else if 0 <=? e10 then binary_normalize 53 1024 (signed (mant * 10 ^ e10)) 0 neg
  else
    let den := 10 ^ (- e10) in
    let shift := 1200 + Z.log2 den in
    let q := (mant * 2 ^ shift) / den in
    let sticky := if (mant * 2 ^ shift) mod den =? 0 then 0 else 1 in
    binary_normalize 53 1024 (signed (2 * q + sticky)) (- shift - 1) neg.

Definition parseDecimal (s : string) : option float :=
  let '(signed, neg, body) := splitSign s in
  let name := lowerString body in
  if String.eqb name "inf" || String.eqb name "infinity"
  then Some (if neg then neg_infinity else infinity)
  else if String.eqb name "nan" then (if signed then None else Some nan)
  else
    let '(m1, n1, r1) := readDigits body 0 0 in
    let '(m2, n2, r2) :=
      match r1 with
      | String "." rest => readDigits rest m1 0
      | _ => (m1, 0, r1)
      end in
    if n1 + n2 =? 0 then None
    else
      let expo :=
        match r2 with
        | EmptyString => Some 0
        | String c rest =>
            if Ascii.eqb (lower c) "e" then
              let '(_, eneg, r3) := splitSign rest in
              match readExponent r3 0 0 with
              | (e, cnt, EmptyString) =>
                  if cnt =? 0 then None else Some (if eneg then - e else e)
              | _ => None
              end
            else None
        end in
      match expo with
      | None => None
      | Some e =>
          match roundDecimal neg m2 (e - n2) with
          | S754_infinity _ => None
          | sf => Some (SF2Prim sf)
          end
      end.

Definition exampleLib : GoLib :=
  {| FormatFloat := λ _, ""%string;
     FormatTime := λ _, ""%string;
     ParseFloat := parseDecimal;
     RegexpMatch := λ _ _, None |}.

End GoModel.

(** ** Invariants of a collection *)

Section Invariants.
Context `{GoLib}.

(** Every document is stored under its own id. *)
Definition ids_coherent (c : Collection) : Prop :=
  ∀ id d, Documents c !! id = Some d → ID d = id.

(** Every entry of the index stored under [f] names a stored document whose
    [f] field prints as the key of the entry. *)
Definition index_consistent (c : Collection) : Prop :=
  ∀ f index k id,
    Indexes c !! f = Some index →
    Values index !! k = Some id →
    ∃ d v, Documents c !! id = Some d ∧ Data d !! f = Some v ∧ Sprint v = k.

(** Every index entry names a stored document. *)
Definition entries_live (c : Collection) : Prop :=
  ∀ f index k id,
    Indexes c !! f = Some index →
    Values index !! k = Some id →
    is_Some (Documents c !! id).

(** The collections that [Insert], [Update], [Delete] and [CreateIndex]
    build from the empty collection of [CreateCollection], whether the calls
    succeed or fail. *)
Inductive Reachable : Collection → Prop :=
  | reach_new name :
      Reachable (newCollection name)
  | reach_Insert c created updated id data :
      Reachable c → Reachable (fst (Insert created updated id data c))
  | reach_Update c now id data :
      Reachable c → Reachable (fst (Update now id data c))
  | reach_Delete c id :
      Reachable c → Reachable (fst (Delete id c))
  | reach_CreateIndex c rng field :
      Reachable c → go_range rng (Documents c) →
      Reachable (CreateIndex rng field c).

(** A document matches [value] on [field] under the stringification rule:
    the field is present and prints exactly as [value] prints. *)
Definition rendersAs (field : string) (value : Value) (d : Document) : bool :=
  match Data d !! field with
  | Some x => String.eqb (Sprint x) (Sprint value)
  | None => false
  end.

(** Two documents tie on the sort key: both lack it, or both have it and
    the two values compare equal. *)
Definition sortTie (qb : QueryBuilder) (d1 d2 : Document) : Prop :=
  match Data d1 !! sortBy qb, Data d2 !! sortBy qb with
  | Some v1, Some v2 => compareValues v1 v2 = 0
  | None, None => True
  | _, _ => False
  end.

Definition lacksSortField (qb : QueryBuilder) (d : Document) : bool :=
  match Data d !! sortBy qb with
  | Some _ => false
  | None => true
  end.

(** The conjunction of all the filters of a query. *)
Definition matchesAll (qb : QueryBuilder) (d : Document) : bool :=
  forallb (matchesFilter d) (filters qb).

(** The sum, over the output groups in the order of the output, of the
    value that each group holds under [out]. *)
Definition sumOfGroupSums (out : string) (res : list (gmap string Value)) : float :=
  foldl (λ acc g,
           match g !! out with
           | Some (VFloat x) => PrimFloat.add acc x
           | _ => acc
           end) 0%float res.

Definition totalOfGroupSums (out : string) (r : list (gmap string Value) + error)
    : option float :=
  match r with
  | inl res => Some (sumOfGroupSums out res)
  | inr _ => None
  end.

(** The items of [data] that fall into the group [k], in input order. *)
Definition itemsOfGroup (s : GroupStage) (k : string) (data : list (gmap string Value))
    : list (gmap string Value) :=
  filter (λ item, getGroupKey s item = k) data.

(** The comparison as the specification words it: a three-way numeric
    comparison when both renderings parse as numbers, the lexicographic
    comparison of the renderings otherwise.  Two numbers that IEEE 754 leaves
    unordered (one of them is a NaN) count as equal. *)
Definition numericCompare (x y : float) : Z :=
  match PrimFloat.compare x y with
  | FLt => -1
  | FGt => 1
  | FEq | FNotComparable => 0
  end.

Definition lexCompare (s t : string) : Z :=
  match String.compare s t with
  | Lt => -1
  | Eq => 0
  | Gt => 1
  end.

Definition Compare_spec (a b : Value) : Z :=
  match ParseFloat (Sprint a), ParseFloat (Sprint b) with
  | Some x, Some y => numericCompare x y
  | _, _ => lexCompare (Sprint a) (Sprint b)
  end.

End Invariants.

(** ** Notions for the further properties *)

Section MoreNotions.
Context `{GoLib}.

(** A document passes the filter [field op value]. *)
Definition holds (d : Document) (field op : string) (value : Value) : bool :=
  matchesFilter d {| FField := field; FOperator := op; FValue := value |}.

(** The operators that [matchesFilter] knows. *)
Definition knownOperators : list string :=
  [OpEqual; OpNotEqual; OpGreaterThan; OpGreaterThanOrEqual; OpLessThan;
   OpLessThanOrEqual; OpIn; OpNotIn; OpRegex; OpExists; OpType; OpSize].

(** The filter of the query builder that a filter of a request becomes. *)
Definition filterOf (f : QueryFilter) : Filter :=
  {| FField := QFField f; FOperator := QFOperator f; FValue := QFValue f |}.

(** The sum, over the output groups, of the integer that each group holds
    under [out]. *)
Definition sumOfGroupCounts (out : string) (res : list (gmap string Value)) : Z :=
  foldl (λ acc g,
           match g !! out with
           | Some (VInt n) => acc + n
           | _ => acc
           end) 0 res.

(** The operations that [calculateAggregation] knows. *)
Definition knownAggregations : list string := ["count"; "sum"; "avg"; "max"; "min"].

(** The document that carries an item as its data. *)
Definition itemAsDocument (item : gmap string Value) : Document :=
  {| ID := ""; Data := item; CreatedAt := 0; UpdatedAt := 0 |}.

(** The numbers that the items of [data] hold in [field], in input order. *)
Definition numbersOf (field : string) (data : list (gmap string Value)) : list float :=
  omap (numericField field) data.

(** The extremum of [x :: xs] that a loop keeps when it replaces the current
    one by every later number that is strictly better. *)
Definition extremum (better : float → float → bool) (x : float) (xs : list float) : float :=
  foldl (λ cur num, if better num cur then num else cur) x xs.

(** The operators that [MatchStage.matchesFilter] knows. *)
Definition matchStageOperators : list string := [OpEqual; OpGreaterThan; OpLessThan].

(** An item passes all the filters of a match stage. *)
Definition passes (s : MatchStage) (item : gmap string Value) : bool :=
  forallb (matchStageFilter item) (Filters s).

(** The document that an element of a decoded JSON array gives, if any. *)
Definition asObject (item : Value) : option (gmap string Value) :=
  match item with
  | VMap doc => Some (objectOf doc)
  | _ => None
  end.

(** The document that an element of the array [documents] of the export
    format gives, if any: the object under [data] when there is one, the
    element itself when it has no key [data]. *)
Definition exportedData (doc : Value) : option (gmap string Value) :=
  match doc with
  | VMap docMap =>
      match objectOf docMap !! "data" with
      | Some data => asObject data
      | None => Some (objectOf docMap)
      end
  | _ => None
  end.

End MoreNotions.

(** ** The CSV writer and readers, on the records of the file *)

(** [exportCSV], [importCSV] and [importCSVFromContent] between the file and
    the records that [encoding/csv] writes and reads.  The layout of a time
    and the conversion of a float64 to an int64, which the language leaves
    to the platform outside the range of int64, are those of the
    environment. *)
Section CSV.
Context `{GoLib}.
Variable FormatRFC3339 : Time → string.
Variable int64OfFloat : float → Z.

Inductive exportError : Type :=
  | NoDocumentsToExport.

Definition isReserved (header : string) : bool :=
  String.eqb header "_id" || String.eqb header "created_at" ||
  String.eqb header "updated_at".

(** The set of field names that the first loop of [exportCSV] collects.
    Every value of the map is [true], so the order of the loop over the
    data of a document cannot be observed. *)
Definition fieldSet (documents : list Document) : gmap string bool :=
  foldl (λ fields doc, ((λ _, true) <$> Data doc) ∪ fields)
        {[ "_id" := true; "created_at" := true; "updated_at" := true ]}
        documents.

Definition csvHeaders (rng : Range bool) (documents : list Document) : list string :=
  foldl (λ headers kv,
           if negb (isReserved (fst kv)) then headers ++ [fst kv] else headers)
        ["_id"; "created_at"; "updated_at"] (rng (fieldSet documents)).

Definition csvRow (headers : list string) (doc : Document) : list string :=
  foldl (λ row field,
           match Data doc !! field with
           | Some value => row ++ [Sprint value]
           | None => row ++ [""]
           end)
        [ID doc; FormatRFC3339 (CreatedAt doc); FormatRFC3339 (UpdatedAt doc)]
        (drop 3 headers).

(** The records that [exportCSV] hands to the writer, the header first. *)
Definition exportCSVRecords (rng : Range bool) (documents : list Document)
    : list (list string) + exportError :=
  match documents with
  | [] => inr NoDocumentsToExport
  | _ =>
      let headers := csvHeaders rng documents in
      inl (headers :: foldl (λ rows doc, rows ++ [csvRow headers doc]) [] documents)
  end.

(** [strconv.ParseBool]. *)
Definition ParseBool (str : string) : option bool :=
  if bool_decide (str ∈ ["1"; "t"; "T"; "TRUE"; "true"; "True"]) then Some true
  else if bool_decide (str ∈ ["0"; "f"; "F"; "FALSE"; "false"; "False"]) then Some false
  else None.

(** [float64(n)] for an int64 [n]: the nearest float64. *)
Definition float64OfInt64 (n : Z) : float :=
  SF2Prim (binary_normalize 53 1024 n 0 false).

(** The value that the readers store for a cell: a number when the cell
    parses as one, an integer when the number is one, else a boolean, else
    the text. *)
Definition cellValue (value : string) : Value :=
  match ParseFloat value with
  | Some numValue =>
      if PrimFloat.eqb numValue (float64OfInt64 (int64OfFloat numValue))
      then VInt64 (int64OfFloat numValue)
      else VFloat numValue
  | None =>
      match ParseBool value with
      | Some boolValue => VBool boolValue
      | None => VString value
      end
  end.

(** The search of [importCSV] for the id column; [-1] when there is none. *)
Fixpoint findIDColumn (idField : string) (headers : list string) (i : Z) : Z :=
  match headers with
  | [] => -1
  | header :: rest =>
      if String.eqb header idField then i else findIDColumn idField rest (i + 1)
  end.

Definition idColumnOf (idField : string) (headers : list string) : Z :=
  if negb (String.eqb idField "") then findIDColumn idField headers 0 else -1.

(** The loop of [importCSV] over the cells of one record whose length is
    that of the header, from cell [i] on, on the pair of the data and the
    id of the document. *)
Fixpoint recordLoop (idColumn : Z) (headers record : list string) (i : Z)
    (st : gmap string Value * string) : gmap string Value * string :=
  match headers, record with
  | header :: headers', value :: record' =>
      let st' :=
        if i =? idColumn then (fst st, value)
        else if isReserved header then
          if String.eqb header "_id" && String.eqb (snd st) "" then (fst st, value)
          else st
        else (<[header := cellValue value]> (fst st), snd st) in
      recordLoop idColumn headers' record' (i + 1) st'
  | _, _ => st
  end.

(** The same loop in [importCSVFromContent]: no id column, and a column
    [_id] always gives the id. *)
Fixpoint contentRecordLoop (headers record : list string)
    (st : gmap string Value * string) : gmap string Value * string :=
  match headers, record with
  | header :: headers', value :: record' =>
      let st' :=
        if isReserved header then
          if String.eqb header "_id" then (fst st, value) else st
        else (<[header := cellValue value]> (fst st), snd st) in
      contentRecordLoop headers' record' st'
  | _, _ => st
  end.

(** A record whose length is not that of the header: counted as skipped. *)
Definition mismatch (rowIndex : nat) (st : Collection * ImportResult)
    : Collection * ImportResult :=
  (fst st,
   {| Imported := Imported (snd st);
      Skipped := Skipped (snd st) + 1;
      Errors := Errors (snd st) ++
                ["Row " +:+ pretty (Z.of_nat rowIndex + 2) +:+ ": column count mismatch"] |}).

(** One turn of the loop of [importCSV] over the data rows. *)
Definition importRow (idColumn : Z) (headers : list string) (tick : Tick)
    (rowIndex : nat) (record : list string) (st : Collection * ImportResult)
    : Collection * ImportResult :=
  if negb (length record =? length headers)%nat then mismatch rowIndex st
  else
    let '(docData, docID) := recordLoop idColumn headers record 0 (∅, "") in
    let docID :=
      if String.eqb docID ""
      then "csv_import_" +:+ pretty (stamp tick) +:+ "_" +:+ pretty (Z.of_nat rowIndex)
      else docID in
    insertCounted tick docID docData st.

Definition importContentRow (headers : list string) (tick : Tick)
    (rowIndex : nat) (record : list string) (st : Collection * ImportResult)
    : Collection * ImportResult :=
  if negb (length record =? length headers)%nat then mismatch rowIndex st
  else
    let generated :=
      "csv_imported_" +:+ pretty (stamp tick) +:+ "_" +:+ pretty (Z.of_nat rowIndex) in
    let '(docData, docID) := contentRecordLoop headers record (∅, generated) in
    insertCounted tick docID docData st.

(** The loop over [records[1:]], from row [rowIndex] on. *)
Fixpoint importRows (row : nat → list string → Collection * ImportResult →
                           Collection * ImportResult)
    (rowIndex : nat) (rows : list (list string)) (st : Collection * ImportResult)
    : Collection * ImportResult :=
  match rows with
  | [] => st
  | record :: rest => importRows row (S rowIndex) rest (row rowIndex record st)
  end.

(** [importCSV] on the records of the file. *)
Definition importCSVRecords (options : ImportOptions) (clock : nat → Tick)
    (records : list (list string)) (c : Collection)
    : Collection * (ImportResult + importError) :=
  if (length records <? 2)%nat then (c, inr TooFewRecords)
  else
    match records with
    | [] => (c, inr TooFewRecords)
    | headers :: rows =>
        let idColumn := idColumnOf (IDField options) headers in
        let st := importRows (λ rowIndex, importRow idColumn headers (clock rowIndex) rowIndex)
                             0 rows (c, newResult) in
        (fst st, inl (snd st))
    end.

(** [importCSVFromContent] on the records of the content. *)
Definition importCSVContentRecords (clock : nat → Tick)
    (records : list (list string)) (c : Collection)
    : Collection * (ImportResult + importError) :=
  if (length records <? 2)%nat then (c, inr TooFewRecords)
  else
    match records with
    | [] => (c, inr TooFewRecords)
    | headers :: rows =>
        let st := importRows (λ rowIndex, importContentRow headers (clock rowIndex) rowIndex)
                             0 rows (c, newResult) in
        (fst st, inl (snd st))
    end.

End CSV.

Section CSVNotions.
Context `{GoLib}.

Definition reservedHeaders : list string := ["_id"; "created_at"; "updated_at"].

(** The columns of the export after the three reserved ones. *)
Definition exportedFields (rng : Range bool) (documents : list Document) : list string :=
  filter (λ field, isReserved field = false) (fst <$> rng (fieldSet documents)).

(** The cell of a document in the column of a field. *)
Definition cellOf (doc : Document) (field : string) : string :=
  match Data doc !! field with
  | Some value => Sprint value
  | None => ""
  end.

(** What the reader of [encoding/csv] gives back for a field that its
    writer wrote: the writer quotes a field that holds a carriage return or
    a line feed and writes it as it is, and the reader, which turns the end
    CR LF of every line it reads into LF, also inside a quoted field, drops
    each carriage return that precedes a line feed.  Everything else comes
    back as written. *)
Fixpoint readBackField (field : string) : string :=
  match field with
  | EmptyString => EmptyString
  | String c rest =>
      match rest with
      | String c' _ =>
          if Ascii.eqb c "013" && Ascii.eqb c' "010" then readBackField rest
          else String c (readBackField rest)
      | EmptyString => String c EmptyString
      end
  end.

(** The records that [ReadAll] returns for the file that the writer wrote
    from [records], when these have the same length, of two fields or
    more: no line of the file is empty and every record has as many fields
    as the first. *)
Definition readBack (records : list (list string)) : list (list string) :=
  (λ record : list string, readBackField <$> record) <$> records.

(** What [n] turns of an import loop do to the collection and to the
    counts: every turn imports or skips, a skip leaves one message, the
    collection grows by the number imported, stored documents and indexed
    fields stay, and the invariant of the indexes is kept. *)
Definition accounted (n : Z) (st st' : Collection * ImportResult) : Prop :=
  Imported (snd st') + Skipped (snd st') = Imported (snd st) + Skipped (snd st) + n ∧
  Imported (snd st) ≤ Imported (snd st') ∧ Skipped (snd st) ≤ Skipped (snd st') ∧
  Z.of_nat (length (Errors (snd st'))) - Skipped (snd st')
    = Z.of_nat (length (Errors (snd st))) - Skipped (snd st) ∧
  Z.of_nat (size (Documents (fst st'))) - Imported (snd st')
    = Z.of_nat (size (Documents (fst st))) - Imported (snd st) ∧
  (∀ id d, Documents (fst st) !! id = Some d → Documents (fst st') !! id = Some d) ∧
  dom (Indexes (fst st')) = dom (Indexes (fst st)) ∧
  (ids_coherent (fst st) ∧ index_consistent (fst st) →
   ids_coherent (fst st') ∧ index_consistent (fst st')).

End CSVNotions.

(** ** Example data *)

Module Examples.
#[local] Existing Instance GoModel.exampleLib.

Definition fieldIs (field : string) (v : Value) : gmap string Value := {[ field := v ]}.

(** Insert [a] with [f = 1], index [f], insert [b] with [f = 1]: the entry
    of the index under ["1"] now names [b]. *)
Definition items0 : Collection := newCollection "items".
Definition itemsA : Collection := fst (Insert 1 1 "a" (fieldIs "f" (VInt 1)) items0).
Definition itemsIndexed : Collection := CreateIndex map_to_list "f" itemsA.
Definition itemsAB : Collection := fst (Insert 2 2 "b" (fieldIs "f" (VInt 1)) itemsIndexed).

(** Then update [a] to [f = 2]. *)
Definition itemsUpdated : Collection := fst (Update 3 "a" (fieldIs "f" (VInt 2)) itemsAB).

(** A database holding the indexed collection, and an import that
    overwrites it. *)
Definition shop : Database :=
  {| DBName := "shop"; Collections := {[ "items" := itemsIndexed ]}; Path := "shop.enosql" |}.

Definition overwriteItems : ImportOptions :=
  {| Format := "json"; TargetCollection := "items"; FilePath := "items.json";
     CreateIfMissing := false; OverwriteData := true; IDField := "" |}.

(** One document whose field [n] is the string ["1e1"]. *)
Definition tens : Collection :=
  fst (Insert 1 1 "a" (fieldIs "n" (VString "1e1")) (newCollection "tens")).

(** Four items in two groups; [total] sums the field [f]. *)
Definition ledgerItem (g : string) (n : Z) : gmap string Value :=
  {[ "g" := VString g; "f" := VInt n ]}.

Definition ledger : list (gmap string Value) :=
  [ledgerItem "A" 10000000000000000; ledgerItem "B" 1; ledgerItem "B" 1; ledgerItem "A" 1].

Definition totals : GroupStage :=
  {| GroupID := VString "g";
     Fields := {[ "total" := {| Operation := "sum"; AggField := "f" |} ]} |}.

(** Ten documents [n = 0 .. 9], and the query [n >= 3], sorted by [n]
    descending, skip 2, limit 3. *)
Definition numbered : Collection :=
  foldl (λ c n, fst (Insert 0 0 ("d" +:+ pretty n) (fieldIs "n" (VInt n)) c))
        (newCollection "numbers") (seqZ 0 10).

Definition page : QueryBuilder :=
  Limit 3 (Skip 2 (Sort "n" false
    (Where "n" OpGreaterThanOrEqual (VInt 3) (NewQuery numbered)))).

(** Documents to sort by [n]: two of them lack the field, two tie on it
    (["2"] and [2]). *)
Definition sortable (id : string) (data : gmap string Value) : Document :=
  {| ID := id; Data := data; CreatedAt := 0; UpdatedAt := 0 |}.

Definition unsorted : list Document :=
  [sortable "m1" ∅; sortable "p3" (fieldIs "n" (VInt 3));
   sortable "s2" (fieldIs "n" (VString "2")); sortable "m2" ∅;
   sortable "i2" (fieldIs "n" (VInt 2)); sortable "p1" (fieldIs "n" (VInt 1))].

Definition byN (ascending : bool) : QueryBuilder :=
  Sort "n" ascending (NewQuery (newCollection "unsorted")).

(** The two orders in which the loop over the two groups can run. *)
Definition forwards {A : Type} : Range A := map_to_list.
Definition backwards {A : Type} : Range A := λ m, reverse (map_to_list m).

End Examples.

(** Data for the import, export and pipeline examples. *)
Module MoreExamples.
Import Examples.
#[local] Existing Instance GoModel.exampleLib.

(** The query [n >= 3] on the ten numbered documents. *)
Definition atLeastThree : QueryBuilder :=
  Where "n" OpGreaterThanOrEqual (VInt 3) (NewQuery numbered).

(** The document [a] of [itemsAB]. *)
Definition documentA : Document :=
  {| ID := "a"; Data := fieldIs "f" (VInt 1); CreatedAt := 1; UpdatedAt := 1 |}.

(** A stage that counts the items of each group, and one with an operation
    that the engine does not know. *)
Definition tally : GroupStage :=
  {| GroupID := VString "g";
     Fields := {[ "n" := {| Operation := "count"; AggField := "" |} ]} |}.

Definition medians : GroupStage :=
  {| GroupID := VString "g";
     Fields := {[ "m" := {| Operation := "median"; AggField := "f" |} ]} |}.

Definition plainOrders : nat → StageOrders :=
  λ _, {| groupOrder := forwards; fieldOrder := λ _, forwards |}.

(** The database after the overwriting import has emptied [items]: its
    index on [f] still holds the entry of [a]. *)
Definition emptied : Database := fst (ImportDataPrelude overwriteItems shop).

(** The collection [items] of the emptied database after the import has
    inserted a row [a] with [f = 2]: the index on [f] still holds, under
    ["1"], the entry of the document [a] that the import removed. *)
Definition reimported : Collection :=
  fst (Insert 4 4 "a" (fieldIs "f" (VInt 2)) (setDocuments ∅ itemsIndexed)).

(** Two documents to export; the second lacks [n] and holds [m]. *)
Definition catalog : list Document :=
  [sortable "p3" (fieldIs "n" (VInt 3)); sortable "s2" (fieldIs "m" (VString "x"))].

(** Two documents to export, one with a text of two lines that ends its
    first line with a carriage return and a line feed. *)
Definition lf : string := String "010" "".
Definition crlf : string := String "013" lf.

Definition memos : list Document :=
  [sortable "p3" (fieldIs "n" (VInt 3));
   sortable "n1" (fieldIs "t" (VString ("a" +:+ crlf +:+ "b")))].

(** A layout of times for the example, and the truncation toward zero of a
    float64, which is the conversion to int64 on the floats within its
    range. *)
Definition layout : Time → string := pretty.

Definition truncate (x : float) : Z :=
  match Prim2SF x with
  | S754_finite negative m e =>
      let magnitude := if 0 <=? e then Z.pos m * 2 ^ e else Z.pos m / 2 ^ (- e) in
      if negative then - magnitude else magnitude
  | _ => 0
  end.

Definition steady : nat → Tick :=
  λ _, {| stamp := 7; created := 5; updated := 5 |}.

(** A header with an id column [sku] and a reserved column, and a record. *)
Definition stockHeaders : list string := ["sku"; "_id"; "qty"; "note"].
Definition stockRecord : list string := ["k1"; "x9"; "3"; "true"].

(** The same record with an empty cell under [_id]. *)
Definition blankRecord : list string := ["k1"; ""; "3"; "true"].

End MoreExamples.

Example parseDecimal_ok :
  GoModel.parseDecimal "10" = Some 10%float ∧
  GoModel.parseDecimal "1e1" = Some 10%float ∧
  GoModel.parseDecimal "0.1" = Some 0x1.999999999999ap-4%float ∧
  GoModel.parseDecimal "-1.5E+2" = Some (-150)%float ∧
  GoModel.parseDecimal ".5" = Some 0.5%float ∧
  GoModel.parseDecimal "5." = Some 5%float ∧
  GoModel.parseDecimal "0.30000000000000004" = Some 0x1.3333333333334p-2%float ∧
  GoModel.parseDecimal "2.2250738585072011e-308" = Some 0x0.fffffffffffffp-1022%float ∧
  GoModel.parseDecimal "5e-324" = Some 0x0.0000000000001p-1022%float ∧
  GoModel.parseDecimal "2e-324" = Some 0%float ∧
  GoModel.parseDecimal "1.7976931348623157e308" = Some 0x1.fffffffffffffp+1023%float ∧
  GoModel.parseDecimal "10000000000000001" = Some 1e16%float ∧
  GoModel.parseDecimal "9007199254740993" = Some 9007199254740992%float ∧
  GoModel.parseDecimal "1e309" = None ∧
  GoModel.parseDecimal "-Infinity" = Some neg_infinity ∧
  GoModel.parseDecimal "NaN" = Some nan ∧
  GoModel.parseDecimal "abc" = None ∧
  GoModel.parseDecimal "" = None ∧
  GoModel.parseDecimal "." = None ∧
  GoModel.parseDecimal "1e" = None ∧
  GoModel.parseDecimal "12a" = None.
Proof. vm_compute. repeat split. Qed.

(** ** Index maintenance *)

Section IndexMaintenance.
Context `{GoLib}.

Lemma Documents_updateIndexes doc c :
  Documents (updateIndexes doc c) = Documents c.
Proof. reflexivity. Qed.

Lemma Documents_removeFromIndexes doc c :
  Documents (removeFromIndexes doc c) = Documents c.
Proof. reflexivity. Qed.

Lemma Documents_setDocuments docs c : Documents (setDocuments docs c) = docs.
Proof. reflexivity. Qed.

Lemma Indexes_setDocuments docs c : Indexes (setDocuments docs c) = Indexes c.
Proof. reflexivity. Qed.

Lemma Documents_setIndexes ixs c : Documents (setIndexes ixs c) = Documents c.
Proof. reflexivity. Qed.

Lemma Indexes_setIndexes ixs c : Indexes (setIndexes ixs c) = ixs.
Proof. reflexivity. Qed.

Create Rewrite HintDb coll.

#[local] Hint Rewrite Documents_updateIndexes Documents_removeFromIndexes
  Documents_setDocuments Indexes_setDocuments Documents_setIndexes
  Indexes_setIndexes : coll.

Ltac coll := autorewrite with coll in *.

Lemma updateIndexes_lookup doc c f :
  Indexes (updateIndexes doc c) !! f = updateIndex doc f <$> Indexes c !! f.
Proof.
  unfold updateIndexes, setIndexes; simpl.
  rewrite map_lookup_imap. by destruct (Indexes c !! f).
Qed.

Lemma removeFromIndexes_lookup doc c f :
  Indexes (removeFromIndexes doc c) !! f = removeFromIndex doc f <$> Indexes c !! f.
Proof.
  unfold removeFromIndexes, setIndexes; simpl.
  rewrite map_lookup_imap. by destruct (Indexes c !! f).
Qed.

Lemma updateIndex_entry doc f index k id :
  Values (updateIndex doc f index) !! k = Some id →
  (∃ v, Data doc !! f = Some v ∧ Sprint v = k ∧ id = ID doc) ∨
  Values index !! k = Some id.
Proof.
  unfold updateIndex. destruct (Data doc !! f) as [v|] eqn:Hv; simpl; [|by right].
  destruct (decide (Sprint v = k)) as [<-|Hne].
  - rewrite lookup_insert_eq. intros [= <-]. left. by exists v.
  - rewrite lookup_insert_ne by done. by right.
Qed.

Lemma removeFromIndex_entry doc f index k id :
  Values (removeFromIndex doc f index) !! k = Some id →
  Values index !! k = Some id ∧
  ∀ v, Data doc !! f = Some v → Sprint v ≠ k.
Proof.
  unfold removeFromIndex. destruct (Data doc !! f) as [v|] eqn:Hv; simpl.
  - intros Hk. apply lookup_delete_Some in Hk as [Hne Hk].
    split; [done|]. by intros ? [= <-].
  - intros Hk. split; [done|]. by intros.
Qed.

(** After [removeFromIndexes doc], no entry of a consistent collection
    names [doc] any more. *)
Lemma removeFromIndexes_forgets c id doc f index k id' :
  index_consistent c →
  Documents c !! id = Some doc →
  Indexes (removeFromIndexes doc c) !! f = Some index →
  Values index !! k = Some id' →
  id' ≠ id ∧ ∃ index0, Indexes c !! f = Some index0 ∧ Values index0 !! k = Some id'.
Proof.
  intros Hc Hdoc Hf Hk. rewrite removeFromIndexes_lookup in Hf.
  destruct (Indexes c !! f) as [index0|] eqn:Hf0; simplify_eq/=.
  apply removeFromIndex_entry in Hk as [Hk Hfresh].
  split; [|by eauto].
  intros ->. destruct (Hc f index0 k id Hf0 Hk) as (d & v & Hd & Hv & Hs).
  simplify_eq. by eapply Hfresh.
Qed.

Lemma Insert_preserves created updated id data c :
  ids_coherent c ∧ index_consistent c →
  ids_coherent (fst (Insert created updated id data c)) ∧
  index_consistent (fst (Insert created updated id data c)).
Proof.
  intros [Hids Hc]. unfold Insert.
  destruct (Documents c !! id) as [d0|] eqn:Hid; simpl; [done|].
  split.
  - intros id' d Hd. coll.
    apply lookup_insert_Some in Hd as [[<- <-]|[? Hd]]; [done|by eauto].
  - intros f index k id' Hf Hk. rewrite updateIndexes_lookup in Hf. coll.
    destruct (Indexes c !! f) as [index0|] eqn:Hf0; simplify_eq/=.
    apply updateIndex_entry in Hk as [(v & Hv & Hs & ->)|Hk]; simpl in *.
    + eexists _, v. by rewrite lookup_insert_eq.
    + destruct (Hc f index0 k id' Hf0 Hk) as (d & v & Hd & Hv & Hs).
      exists d, v. rewrite lookup_insert_ne; [done|]. by intros ->; simplify_eq.
Qed.

Lemma Update_preserves now id data c :
  ids_coherent c ∧ index_consistent c →
  ids_coherent (fst (Update now id data c)) ∧
  index_consistent (fst (Update now id data c)).
Proof.
  intros [Hids Hc]. unfold Update.
  destruct (Documents c !! id) as [doc|] eqn:Hid; simpl; [|done].
  split.
  - intros id' d Hd. coll.
    apply lookup_insert_Some in Hd as [[<- <-]|[? Hd]]; simpl; by eauto.
  - intros f index k id' Hf Hk. rewrite updateIndexes_lookup in Hf. coll.
    destruct (Indexes (removeFromIndexes doc c) !! f) as [index1|] eqn:Hf1; simplify_eq/=.
    apply updateIndex_entry in Hk as [(v & Hv & Hs & ->)|Hk]; simpl in *.
    + rewrite (Hids id doc Hid). eexists _, v. by rewrite lookup_insert_eq.
    + destruct (removeFromIndexes_forgets c id doc f index1 k id' Hc Hid Hf1 Hk)
        as (Hne & index0 & Hf0 & Hk0).
      destruct (Hc f index0 k id' Hf0 Hk0) as (d & v & Hd & Hv & Hs).
      exists d, v. by rewrite lookup_insert_ne.
Qed.

Lemma Delete_preserves id c :
  ids_coherent c ∧ index_consistent c →
  ids_coherent (fst (Delete id c)) ∧ index_consistent (fst (Delete id c)).
Proof.
  intros [Hids Hc]. unfold Delete.
  destruct (Documents c !! id) as [doc|] eqn:Hid; simpl; [|done].
  split.
  - intros id' d Hd. coll. apply lookup_delete_Some in Hd as [? Hd]. by eauto.
  - intros f index k id' Hf Hk. coll.
    destruct (removeFromIndexes_forgets c id doc f index k id' Hc Hid Hf Hk)
      as (Hne & index0 & Hf0 & Hk0).
    destruct (Hc f index0 k id' Hf0 Hk0) as (d & v & Hd & Hv & Hs).
    exists d, v. by rewrite lookup_delete_ne.
Qed.

(** What the loop of [buildIndex] has stored after any prefix of its run. *)
Lemma buildIndex_entry docs field k id :
  Values (buildIndex docs field) !! k = Some id →
  ∃ key d v, (key, d) ∈ docs ∧ ID d = id ∧ Data d !! field = Some v ∧ Sprint v = k.
Proof.
  unfold buildIndex.
  induction docs as [|[key d] docs IH] using rev_ind; simpl.
  - by rewrite lookup_empty.
  - rewrite foldl_app. simpl.
    assert (Hold : ∀ index0 : Index,
      (Values index0 !! k = Some id →
       ∃ key' d' v', (key', d') ∈ docs ∧ ID d' = id ∧
                     Data d' !! field = Some v' ∧ Sprint v' = k) →
      Values index0 !! k = Some id →
      ∃ key' d' v', (key', d') ∈ docs ++ [(key, d)] ∧ ID d' = id ∧
                    Data d' !! field = Some v' ∧ Sprint v' = k).
    { intros index0 Hi Hk. destruct (Hi Hk) as (key' & d' & v' & Hin & Hrest).
      exists key', d', v'. split; [|done]. apply elem_of_app. by left. }
    destruct (Data d !! field) as [v|] eqn:Hv; simpl; [|by apply Hold].
    destruct (decide (Sprint v = k)) as [<-|Hne].
    + rewrite lookup_insert_eq. intros [= <-].
      exists key, d, v. split; [|done].
      apply elem_of_app. right. by apply list_elem_of_singleton.
    + rewrite lookup_insert_ne by done. by apply Hold.
Qed.

Lemma CreateIndex_preserves rng field c :
  go_range rng (Documents c) →
  ids_coherent c ∧ index_consistent c →
  ids_coherent (CreateIndex rng field c) ∧ index_consistent (CreateIndex rng field c).
Proof.
  intros Hrng [Hids Hc]. split; [done|].
  intros f index k id Hf Hk. unfold CreateIndex in *. coll.
  apply lookup_insert_Some in Hf as [[<- <-]|[? Hf]]; [|by eauto].
  apply buildIndex_entry in Hk as (key & d & v & Hin & Hid & Hv & Hs).
  rewrite Hrng in Hin. apply elem_of_map_to_list in Hin.
  exists d, v. by rewrite <- Hid, (Hids key d Hin).
Qed.

Lemma Reachable_invariant c :
  Reachable c → ids_coherent c ∧ index_consistent c.
Proof.
  induction 1 as [name|c ????? IH|c ???? IH|c ?? IH|c rng field ? IH Hrng].
  - split; intros ?; intros; simplify_map_eq.
  - by apply Insert_preserves.
  - by apply Update_preserves.
  - by apply Delete_preserves.
  - by apply CreateIndex_preserves.
Qed.

(** C1.  Index consistency: in every collection built from the empty one by
    any finite sequence of Insert, Update, Delete and CreateIndex calls,
    every entry [(k, id)] of the index on a field [f] names a stored
    document, and the [f] field of that document prints as [k]. *)
Theorem index_consistency (c : Collection) :
  Reachable c →
  ∀ f index k id,
    Indexes c !! f = Some index →
    Values index !! k = Some id →
    ∃ d, Documents c !! id = Some d ∧
         ∃ v, Data d !! f = Some v ∧ Sprint v = k.
Proof.
  intros Hr f index k id Hf Hk.
  destruct (Reachable_invariant c Hr) as [_ Hc].
  destruct (Hc f index k id Hf Hk) as (d & v & ? & ? & ?). eauto.
Qed.

End IndexMaintenance.

(** ** Comparison of values *)

Section Comparison.
Context `{GoLib}.

Lemma SFcompare_antisym x y :
  SFcompare y x = CompOpp <$> SFcompare x y.
Proof.
  destruct x as [[]| []| |[] m1 e1], y as [[]| []| |[] m2 e2]; simpl; try reflexivity.
  all: rewrite (Z.compare_antisym e1 e2); destruct (e1 ?= e2)%Z; simpl; try reflexivity.
  all: rewrite (Pos.compare_cont_antisym m1 m2 Eq); simpl; try reflexivity.
  all: rewrite ?CompOpp_involutive; try reflexivity.
Qed.

Lemma float_ltb_compare x y :
  PrimFloat.ltb x y = match PrimFloat.compare x y with FLt => true | _ => false end.
Proof.
  rewrite FloatAxioms.ltb_spec, FloatAxioms.compare_spec. unfold SFltb.
  by destruct (SFcompare _ _) as [[]|].
Qed.

Lemma float_gtb_compare x y :
  PrimFloat.ltb y x = match PrimFloat.compare x y with FGt => true | _ => false end.
Proof.
  rewrite FloatAxioms.ltb_spec, FloatAxioms.compare_spec. unfold SFltb.
  rewrite (SFcompare_antisym (Prim2SF x) (Prim2SF y)).
  by destruct (SFcompare _ _) as [[]|].
Qed.

Lemma float_ltb_irrefl x : PrimFloat.ltb x x = false.
Proof.
  pose proof (float_ltb_compare x x) as H1.
  pose proof (float_gtb_compare x x) as H2.
  rewrite H1 in H2 |- *. by destruct (PrimFloat.compare x x).
Qed.

Lemma stringLess_compare s t :
  stringLess s t = match String.compare s t with Lt => true | _ => false end.
Proof.
  revert t; induction s as [|c1 s IH]; intros [|c2 t]; simpl; try reflexivity.
  unfold Ascii.compare. rewrite IH, !N.ltb_compare.
  rewrite (N.compare_antisym (N_of_ascii c1) (N_of_ascii c2)).
  by destruct (N_of_ascii c1 ?= N_of_ascii c2)%N.
Qed.

Lemma stringLess_irrefl s : stringLess s s = false.
Proof.
  rewrite stringLess_compare.
  destruct (String.compare s s) eqn:Hc; try reflexivity.
  pose proof (String.compare_antisym s s) as Ha. rewrite Hc in Ha. discriminate.
Qed.

Lemma stringComparison_lexCompare s t :
  (if stringLess s t then -1 else if stringLess t s then 1 else 0) = lexCompare s t.
Proof.
  rewrite !stringLess_compare. unfold lexCompare.
  rewrite (String.compare_antisym t s).
  by destruct (String.compare s t).
Qed.

Lemma numericComparison_numericCompare x y :
  (if PrimFloat.ltb x y then -1 else if PrimFloat.ltb y x then 1 else 0)
  = numericCompare x y.
Proof.
  rewrite float_ltb_compare, float_gtb_compare. unfold numericCompare.
  by destruct (PrimFloat.compare x y).
Qed.

Lemma compareValues_spec a b : compareValues a b = Compare_spec a b.
Proof.
  unfold compareValues, Compare_spec.
  destruct (ParseFloat (Sprint a)) as [x|], (ParseFloat (Sprint b)) as [y|];
    auto using stringComparison_lexCompare, numericComparison_numericCompare.
Qed.

Lemma compareValues_range a b :
  compareValues a b = -1 ∨ compareValues a b = 0 ∨ compareValues a b = 1.
Proof.
  rewrite compareValues_spec. unfold Compare_spec, numericCompare, lexCompare.
  destruct (ParseFloat (Sprint a)), (ParseFloat (Sprint b));
    try destruct (PrimFloat.compare _ _); try destruct (String.compare _ _); auto.
Qed.

(** Values that print alike compare equal, whatever their types. *)
Lemma compareValues_same_rendering a b :
  Sprint a = Sprint b → compareValues a b = 0.
Proof.
  intros Hs. unfold compareValues. rewrite Hs.
  rewrite stringLess_irrefl.
  destruct (ParseFloat (Sprint b)) as [x|]; [|done].
  by rewrite float_ltb_irrefl.
Qed.

(** C4.  [compareValues] prints both values; when both renderings parse as
    numbers the result is their numeric comparison, otherwise it is the
    lexicographic comparison of the renderings; the result is -1, 0 or 1;
    and the string ["10"] and the integer [10] compare equal. *)
Theorem compareValues_rule :
  (∀ a b : Value,
     compareValues a b =
       match ParseFloat (Sprint a), ParseFloat (Sprint b) with
       | Some x, Some y => numericCompare x y
       | _, _ => lexCompare (Sprint a) (Sprint b)
       end) ∧
  (∀ a b : Value,
     compareValues a b = -1 ∨ compareValues a b = 0 ∨ compareValues a b = 1) ∧
  compareValues (VString "10") (VInt 10) = 0.
Proof.
  split; [exact compareValues_spec|].
  split; [exact compareValues_range|].
  by apply compareValues_same_rendering.
Qed.

End Comparison.

(** ** Find and Insert *)

Section FindInsert.
Context `{GoLib}.

Lemma scanDocuments_filter docs field value :
  scanDocuments docs field value = filter (rendersAs field value) (snd <$> docs).
Proof.
  unfold scanDocuments.
  enough (Hacc : ∀ acc,
    foldl (λ results kd,
             match Data (snd kd) !! field with
             | Some docValue =>
                 if String.eqb (Sprint docValue) (Sprint value)
                 then results ++ [snd kd] else results
             | None => results
             end) acc docs
    = acc ++ filter (rendersAs field value) (snd <$> docs)) by apply Hacc.
  induction docs as [|[key d] docs IH]; intros acc; simpl.
  - by rewrite app_nil_r.
  - rewrite IH, filter_cons.
    assert (Hstep : match Data d !! field with
                    | Some docValue =>
                        if String.eqb (Sprint docValue) (Sprint value)
                        then acc ++ [d] else acc
                    | None => acc
                    end = if rendersAs field value d then acc ++ [d] else acc).
    { unfold rendersAs. by destruct (Data d !! field). }
    rewrite Hstep. destruct (rendersAs field value d) eqn:Hr.
    + rewrite decide_True by done. by rewrite <- app_assoc.
    + rewrite decide_False; [done|]. by intros [].
Qed.

Lemma rendersAs_true field value d :
  rendersAs field value d ↔ ∃ x, Data d !! field = Some x ∧ Sprint x = Sprint value.
Proof.
  unfold rendersAs. destruct (Data d !! field) as [x|].
  - rewrite Is_true_true, String.eqb_eq. split.
    + intros Hs. by exists x.
    + by intros (y & [= <-] & Hs).
  - split; [by intros []|]. by intros (y & [=] & _).
Qed.

Lemma scanDocuments_elem rng (m : gmap string Document) field value d :
  go_range rng m →
  d ∈ scanDocuments (rng m) field value ↔
  ∃ id x, m !! id = Some d ∧ Data d !! field = Some x ∧ Sprint x = Sprint value.
Proof.
  intros Hrng. rewrite scanDocuments_filter, list_elem_of_filter, rendersAs_true.
  rewrite list_elem_of_fmap. split.
  - intros [(x & Hx & Hs) ([id d'] & -> & Hin)]. simpl in *.
    rewrite Hrng in Hin. apply elem_of_map_to_list in Hin. eauto.
  - intros (id & x & Hd & Hx & Hs). split; [eauto|].
    exists (id, d). split; [done|]. rewrite Hrng. by apply elem_of_map_to_list.
Qed.

(** C5, amended.  When an index on [f] exists, [Find] returns at most one
    document, in every collection; and in a collection whose index entries
    each name a stored document whose field prints as the key of the entry,
    as in every collection that [Insert], [Update], [Delete] and
    [CreateIndex] build from the empty one, every document it returns, hence
    every id, is one that the linear scan under the stringification rule
    returns too. *)
Theorem Find_indexed_within_scan (rng scan : Range Document) (c : Collection)
    (field : string) (value : Value) (index : Index) :
  Indexes c !! field = Some index →
  (length (Find rng c field value) ≤ 1)%nat ∧
  (index_consistent c → go_range scan (Documents c) →
   (∀ d, d ∈ Find rng c field value →
         d ∈ scanDocuments (scan (Documents c)) field value) ∧
   (∀ id, id ∈ ID <$> Find rng c field value →
          id ∈ ID <$> scanDocuments (scan (Documents c)) field value)) ∧
  (Reachable c → index_consistent c).
Proof.
  intros Hf. split; [|split; [|by intros [_ ?]%Reachable_invariant]].
  - unfold Find. rewrite Hf.
    destruct (Values index !! Sprint value); [|simpl; lia].
    destruct (Documents c !! _); simpl; lia.
  - intros Hc Hscan.
    assert (Hdocs : ∀ d, d ∈ Find rng c field value →
                         d ∈ scanDocuments (scan (Documents c)) field value).
    { intros d. unfold Find. rewrite Hf.
      destruct (Values index !! Sprint value) as [docID|] eqn:Hk; [|by inversion 1].
      destruct (Documents c !! docID) as [doc|] eqn:Hdoc; [|by inversion 1].
      intros ->%list_elem_of_singleton.
      destruct (Hc field index _ docID Hf Hk) as (d' & v & Hd' & Hv & Hs).
      simplify_eq. apply scanDocuments_elem; eauto. }
    split; [done|].
    intros id (d & -> & Hd)%list_elem_of_fmap.
    apply list_elem_of_fmap. eauto.
Qed.

(** C10.  Without an index on [f], [Find] returns exactly the stored
    documents in which [f] is present and prints, character for character,
    as the queried value prints, each as often as it is stored.  No numeric
    coercion takes place: where ["1e1"] and ["10"] parse to the same number,
    the string ["1e1"] and the integer [10] compare equal under
    [compareValues], but a document holding ["1e1"] is not found for [10]. *)
Theorem Find_scan_exact :
  (∀ (rng : Range Document) (c : Collection) (field : string) (value : Value),
     Indexes c !! field = None →
     go_range rng (Documents c) →
     (∀ d, d ∈ Find rng c field value ↔
           ∃ id x, Documents c !! id = Some d ∧
                   Data d !! field = Some x ∧ Sprint x = Sprint value) ∧
     Find rng c field value ≡ₚ
       filter (rendersAs field value) (snd <$> map_to_list (Documents c))) ∧
  (∀ (rng : Range Document) (x : float),
     ParseFloat "1e1" = Some x → ParseFloat "10" = Some x →
     go_range rng (Documents Examples.tens) →
     compareValues (VString "1e1") (VInt 10) = 0 ∧
     Find rng Examples.tens "n" (VInt 10) = []).
Proof.
  split.
  - intros rng c field value Hf Hrng. unfold Find. rewrite Hf. split.
    + intros d. by apply scanDocuments_elem.
    + rewrite scanDocuments_filter. by rewrite Hrng.
  - intros rng x H1 H2 Hrng. split.
    + unfold compareValues. simpl. change (pretty 10) with "10".
      rewrite H1, H2. by rewrite float_ltb_irrefl.
    + unfold Find. change (Indexes Examples.tens !! "n") with (@None Index).
      rewrite scanDocuments_filter.
      apply Permutation_nil_r. unfold go_range in Hrng. rewrite Hrng.
      reflexivity.
Qed.

(** C9.  [Insert] fails with the already-exists error exactly when the id
    is taken, and then leaves the collection as it was; otherwise it stores a
    document with the given id, data and clock readings, and in every
    existing index on a field [f] present in the data it sets the entry
    under the rendering of [data[f]] to the id, changing nothing else. *)
Theorem Insert_contract (created updated : Time) (id : string)
    (data : gmap string Value) (c : Collection) :
  let r := Insert created updated id data c in
  (snd r = Some (DocumentAlreadyExists id) ↔ is_Some (Documents c !! id)) ∧
  (snd r = Some (DocumentAlreadyExists id) ∨ snd r = None) ∧
  (is_Some (snd r) → fst r = c) ∧
  (snd r = None →
     Name (fst r) = Name c ∧
     Documents (fst r) =
       <[id := {| ID := id; Data := data; CreatedAt := created; UpdatedAt := updated |}]>
         (Documents c) ∧
     ∀ f, Indexes (fst r) !! f =
          (λ index,
             {| Field := Field index;
                Values := match data !! f with
                          | Some v => <[Sprint v := id]> (Values index)
                          | None => Values index
                          end |}) <$> Indexes c !! f).
Proof.
  unfold Insert. destruct (Documents c !! id) as [d|] eqn:Hid; cbn [fst snd].
  - split; [by eauto|]. split; [by left|]. split; [done|]. by intros.
  - split; [split; [done|by intros [? ?]]|]. split; [by right|].
    split; [by intros [? ?]|]. intros _. split; [done|]. split; [done|].
    intros f. rewrite updateIndexes_lookup. simpl.
    destruct (Indexes c !! f) as [[fld vals]|]; simpl; [|done].
    unfold updateIndex; simpl. by destruct (data !! f).
Qed.

End FindInsert.

(** ** The bubble sort of [sortDocuments] *)

Section BubbleFacts.
Context {A : Type} (swap : A → A → bool).

Lemma bubbleStep_middle pre d1 d2 post :
  bubbleStep swap (length pre) (pre ++ d1 :: d2 :: post)
  = pre ++ (if swap d1 d2 then [d2; d1] else [d1; d2]) ++ post.
Proof.
  unfold bubbleStep.
  rewrite list_lookup_middle by done.
  rewrite lookup_app_r by lia.
  replace (S (length pre) - length pre)%nat with 1%nat by lia. simpl.
  destruct (swap d1 d2); [|done].
  rewrite (insert_app_r_alt pre _ (S (length pre))) by lia.
  replace (S (length pre) - length pre)%nat with 1%nat by lia. simpl.
  rewrite insert_app_r_alt by lia. by rewrite Nat.sub_diag.
Qed.

Lemma length_bubblePass cnt l : length (bubblePass swap cnt l) = length l.
Proof.
  revert l; induction cnt as [|cnt IH]; intros [|x [|y r]]; simpl; try done.
  destruct (swap x y); simpl; by rewrite IH.
Qed.

(** The loop on indexes and the recursion on the slice agree. *)
Lemma innerLoop_bubblePass cnt pre l :
  (cnt < length l)%nat →
  innerLoop swap cnt (length pre) (pre ++ l) = pre ++ bubblePass swap cnt l.
Proof.
  revert pre l; induction cnt as [|cnt IH]; intros pre l Hlen; [done|].
  destruct l as [|x [|y r]]; simpl in Hlen; try lia.
  simpl. rewrite bubbleStep_middle.
  destruct (swap x y).
  - replace (S (length pre)) with (length (pre ++ [y])) by (rewrite length_app; simpl; lia).
    rewrite (app_assoc pre [y; x] r). change [y; x] with ([y] ++ [x]).
    rewrite (app_assoc pre [y] [x]), <- (app_assoc (pre ++ [y]) [x] r). simpl.
    rewrite IH by (simpl; lia). by rewrite <- app_assoc.
  - replace (S (length pre)) with (length (pre ++ [x])) by (rewrite length_app; simpl; lia).
    rewrite (app_assoc pre [x; y] r). change [x; y] with ([x] ++ [y]).
    rewrite (app_assoc pre [x] [y]), <- (app_assoc (pre ++ [x]) [y] r). simpl.
    rewrite IH by (simpl; lia). by rewrite <- app_assoc.
Qed.

Lemma outerLoop_bubblePasses n cnt i l :
  length l = n → (cnt + i < n)%nat ∨ cnt = O →
  outerLoop swap n cnt i l = bubblePasses swap n cnt i l.
Proof.
  revert i l; induction cnt as [|cnt IH]; intros i l Hn Hcnt; [done|].
  simpl. pose proof (innerLoop_bubblePass (n - i - 1) [] l) as Hinner.
  simpl in Hinner. rewrite Hinner by lia.
  apply IH; [by rewrite length_bubblePass|lia].
Qed.

Lemma bubbleSort_bubblePasses l :
  bubbleSort swap l = bubblePasses swap (length l) (length l - 1) 0 l.
Proof.
  unfold bubbleSort. apply outerLoop_bubblePasses; [done|].
  destruct l; simpl; lia.
Qed.

Lemma length_bubblePasses n cnt i l :
  length (bubblePasses swap n cnt i l) = length l.
Proof.
  revert i l; induction cnt as [|cnt IH]; intros i l; simpl; [done|].
  by rewrite IH, length_bubblePass.
Qed.

Lemma length_bubbleSort l : length (bubbleSort swap l) = length l.
Proof. by rewrite bubbleSort_bubblePasses, length_bubblePasses. Qed.

(** *** The sort only exchanges neighbours that the test orders the other
    way round *)

Lemma Swaps_cons a l l' : Swaps swap l l' → Swaps swap (a :: l) (a :: l').
Proof.
  induction 1 as [l|pre x y post l' Hxy _ IH]; [constructor|].
  by apply (Swaps_step swap (a :: pre)).
Qed.

Lemma Swaps_trans l1 l2 l3 : Swaps swap l1 l2 → Swaps swap l2 l3 → Swaps swap l1 l3.
Proof.
  induction 1 as [l|pre x y post l' Hxy _ IH]; [done|].
  intros H3. apply Swaps_step; auto.
Qed.

Lemma Swaps_bubblePass cnt l : Swaps swap l (bubblePass swap cnt l).
Proof.
  revert l; induction cnt as [|cnt IH]; intros [|x [|y r]]; simpl; try constructor.
  destruct (swap x y) eqn:Hxy.
  - apply (Swaps_step swap []); [done|]. simpl. apply Swaps_cons, IH.
  - apply Swaps_cons, IH.
Qed.

Lemma Swaps_bubblePasses n cnt i l : Swaps swap l (bubblePasses swap n cnt i l).
Proof.
  revert i l; induction cnt as [|cnt IH]; intros i l; simpl; [constructor|].
  eapply Swaps_trans; [apply Swaps_bubblePass|apply IH].
Qed.

Lemma Swaps_bubbleSort l : Swaps swap l (bubbleSort swap l).
Proof. rewrite bubbleSort_bubblePasses. apply Swaps_bubblePasses. Qed.

Lemma Swaps_Permutation l l' : Swaps swap l l' → l ≡ₚ l'.
Proof.
  induction 1 as [l|pre x y post l' Hxy _ IH]; [done|].
  rewrite <- IH. apply Permutation_app_head, perm_swap.
Qed.

End BubbleFacts.

Section BubbleSimulation.
Context {A B : Type} (f : A → B) (swapA : A → A → bool) (swapB : B → B → bool).
Hypothesis simulates : ∀ x y, swapA x y = swapB (f x) (f y) ∨ f x = f y.

(** The sort commutes with a map under which the two swap tests agree
    wherever the images differ. *)
Lemma bubblePass_fmap cnt l :
  f <$> bubblePass swapA cnt l = bubblePass swapB cnt (f <$> l).
Proof.
  revert l; induction cnt as [|cnt IH]; intros [|x [|y r]]; try done.
  cbn [bubblePass fmap list_fmap].
  pose proof (IH (x :: r)) as IHx. pose proof (IH (y :: r)) as IHy.
  cbn [fmap list_fmap] in IHx, IHy.
  destruct (simulates x y) as [Hs|Hs].
  - rewrite <- Hs. destruct (swapA x y); cbn [fmap list_fmap]; congruence.
  - destruct (swapA x y), (swapB (f x) (f y)); cbn [fmap list_fmap];
      rewrite ?IHx, ?IHy, ?Hs; congruence.
Qed.

Lemma bubblePasses_fmap n cnt i l :
  f <$> bubblePasses swapA n cnt i l = bubblePasses swapB n cnt i (f <$> l).
Proof.
  revert i l; induction cnt as [|cnt IH]; intros i l; simpl; [done|].
  by rewrite IH, bubblePass_fmap.
Qed.

Lemma bubbleSort_fmap l :
  f <$> bubbleSort swapA l = bubbleSort swapB (f <$> l).
Proof. by rewrite !bubbleSort_bubblePasses, bubblePasses_fmap, length_fmap. Qed.

End BubbleSimulation.

Section Stability.
Context {A : Type} (swap : A → A → bool).

Lemma before_cons {B : Type} (a x y : B) l : before x y l → before x y (a :: l).
Proof. unfold before. apply sublist_cons. Qed.

Lemma before_exchange {B : Type} (pre post : list B) (x y u v : B) :
  before u v (pre ++ y :: x :: post) →
  (u = y ∧ v = x) ∨ before u v (pre ++ x :: y :: post).
Proof.
  unfold before. intros Hb.
  apply sublist_app_r in Hb as (l1 & l2 & Hl & H1 & H2).
  destruct l1 as [|a [|b l1]]; simplify_eq/=.
  - (* both in the exchanged part or after it *)
    apply sublist_cons_r in H2 as [H2|(l' & [= <- <-] & H2)].
    + right. apply sublist_inserts_l.
      apply sublist_cons_r in H2 as [H2|(l' & [= <- <-] & H2)].
      * by do 2 apply sublist_cons.
      * apply sublist_skip, sublist_cons, H2.
    + apply sublist_cons_r in H2 as [H2|(l' & [= <- <-] & H2)].
      * right. apply sublist_inserts_l, sublist_cons, sublist_skip, H2.
      * by left.
  - (* the first before the exchanged part *)
    right. apply (sublist_app [_] pre [_]); [done|].
    apply singleton_sublist_l. apply singleton_sublist_l in H2.
    rewrite !elem_of_cons in H2 |- *. tauto.
  - destruct l1; simplify_eq/=. right.
    apply (sublist_app [_; _] pre []); [done|apply sublist_nil_l].
Qed.

Lemma before_seq (j n a b : nat) : before a b (seq j n) → (a < b)%nat.
Proof.
  unfold before. revert j; induction n as [|n IH]; intros j Hb; simpl in Hb.
  - by apply sublist_nil_r in Hb.
  - apply sublist_cons_r in Hb as [Hb|(l' & [= <- <-] & Hb)]; [by eapply IH|].
    apply singleton_sublist_l, elem_of_seq in Hb. lia.
Qed.

Lemma imap_pair_fst (l : list A) : (imap pair l).*1 = seq 0 (length l).
Proof.
  rewrite fmap_imap. rewrite (imap_ext _ (λ i _, i)) by done.
  by rewrite imap_seq_0, list_fmap_id.
Qed.

Lemma imap_pair_snd (l : list A) : (imap pair l).*2 = l.
Proof.
  apply list_eq. intros i. rewrite list_lookup_fmap, list_lookup_imap.
  by destruct (l !! i).
Qed.

Lemma before_imap_pair (l : list A) u v :
  before u v (imap pair l) → (fst u < fst v)%nat.
Proof.
  intros Hb. apply (before_seq 0 (length l)). unfold before in *.
  rewrite <- imap_pair_fst. by apply (fmap_sublist fst) in Hb.
Qed.

(** Whenever the sort has brought [u] in front of a [v] that entered before
    it, the swap test held on ([v], [u]). *)
Lemma Swaps_inversions (t t' : list (nat * A)) :
  Swaps (λ a b, swap (snd a) (snd b)) t t' →
  (∀ u v, before u v t → (fst v < fst u)%nat → swap (snd v) (snd u) = true) →
  ∀ u v, before u v t' → (fst v < fst u)%nat → swap (snd v) (snd u) = true.
Proof.
  induction 1 as [t|pre x y post t' Hxy _ IH]; [done|].
  intros Hinv. apply IH. intros u v Hb Hlt.
  apply before_exchange in Hb as [[-> ->]|Hb]; [done|by apply Hinv].
Qed.

Lemma bubbleSort_inversions (l : list A) u v :
  before u v (bubbleSort (λ a b, swap (snd a) (snd b)) (imap pair l)) →
  (fst v < fst u)%nat → swap (snd v) (snd u) = true.
Proof.
  apply (Swaps_inversions (imap pair l)); [apply Swaps_bubbleSort|].
  intros u' v' Hb Hlt. apply before_imap_pair in Hb. lia.
Qed.

End Stability.

(** *** Sorting flags: the raised ones end behind the lowered ones *)

Section Flags.

Lemma bubblePass_app {A : Type} (swap : A → A → bool) cnt (l1 l2 : list A) :
  (cnt < length l1)%nat →
  bubblePass swap cnt (l1 ++ l2) = bubblePass swap cnt l1 ++ l2.
Proof.
  revert l1; induction cnt as [|cnt IH]; intros l1 Hlen.
  - by destruct l1 as [|x [|y r]], l2.
  - destruct l1 as [|x [|y r]]; simpl in Hlen; try lia. simpl.
    destruct (swap x y); simpl; f_equal.
    + apply (IH (x :: r)). simpl; lia.
    + apply (IH (y :: r)). simpl; lia.
Qed.

Lemma bubblePass_fixed {A : Type} (swap : A → A → bool) cnt (l : list A) :
  (∀ x y, before x y l → swap x y = false) → bubblePass swap cnt l = l.
Proof.
  revert l; induction cnt as [|cnt IH]; intros l Hno; [by destruct l as [|x [|y r]]|].
  destruct l as [|x [|y r]]; try done. simpl.
  rewrite (Hno x y) by (unfold before; apply sublist_skip, sublist_skip, sublist_nil_l).
  f_equal. apply IH. intros a b Hb. apply Hno. by apply before_cons.
Qed.

Lemma bubblePasses_fixed {A : Type} (swap : A → A → bool) n cnt i (l : list A) :
  (∀ x y, before x y l → swap x y = false) → bubblePasses swap n cnt i l = l.
Proof.
  revert i; induction cnt as [|cnt IH]; intros i Hno; simpl; [done|].
  rewrite bubblePass_fixed by done. by apply IH.
Qed.

(** In lowered flags followed by raised flags, no raised flag stands before
    a lowered one. *)
Lemma flags_sorted_before (front back : list bool) (a b : bool) :
  Forall (λ x, x = false) front → Forall (λ x, x = true) back →
  before a b (front ++ back) → swapFlags a b = false.
Proof.
  intros Hf Hb Hab. unfold before in Hab.
  apply sublist_app_r in Hab as (l1 & l2 & Hl & H1 & H2).
  rewrite Forall_forall in Hf, Hb.
  destruct a; [|done]. destruct b; [done|]. exfalso.
  destruct l1 as [|a l1]; simplify_eq/=.
  - assert (false ∈ back) as Hin
      by (eapply elem_of_sublist; [|exact H2]; rewrite !elem_of_cons; tauto).
    by specialize (Hb _ Hin).
  - assert (true ∈ front) as Hin
      by (eapply elem_of_sublist; [|exact H1]; rewrite !elem_of_cons; tauto).
    by specialize (Hf _ Hin).
Qed.

(** A pass over the whole of a slice that holds a raised flag leaves a
    raised flag at its end. *)
Lemma bubblePass_flags_last n (l : list bool) :
  length l = S n → true ∈ l →
  ∃ l', bubblePass swapFlags n l = l' ++ [true].
Proof.
  revert l; induction n as [|n IH]; intros l Hlen Hin.
  - destruct l as [|x [|y r]]; simplify_eq/=.
    apply list_elem_of_singleton in Hin as <-. by exists [].
  - destruct l as [|x [|y r]]; simplify_eq/=.
    destruct (swapFlags x y) eqn:Hxy.
    + destruct x, y; simplify_eq/=.
      destruct (IH (true :: r)) as [l' Hl']; [done|by left|].
      exists (false :: l'). by rewrite Hl'.
    + destruct (IH (y :: r)) as [l' Hl']; [done| |].
      * apply elem_of_cons in Hin as [<-|Hin]; [|done].
        destruct y; [by left|done].
      * exists (x :: l'). by rewrite Hl'.
Qed.

Lemma bubblePasses_flags_sorted n cnt i (front back : list bool) :
  length (front ++ back) = n → length back = i → (cnt + i = n - 1)%nat →
  Forall (λ x, x = true) back →
  ∃ front' back',
    bubblePasses swapFlags n cnt i (front ++ back) = front' ++ back' ∧
    Forall (λ x, x = false) front' ∧ Forall (λ x, x = true) back'.
Proof.
  revert i front back; induction cnt as [|cnt IH]; intros i front back Hn Hi Hcnt Hback.
  - simpl. rewrite length_app in Hn.
    destruct front as [|x [|y r]]; simpl in Hn; try lia.
    + exists [], back. by repeat split.
    + destruct x.
      * exists [], (true :: back). repeat split; by try constructor.
      * exists [false], back. repeat split; by try constructor.
  - simpl. rewrite length_app in Hn.
    rewrite bubblePass_app by lia.
    destruct (decide (true ∈ front)) as [Hin|Hnin].
    + destruct (bubblePass_flags_last (n - i - 1) front) as [l' Hl']; [lia|done|].
      rewrite Hl', <- app_assoc. simpl.
      assert (length l' = (n - i - 1)%nat) as Hlen'.
      { apply (f_equal length) in Hl'.
        rewrite length_bubblePass, length_app in Hl'. simpl in Hl'. lia. }
      apply IH; [rewrite length_app; simpl; lia|simpl; lia|lia|by constructor].
    + assert (Forall (λ x, x = false) front) as Hfront.
      { apply Forall_forall. intros [] Hx; [by destruct Hnin|done]. }
      assert (Hfix : ∀ x y, before x y (front ++ back) → swapFlags x y = false)
        by (intros x y; by apply flags_sorted_before).
      rewrite (bubblePass_fixed swapFlags _ front).
      * rewrite bubblePasses_fixed by done. by exists front, back.
      * intros x y Hxy. apply Hfix. unfold before in *. by apply sublist_inserts_r.
Qed.

Lemma bubbleSort_flags_sorted (l : list bool) :
  ∃ front back,
    bubbleSort swapFlags l = front ++ back ∧
    Forall (λ x, x = false) front ∧ Forall (λ x, x = true) back.
Proof.
  rewrite bubbleSort_bubblePasses.
  pose proof (bubblePasses_flags_sorted (length l) (length l - 1) 0 l []) as Hs.
  rewrite app_nil_r in Hs. apply Hs; [done|done|lia|constructor].
Qed.

(** The sort moves every element with a raised flag behind every element
    with a lowered one, provided the swap test exchanges a raised flag
    followed by a lowered one and never the reverse. *)
Lemma bubbleSort_flags {A : Type} (swap : A → A → bool) (flag : A → bool) (l : list A) :
  (∀ x y, flag x = true → flag y = false → swap x y = true) →
  (∀ x y, flag x = false → flag y = true → swap x y = false) →
  ∀ x y, before x y (bubbleSort swap l) → flag x = true → flag y = false → False.
Proof.
  intros Hup Hdown x y Hb Hx Hy.
  destruct (bubbleSort_flags_sorted (flag <$> l)) as (front & back & Hs & Hf & Hk).
  rewrite <- (bubbleSort_fmap flag swap swapFlags) in Hs.
  - unfold before in Hb. apply (fmap_sublist flag) in Hb. rewrite Hs in Hb.
    simpl in Hb. rewrite Hx, Hy in Hb.
    by pose proof (flags_sorted_before front back true false Hf Hk Hb).
  - intros a b. unfold swapFlags.
    destruct (flag a) eqn:Ha, (flag b) eqn:Hb'; simpl; auto.
Qed.

End Flags.

(** ** The query builder: sorting and execution *)

Section QueryFacts.
Context `{GoLib}.

Lemma numericCompare_antisym x y : numericCompare y x = - numericCompare x y.
Proof.
  unfold numericCompare. rewrite !FloatAxioms.compare_spec.
  rewrite (SFcompare_antisym (Prim2SF x) (Prim2SF y)).
  by destruct (SFcompare (Prim2SF x) (Prim2SF y)) as [[]|].
Qed.

Lemma lexCompare_antisym s t : lexCompare t s = - lexCompare s t.
Proof.
  unfold lexCompare. rewrite (String.compare_antisym t s).
  by destruct (String.compare s t).
Qed.

Lemma compareValues_antisym a b : compareValues b a = - compareValues a b.
Proof.
  rewrite !compareValues_spec. unfold Compare_spec.
  destruct (ParseFloat (Sprint a)), (ParseFloat (Sprint b));
    auto using numericCompare_antisym, lexCompare_antisym.
Qed.

(** The swap test never exchanges two documents that tie on the sort key. *)
Lemma shouldSwap_tie qb d1 d2 : sortTie qb d1 d2 → shouldSwap qb d2 d1 = false.
Proof.
  unfold sortTie, shouldSwap.
  destruct (Data d1 !! sortBy qb) as [v1|], (Data d2 !! sortBy qb) as [v2|]; try done.
  intros Hcmp. rewrite (compareValues_antisym v1 v2), Hcmp. simpl.
  by rewrite !andb_false_r.
Qed.

Lemma length_sortDocuments qb docs : length (sortDocuments qb docs) = length docs.
Proof.
  unfold sortDocuments. destruct (String.eqb (sortBy qb) ""); [done|].
  apply length_bubbleSort.
Qed.

Lemma sortDocuments_Permutation qb docs : sortDocuments qb docs ≡ₚ docs.
Proof.
  unfold sortDocuments. destruct (String.eqb (sortBy qb) ""); [done|].
  symmetry. eapply Swaps_Permutation, Swaps_bubbleSort.
Qed.

(** C7.  The sort of a query is stable and puts the documents without the
    sort field last when ascending, first when descending.  [tagged] is the
    sorted sequence with the input position of every document: two documents
    that tie on the sort key (equal under [compareValues], or both without
    the field) stand in the order of their input positions; when ascending,
    whatever follows a document without the field lacks the field too; when
    descending, whatever precedes one lacks it too. *)
Theorem sortDocuments_stable (qb : QueryBuilder) (docs : list Document) :
  ∃ tagged : list (nat * Document),
    tagged ≡ₚ imap pair docs ∧
    snd <$> tagged = sortDocuments qb docs ∧
    (∀ u v, before u v tagged → sortTie qb (snd u) (snd v) → (fst u < fst v)%nat) ∧
    (sortBy qb ≠ "" → sortOrder qb = 1 →
       ∀ d1 d2, before d1 d2 (sortDocuments qb docs) →
                lacksSortField qb d1 = true → lacksSortField qb d2 = true) ∧
    (sortBy qb ≠ "" → sortOrder qb = -1 →
       ∀ d1 d2, before d1 d2 (sortDocuments qb docs) →
                lacksSortField qb d2 = true → lacksSortField qb d1 = true).
Proof.
  assert (Hflags : ∀ (flag : Document → bool),
    sortBy qb ≠ "" →
    (∀ x y, flag x = true → flag y = false → shouldSwap qb x y = true) →
    (∀ x y, flag x = false → flag y = true → shouldSwap qb x y = false) →
    ∀ d1 d2, before d1 d2 (sortDocuments qb docs) →
             flag d1 = true → flag d2 = false → False).
  { intros flag Hby Hup Hdown d1 d2. unfold sortDocuments.
    destruct (String.eqb_spec (sortBy qb) "") as [|_]; [done|].
    by apply bubbleSort_flags. }
  destruct (String.eqb_spec (sortBy qb) "") as [Hby|Hby].
  - (* no sort key: the sequence is left as it is *)
    exists (imap pair docs). split; [done|].
    split; [unfold sortDocuments; rewrite Hby; simpl; apply imap_pair_snd|].
    split; [intros u v Hb _; by eapply before_imap_pair|].
    split; intros Hne; by destruct Hne.
  - exists (bubbleSort (λ a b, shouldSwap qb (snd a) (snd b)) (imap pair docs)).
    split; [symmetry; eapply Swaps_Permutation, Swaps_bubbleSort|].
    split.
    { unfold sortDocuments. destruct (String.eqb_spec (sortBy qb) "") as [|_]; [done|].
      rewrite (bubbleSort_fmap snd _ (shouldSwap qb)) by (intros; by left).
      by rewrite imap_pair_snd. }
    split.
    { intros u v Hb Htie.
      destruct (decide (fst u < fst v)%nat) as [|Hge]; [done|exfalso].
      assert (fst u ≠ fst v) as Hne.
      { assert (NoDup (fst <$> bubbleSort (λ a b, shouldSwap qb (snd a) (snd b))
                                  (imap pair docs))) as Hnd.
        { rewrite <- (Swaps_Permutation _ _ _ (Swaps_bubbleSort _ (imap pair docs))).
          rewrite imap_pair_fst. apply NoDup_seq. }
        pose proof (fmap_sublist fst _ _ Hb) as Hb1.
        assert (NoDup (fst <$> [u; v])) as Hnd2 by (eapply sublist_NoDup; eauto).
        simpl in Hnd2.
        apply NoDup_cons in Hnd2 as [Hnotin _]. intros Heq. apply Hnotin.
        rewrite Heq. by left. }
      pose proof (bubbleSort_inversions (shouldSwap qb) docs u v Hb) as Hinv.
      rewrite (shouldSwap_tie qb (snd u) (snd v) Htie) in Hinv.
      assert (fst v < fst u)%nat as Hlt by lia. by specialize (Hinv Hlt). }
    split.
    + intros _ Hasc d1 d2 Hb Hd1.
      destruct (lacksSortField qb d2) eqn:Hd2; [done|exfalso].
      apply (Hflags (lacksSortField qb) Hby) with d1 d2; try done.
      * intros x y. unfold lacksSortField, shouldSwap.
        destruct (Data x !! sortBy qb), (Data y !! sortBy qb); try done.
        intros _ _. by rewrite Hasc.
      * intros x y. unfold lacksSortField, shouldSwap.
        destruct (Data x !! sortBy qb), (Data y !! sortBy qb); try done.
        intros _ _. by rewrite Hasc.
    + intros _ Hdesc d1 d2 Hb Hd2.
      destruct (lacksSortField qb d1) eqn:Hd1; [done|exfalso].
      apply (Hflags (λ d, negb (lacksSortField qb d)) Hby) with d1 d2;
        try (by rewrite ?Hd1, ?Hd2).
      * intros x y. unfold lacksSortField, shouldSwap.
        destruct (Data x !! sortBy qb), (Data y !! sortBy qb); try done.
        intros _ _. by rewrite Hdesc.
      * intros x y. unfold lacksSortField, shouldSwap.
        destruct (Data x !! sortBy qb), (Data y !! sortBy qb); try done.
        intros _ _. by rewrite Hdesc.
Qed.

Lemma matchesFilters_matchesAll qb d : matchesFilters qb d = matchesAll qb d.
Proof.
  unfold matchesFilters, matchesAll.
  induction (filters qb) as [|flt fs IH]; simpl; [done|].
  rewrite IH. by destruct (matchesFilter d flt).
Qed.

Lemma filterDocuments_filter qb docs :
  filterDocuments qb docs = filter (λ d, matchesAll qb d) (snd <$> docs).
Proof.
  unfold filterDocuments.
  enough (Hacc : ∀ acc,
    foldl (λ results kd,
             if matchesFilters qb (snd kd) then results ++ [snd kd] else results)
          acc docs
    = acc ++ filter (λ d, matchesAll qb d) (snd <$> docs)) by apply Hacc.
  induction docs as [|[key d] docs IH]; intros acc; simpl.
  - by rewrite app_nil_r.
  - rewrite IH, filter_cons, matchesFilters_matchesAll.
    destruct (matchesAll qb d) eqn:Hm.
    + rewrite decide_True by done. by rewrite <- app_assoc.
    + rewrite decide_False; [done|]. by intros [].
Qed.

(** C6.  For a skip [s ≥ 0] and a limit [l ≥ 0], [Execute] keeps exactly
    the documents that match all the filters, sorts them, drops the first
    [s] of them, and keeps of the rest the first [l] when [l] is positive
    and everything when [l] is 0; the result is empty whenever [s] is at
    least the number of matches. *)
Theorem Execute_pipeline (rng : Range Document) (qb : QueryBuilder) :
  0 ≤ skip qb → 0 ≤ limit qb →
  let matches := filter (λ d, matchesAll qb d) (snd <$> rng (Documents (collection qb))) in
  let rest := drop (Z.to_nat (skip qb)) (sortDocuments qb matches) in
  Execute rng qb = (if limit qb =? 0 then rest else take (Z.to_nat (limit qb)) rest) ∧
  (Z.of_nat (length matches) ≤ skip qb → Execute rng qb = []) ∧
  (go_range rng (Documents (collection qb)) →
   matches ≡ₚ filter (λ d, matchesAll qb d)
                (snd <$> map_to_list (Documents (collection qb)))).
Proof.
  intros Hskip Hlimit matches rest.
  assert (Hexec : Execute rng qb =
            (if limit qb =? 0 then rest else take (Z.to_nat (limit qb)) rest)).
  { unfold Execute. rewrite filterDocuments_filter. fold matches.
    assert (Hsorted :
      (if negb (String.eqb (sortBy qb) "") then sortDocuments qb matches else matches)
      = sortDocuments qb matches).
    { unfold sortDocuments. by destruct (String.eqb (sortBy qb) ""). }
    rewrite Hsorted.
    assert (Hdrop :
      (if (skip qb >? 0) && (skip qb <? Z.of_nat (length (sortDocuments qb matches)))
       then drop (Z.to_nat (skip qb)) (sortDocuments qb matches)
       else if skip qb >=? Z.of_nat (length (sortDocuments qb matches)) then []
       else sortDocuments qb matches) = rest).
    { subst rest.
      destruct (skip qb >? 0) eqn:Hpos,
               (skip qb <? Z.of_nat (length (sortDocuments qb matches))) eqn:Hlt;
        simpl; try done.
      - assert ((skip qb >=? Z.of_nat (length (sortDocuments qb matches))) = true) as ->
          by lia.
        symmetry. apply drop_ge. lia.
      - assert (skip qb = 0) as -> by lia. simpl.
        destruct (0 >=? _) eqn:Hge; [lia|done].
      - assert ((skip qb >=? Z.of_nat (length (sortDocuments qb matches))) = true) as ->
          by lia.
        symmetry. apply drop_ge. lia. }
    rewrite Hdrop.
    destruct (limit qb >? 0) eqn:Hpos, (limit qb <? Z.of_nat (length rest)) eqn:Hlt;
      simpl.
    - by assert ((limit qb =? 0) = false) as -> by lia.
    - assert ((limit qb =? 0) = false) as -> by lia.
      symmetry. apply take_ge. lia.
    - by assert ((limit qb =? 0) = true) as -> by lia.
    - by assert ((limit qb =? 0) = true) as -> by lia. }
  split; [done|]. split.
  - intros Hmany. rewrite Hexec.
    assert (rest = []) as ->.
    { subst rest. apply drop_ge. rewrite length_sortDocuments. lia. }
    by destruct (limit qb =? 0), (Z.to_nat (limit qb)).
  - intros Hrng. subst matches. by rewrite Hrng.
Qed.

End QueryFacts.

(** ** The group stage *)

Section Aggregation.
Context `{GoLib}.

Lemma groupItems_acc s data (acc : gmap string (list (gmap string Value))) k :
  foldl (λ groups item,
           let groupKey := getGroupKey s item in
           <[groupKey := default [] (groups !! groupKey) ++ [item]]> groups)
        acc data !! k
  = match acc !! k, itemsOfGroup s k data with
    | None, [] => None
    | o, items => Some (default [] o ++ items)
    end.
Proof.
  revert acc; induction data as [|item data IH]; intros acc; simpl.
  - unfold itemsOfGroup. simpl. destruct (acc !! k); simpl; [|done].
    by rewrite app_nil_r.
  - rewrite IH. unfold itemsOfGroup. rewrite filter_cons.
    destruct (decide (getGroupKey s item = k)) as [<-|Hne].
    + rewrite lookup_insert_eq. simpl.
      destruct (acc !! getGroupKey s item); simpl; by rewrite <- ?app_assoc.
    + by rewrite lookup_insert_ne.
Qed.

Lemma groupItems_lookup s data k :
  groupItems s data !! k
  = match itemsOfGroup s k data with [] => None | items => Some items end.
Proof. unfold groupItems. by rewrite groupItems_acc, lookup_empty. Qed.

Lemma itemsOfGroup_nonempty s k data :
  itemsOfGroup s k data ≠ [] ↔ ∃ item, item ∈ data ∧ getGroupKey s item = k.
Proof.
  unfold itemsOfGroup. split.
  - destruct (filter _ data) as [|item l] eqn:Hf; [done|]. intros _.
    assert (item ∈ filter (λ item, getGroupKey s item = k) data) as Hin
      by (rewrite Hf; by left).
    apply list_elem_of_filter in Hin as [? ?]. eauto.
  - intros (item & Hin & Hk) Hnil.
    assert (item ∈ filter (λ item, getGroupKey s item = k) data) as Hin'
      by (by apply list_elem_of_filter).
    rewrite Hnil in Hin'. by apply not_elem_of_nil in Hin'.
Qed.

Lemma groupFields_keeps fields groupData init gr out :
  out ∉ fst <$> fields →
  groupFields fields groupData init = inl gr → gr !! out = init !! out.
Proof.
  revert init; induction fields as [|[name agg] fields IH]; intros init Hout; simpl.
  - by intros [= <-].
  - destruct (calculateAggregation groupData agg) as [value|err]; [|done].
    intros Hgr. simpl in Hout. apply not_elem_of_cons in Hout as [Hne Hout].
    rewrite (IH _ Hout Hgr). by rewrite lookup_insert_ne.
Qed.

Lemma groupFields_lookup fields groupData init gr out agg :
  NoDup (fst <$> fields) → (out, agg) ∈ fields →
  groupFields fields groupData init = inl gr →
  ∃ value, calculateAggregation groupData agg = inl value ∧ gr !! out = Some value.
Proof.
  revert init; induction fields as [|[name a] fields IH]; intros init Hnd Hin; simpl.
  - by apply not_elem_of_nil in Hin.
  - simpl in Hnd. apply NoDup_cons in Hnd as [Hfresh Hnd].
    destruct (calculateAggregation groupData a) as [value|err] eqn:Hcalc; [|done].
    intros Hgr. apply elem_of_cons in Hin as [[= <- <-]|Hin].
    + exists value. split; [done|].
      rewrite (groupFields_keeps _ _ _ _ _ Hfresh Hgr). by rewrite lookup_insert_eq.
    + by eapply IH.
Qed.

Lemma groupResults_each frng s groups turn acc res :
  groupResults frng s groups turn acc = inl res →
  ∃ new, res = acc ++ new ∧
    Forall2 (λ kg gr, ∃ t, groupFields (frng t (Fields s)) (snd kg)
                             {[ "_id" := VString (fst kg) ]} = inl gr)
            groups new.
Proof.
  revert turn acc; induction groups as [|[k gd] groups IH]; intros turn acc; simpl.
  - intros [= <-]. exists []. by rewrite app_nil_r.
  - destruct (groupFields _ gd _) as [gr|err] eqn:Hgr; [|done].
    intros Hres. destruct (IH _ _ Hres) as (new & -> & Hall).
    exists (gr :: new). rewrite <- app_assoc. split; [done|].
    constructor; [by exists turn|done].
Qed.

Lemma sum_aggregation data f :
  calculateAggregation data {| Operation := "sum"; AggField := f |}
  = inl (VFloat (sumLoop f data)).
Proof. reflexivity. Qed.

(** C8, as the code has it.  In the output of a group stage with a sum on
    [f] under the name [out], the groups are those of the keys that occur in
    the input, each once, and the value of each group under [out] is the
    [float64] sum, in input order, of the [f] values that parse as numbers
    among the items of that group.  When all the items share one key, the
    single group holds the sum over the whole input. *)
Theorem GroupStage_sum_by_group (grng : Range (list (gmap string Value)))
    (frng : nat → Range AggregateFunc) (s : GroupStage)
    (data : list (gmap string Value)) (out f : string)
    (res : list (gmap string Value)) :
  go_range grng (groupItems s data) →
  (∀ t, go_range (frng t) (Fields s)) →
  Fields s !! out = Some {| Operation := "sum"; AggField := f |} →
  Process grng frng s data = inl res →
  (∃ keys : list string,
     NoDup keys ∧
     (∀ k, k ∈ keys ↔ ∃ item, item ∈ data ∧ getGroupKey s item = k) ∧
     Forall2 (λ k g, g !! out = Some (VFloat (sumLoop f (itemsOfGroup s k data))))
             keys res) ∧
  (∀ k0, data ≠ [] → (∀ item, item ∈ data → getGroupKey s item = k0) →
         ∃ g, res = [g] ∧ g !! out = Some (VFloat (sumLoop f data))).
Proof.
  intros Hgrng Hfrng Hout Hres. unfold Process in Hres.
  apply groupResults_each in Hres as (new & -> & Hall). simpl.
  assert (Hkeys : ∃ keys : list string,
     NoDup keys ∧
     (∀ k, k ∈ keys ↔ ∃ item, item ∈ data ∧ getGroupKey s item = k) ∧
     Forall2 (λ k g, g !! out = Some (VFloat (sumLoop f (itemsOfGroup s k data))))
             keys new).
  { exists (fst <$> grng (groupItems s data)). split; [|split].
    - rewrite Hgrng. apply NoDup_fst_map_to_list.
    - intros k. rewrite Hgrng, <- itemsOfGroup_nonempty. split.
      + intros ([k' items] & -> & Hin)%list_elem_of_fmap.
        apply elem_of_map_to_list in Hin. simpl.
        rewrite groupItems_lookup in Hin. by destruct (itemsOfGroup s k' data).
      + intros Hne. apply list_elem_of_fmap.
        exists (k, itemsOfGroup s k data). split; [done|].
        apply elem_of_map_to_list. rewrite groupItems_lookup.
        by destruct (itemsOfGroup s k data).
    - apply Forall2_fmap_l.
      assert (Hin : ∀ kg, kg ∈ grng (groupItems s data) →
                          snd kg = itemsOfGroup s (fst kg) data).
      { intros [k items]. rewrite Hgrng. intros Hin%elem_of_map_to_list.
        rewrite groupItems_lookup in Hin. simpl.
        destruct (itemsOfGroup s k data); by simplify_eq. }
      revert Hin. induction Hall as [|[k items] gr groups new' [t Hgr] Hall IH];
        intros Hin; constructor.
      + simpl in *.
        assert (items = itemsOfGroup s k data) as ->
          by (apply (Hin (k, items)); by left).
        destruct (groupFields_lookup (frng t (Fields s)) (itemsOfGroup s k data)
                    {[ "_id" := VString k ]} gr out
                    {| Operation := "sum"; AggField := f |})
          as (value & Hcalc & Hlook); [| |exact Hgr|].
        * rewrite (Hfrng t). apply NoDup_fst_map_to_list.
        * rewrite (Hfrng t). by apply elem_of_map_to_list.
        * rewrite sum_aggregation in Hcalc. by simplify_eq.
      + apply IH. intros kg Hkg. apply Hin. by right. }
  split; [done|].
  intros k0 Hne Hall0. destruct Hkeys as (keys & Hnd & Hk & Hsums).
  assert (keys = [k0]) as ->.
  { destruct data as [|item0 data']; [done|].
    assert (k0 ∈ keys) as Hin0.
    { apply Hk. exists item0. split; [by left|apply Hall0; by left]. }
    assert (∀ k, k ∈ keys → k = k0) as Honly.
    { intros k (item & Hin & <-)%Hk. by apply Hall0. }
    destruct keys as [|k1 [|k2 keys]].
    - by apply not_elem_of_nil in Hin0.
    - f_equal. apply Honly. by left.
    - apply NoDup_cons in Hnd as [Hnotin _]. destruct Hnotin.
      assert (k1 = k0) as -> by (apply Honly; by left).
      assert (k2 = k0) as -> by (apply Honly; right; by left).
      by left. }
  apply Forall2_cons_inv_l in Hsums as (g & rest & Hg & Hrest & ->).
  apply Forall2_nil_inv_l in Hrest as ->.
  exists g. split; [done|]. rewrite Hg. do 3 f_equal.
  unfold itemsOfGroup. clear -Hall0.
  induction data as [|item data IH]; [done|].
  rewrite filter_cons_True by (apply Hall0; by left).
  f_equal. apply IH. intros item' Hin. apply Hall0. by right.
Qed.

End Aggregation.

(** ** The theorems on the example data *)

Section Evaluated.
Import Examples.
#[local] Existing Instance GoModel.exampleLib.

Lemma forwards_range {A : Type} (m : gmap string A) : go_range forwards m.
Proof. unfold go_range, forwards. reflexivity. Qed.

Lemma backwards_range {A : Type} (m : gmap string A) : go_range backwards m.
Proof. unfold go_range, backwards. by rewrite reverse_Permutation. Qed.

Lemma itemsIndexed_Reachable : Reachable itemsIndexed.
Proof.
  unfold itemsIndexed, itemsA, items0.
  apply reach_CreateIndex; [apply reach_Insert, reach_new|].
  unfold go_range. reflexivity.
Qed.

Lemma itemsAB_Reachable : Reachable itemsAB.
Proof. unfold itemsAB. apply reach_Insert, itemsIndexed_Reachable. Qed.

Lemma index_consistency_witness :
  Reachable itemsAB ∧
  ∃ d, Documents itemsAB !! "b" = Some d ∧
       ∃ v, Data d !! "f" = Some v ∧ Sprint v = "1".
Proof.
  split; [exact itemsAB_Reachable|].
  apply (index_consistency itemsAB itemsAB_Reachable "f"
           {| Field := "f"; Values := {[ "1" := "b" ]} |} "1" "b");
    reflexivity.
Defined.

(** C2, at a failing input.  [a] and [b] both hold [f = 1] and the entry
    of the index under ["1"] names [b].  Updating [a] to [f = 2] deletes that
    entry although it names [b]: [b] keeps [f = 1] but the index no longer
    leads to it. *)
Theorem Update_deletes_foreign_entry :
  Values <$> Indexes itemsAB !! "f" = Some {[ "1" := "b" ]} ∧
  Data <$> Documents itemsAB !! "a" = Some (fieldIs "f" (VInt 1)) ∧
  snd (Update 3 "a" (fieldIs "f" (VInt 2)) itemsAB) = None ∧
  Data <$> Documents itemsUpdated !! "b" = Some (fieldIs "f" (VInt 1)) ∧
  Values <$> Indexes itemsUpdated !! "f" = Some {[ "2" := "a" ]} ∧
  Find forwards itemsUpdated "f" (VInt 1) = [].
Proof. repeat split; vm_compute; reflexivity. Qed.

(** C3, at a failing input.  The collection [items] of [shop] satisfies the
    index invariant and its index on [f] has the entry ["1"], naming [a].
    After the prelude of an import with [OverwriteData] the collection has no
    document, and the index still has that entry. *)
Theorem ImportData_overwrite_keeps_entries :
  index_consistent itemsIndexed ∧
  snd (ImportDataPrelude overwriteItems shop) = None ∧
  ∃ c, Collections (fst (ImportDataPrelude overwriteItems shop)) !! "items" = Some c ∧
       Documents c = ∅ ∧
       Values <$> Indexes c !! "f" = Some {[ "1" := "a" ]} ∧
       ¬ entries_live c.
Proof.
  split.
  { apply Reachable_invariant, itemsIndexed_Reachable. }
  split; [reflexivity|].
  eexists. split; [vm_compute; reflexivity|].
  split; [reflexivity|]. split; [reflexivity|].
  intros Hlive.
  destruct (Hlive "f" {| Field := "f"; Values := {[ "1" := "a" ]} |} "1" "a")
    as [d Hd]; [reflexivity|reflexivity|].
  vm_compute in Hd. discriminate.
Qed.

Lemma Find_indexed_within_scan_witness :
  (length (Find forwards itemsAB "f" (VInt 1)) ≤ 1)%nat ∧
  (∀ d, d ∈ Find forwards itemsAB "f" (VInt 1) →
        d ∈ scanDocuments (backwards (Documents itemsAB)) "f" (VInt 1)) ∧
  (∀ id, id ∈ ID <$> Find forwards itemsAB "f" (VInt 1) →
         id ∈ ID <$> scanDocuments (backwards (Documents itemsAB)) "f" (VInt 1)).
Proof.
  destruct (Find_indexed_within_scan forwards backwards itemsAB "f" (VInt 1)
              {| Field := "f"; Values := {[ "1" := "b" ]} |} eq_refl)
    as (Hone & Hwithin & Hbuilt).
  split; [exact Hone|].
  apply Hwithin.
  - apply Hbuilt, itemsAB_Reachable.
  - apply backwards_range.
Defined.

(** Scenario 2 of the specification: the indexed lookup returns [b] only,
    the scan returns [a] and [b]. *)
Example Find_last_writer_wins :
  ID <$> Find forwards itemsAB "f" (VInt 1) = ["b"] ∧
  ID <$> scanDocuments (forwards (Documents itemsAB)) "f" (VInt 1) = ["a"; "b"].
Proof. split; vm_compute; reflexivity. Qed.

Lemma Find_scan_exact_witness :
  ((∀ d, d ∈ Find forwards itemsA "f" (VInt 1) ↔
         ∃ id x, Documents itemsA !! id = Some d ∧
                 Data d !! "f" = Some x ∧ Sprint x = Sprint (VInt 1)) ∧
   Find forwards itemsA "f" (VInt 1) ≡ₚ
     filter (rendersAs "f" (VInt 1)) (snd <$> map_to_list (Documents itemsA))) ∧
  compareValues (VString "1e1") (VInt 10) = 0 ∧
  Find forwards tens "n" (VInt 10) = [].
Proof.
  destruct Find_scan_exact as [Hscan Hcoerce]. split.
  - apply Hscan; [reflexivity|apply forwards_range].
  - apply (Hcoerce forwards 10%float); [reflexivity|reflexivity|apply forwards_range].
Defined.

Lemma Insert_contract_witness :
  snd (Insert 2 2 "b" (fieldIs "f" (VInt 1)) itemsIndexed) = None ∧
  Values <$> Indexes (fst (Insert 2 2 "b" (fieldIs "f" (VInt 1)) itemsIndexed)) !! "f"
  = Some (<[ "1" := "b" ]> {[ "1" := "a" ]}) ∧
  fst (Insert 9 9 "a" ∅ itemsIndexed) = itemsIndexed.
Proof.
  destruct (Insert_contract 2 2 "b" (fieldIs "f" (VInt 1)) itemsIndexed)
    as (Hiff & Hkind & _ & Hok).
  destruct (Insert_contract 9 9 "a" ∅ itemsIndexed) as (_ & _ & Herr & _).
  assert (snd (Insert 2 2 "b" (fieldIs "f" (VInt 1)) itemsIndexed) = None) as Hnone
    by reflexivity.
  split; [exact Hnone|]. split.
  - destruct (Hok Hnone) as (_ & _ & Hix). rewrite (Hix "f"). reflexivity.
  - apply Herr. by eexists.
Defined.

Lemma Execute_pipeline_witness :
  0 ≤ skip page ∧ 0 ≤ limit page ∧
  Execute forwards page =
    (if limit page =? 0
     then drop (Z.to_nat (skip page))
            (sortDocuments page
               (filter (λ d, matchesAll page d)
                  (snd <$> forwards (Documents (collection page)))))
     else take (Z.to_nat (limit page))
            (drop (Z.to_nat (skip page))
               (sortDocuments page
                  (filter (λ d, matchesAll page d)
                     (snd <$> forwards (Documents (collection page))))))).
Proof.
  assert (0 ≤ skip page) as Hskip by (by vm_compute).
  assert (0 ≤ limit page) as Hlimit by (by vm_compute).
  split; [exact Hskip|]. split; [exact Hlimit|].
  destruct (Execute_pipeline forwards page Hskip Hlimit) as (Hexec & _).
  exact Hexec.
Defined.

(** Scenario 3 of the specification. *)
Example Execute_page :
  (λ d, Data d !! "n") <$> Execute forwards page
  = [Some (VInt 7); Some (VInt 6); Some (VInt 5)].
Proof. vm_compute. reflexivity. Qed.

Lemma sortDocuments_stable_witness :
  ∃ tagged : list (nat * Document),
    snd <$> tagged = sortDocuments (byN true) unsorted ∧
    ∀ u v, before u v tagged → sortTie (byN true) (snd u) (snd v) →
           (fst u < fst v)%nat.
Proof.
  destruct (sortDocuments_stable (byN true) unsorted) as (tagged & _ & Hs & Ht & _).
  exists tagged. split; [exact Hs|exact Ht].
Defined.

(** Ascending, the documents without [n] come last; descending, first; in
    both, [m1] stays before [m2] and ["2"] before [2]. *)
Example sortDocuments_unsorted :
  ID <$> sortDocuments (byN true) unsorted = ["p1"; "s2"; "i2"; "p3"; "m1"; "m2"] ∧
  ID <$> sortDocuments (byN false) unsorted = ["m1"; "m2"; "p3"; "s2"; "i2"; "p1"].
Proof. split; vm_compute; reflexivity. Qed.

Lemma GroupStage_sum_by_group_witness :
  match Process forwards (λ _, forwards) totals ledger with
  | inl res =>
      ∃ keys : list string,
        NoDup keys ∧
        (∀ k, k ∈ keys ↔ ∃ item, item ∈ ledger ∧ getGroupKey totals item = k) ∧
        Forall2 (λ k g, g !! "total" =
                          Some (VFloat (sumLoop "f" (itemsOfGroup totals k ledger))))
                keys res
  | inr _ => False
  end.
Proof.
  assert (Hok : match Process forwards (λ _, forwards) totals ledger with
                | inl _ => true
                | inr _ => false
                end = true) by (vm_compute; reflexivity).
  destruct (Process forwards (λ _, forwards) totals ledger) as [res|err] eqn:Hres;
    [|discriminate Hok].
  eapply (GroupStage_sum_by_group forwards (λ _, forwards) totals ledger "total" "f").
  - apply forwards_range.
  - intros t. apply forwards_range.
  - reflexivity.
  - exact Hres.
Defined.

(** C8, as stated, fails.  On four items in two groups the sum of the two
    group sums is 10000000000000002, in either order of the groups, while
    the sum over the input is 10000000000000000: the additions round. *)
Lemma GroupStage_sum_identity_fails :
  totalOfGroupSums "total" (Process forwards (λ _, forwards) totals ledger)
    = Some 10000000000000002%float ∧
  totalOfGroupSums "total" (Process backwards (λ _, forwards) totals ledger)
    = Some 10000000000000002%float ∧
  sumLoop "f" ledger = 10000000000000000%float ∧
  PrimFloat.eqb 10000000000000002%float 10000000000000000%float = false.
Proof. repeat split; vm_compute; reflexivity. Qed.

End Evaluated.

(** ** More on the collection: Update, Delete, lookups after a write *)

Section StorageMore.
Context `{GoLib}.

Create Rewrite HintDb fields.

#[local] Hint Rewrite Documents_updateIndexes Documents_removeFromIndexes
  Documents_setDocuments Indexes_setDocuments Documents_setIndexes
  Indexes_setIndexes : fields.

Ltac coll := autorewrite with fields in *.

Lemma Find_indexed_entry rng c f v index docID doc :
  Indexes c !! f = Some index →
  Values index !! Sprint v = Some docID →
  Documents c !! docID = Some doc →
  Find rng c f v = [doc].
Proof. intros Hf Hk Hd. unfold Find. by rewrite Hf, Hk, Hd. Qed.

(** What [Find] returns is stored, and under the invariant of the indexes
    it holds the queried rendering in the field. *)
Lemma Find_elem rng c f v d :
  index_consistent c → go_range rng (Documents c) →
  d ∈ Find rng c f v →
  ∃ id x, Documents c !! id = Some d ∧ Data d !! f = Some x ∧ Sprint x = Sprint v.
Proof.
  intros Hc Hrng. unfold Find.
  destruct (Indexes c !! f) as [index|] eqn:Hf.
  - destruct (Values index !! Sprint v) as [docID|] eqn:Hk; [|by inversion 1].
    destruct (Documents c !! docID) as [doc|] eqn:Hd; [|by inversion 1].
    intros ->%list_elem_of_singleton.
    destruct (Hc f index _ docID Hf Hk) as (d' & x & Hd' & Hx & Hs).
    simplify_eq. eauto.
  - intros Hin. by apply (scanDocuments_elem rng) in Hin.
Qed.

(** X1.  [Update] fails with the not-found error exactly when the id is
    absent, and then leaves the collection as it was.  Otherwise it keeps the
    id and the creation time of the document, replaces the data wholesale,
    stamps the update time, touches no other document, keeps the set of
    indexes, and in every index on a field of the new data the entry under
    the rendering of the new value names the document. *)
Theorem Update_contract (now : Time) (id : string) (data : gmap string Value)
    (c : Collection) :
  let r := Update now id data c in
  (snd r = Some (DocumentNotFound id) ↔ Documents c !! id = None) ∧
  (snd r = Some (DocumentNotFound id) ∨ snd r = None) ∧
  (is_Some (snd r) → fst r = c) ∧
  (∀ doc, Documents c !! id = Some doc →
     snd r = None ∧
     Documents (fst r) =
       <[id := {| ID := ID doc; Data := data;
                  CreatedAt := CreatedAt doc; UpdatedAt := now |}]> (Documents c) ∧
     dom (Indexes (fst r)) = dom (Indexes c) ∧
     ∀ f v, is_Some (Indexes c !! f) → data !! f = Some v →
            ∃ index, Indexes (fst r) !! f = Some index ∧
                     Values index !! Sprint v = Some (ID doc)).
Proof.
  unfold Update. destruct (Documents c !! id) as [doc|] eqn:Hid; cbn [fst snd].
  - split; [split; intros; done|]. split; [by right|].
    split; [by intros [? ?]|]. intros doc' [= <-].
    split; [done|]. split; [done|]. split.
    + apply set_eq. intros f. rewrite !elem_of_dom, updateIndexes_lookup. coll.
      rewrite removeFromIndexes_lookup. by rewrite !fmap_is_Some.
    + intros f v [index Hf] Hv. rewrite updateIndexes_lookup. coll.
      rewrite removeFromIndexes_lookup, Hf. simpl. eexists. split; [done|].
      unfold updateIndex. simpl. rewrite Hv. simpl. by rewrite lookup_insert_eq.
  - split; [done|]. split; [by left|]. split; [done|]. by intros.
Qed.

(** X2.  [Delete] fails with the not-found error exactly when the id is
    absent, and then leaves the collection as it was.  Otherwise the document
    is gone and the others stay; and when the index entries were consistent
    and every document was stored under its own id, no index entry names the
    deleted id and no [Find] returns a document with that id afterwards. *)
Theorem Delete_contract (rng : Range Document) (id : string) (c : Collection) :
  let r := Delete id c in
  (snd r = Some (DocumentNotFound id) ↔ Documents c !! id = None) ∧
  (is_Some (snd r) → fst r = c) ∧
  (is_Some (Documents c !! id) →
     snd r = None ∧ Documents (fst r) = delete id (Documents c)) ∧
  (is_Some (Documents c !! id) → ids_coherent c → index_consistent c →
     (∀ f index k, Indexes (fst r) !! f = Some index → Values index !! k ≠ Some id) ∧
     (go_range rng (Documents (fst r)) →
      ∀ f v d, d ∈ Find rng (fst r) f v → ID d ≠ id)).
Proof.
  cbn zeta.
  assert (Herr : snd (Delete id c) = Some (DocumentNotFound id) ↔
                 Documents c !! id = None).
  { unfold Delete. destruct (Documents c !! id); simpl; split; intros; done. }
  split; [done|]. split.
  { unfold Delete. destruct (Documents c !! id); simpl; [by intros [? ?]|done]. }
  split.
  { intros [doc Hid]. unfold Delete. rewrite Hid. by simpl. }
  intros [doc Hid] Hids Hc.
  destruct (Delete_preserves id c (conj Hids Hc)) as [Hids' Hc'].
  assert (Hgone : Documents (fst (Delete id c)) !! id = None).
  { unfold Delete. rewrite Hid. simpl. coll. apply lookup_delete_eq. }
  split.
  - intros f index k Hf Hk.
    destruct (Hc' f index k id Hf Hk) as (d & v & Hd & _). by rewrite Hgone in Hd.
  - intros Hrng f v d Hin Heq.
    destruct (Find_elem _ _ _ _ _ Hc' Hrng Hin) as (id' & x & Hd & _).
    assert (id' = id) as -> by (by rewrite <- (Hids' id' d Hd)).
    by rewrite Hd in Hgone.
Qed.

(** X3.  A successful [Insert] can be looked up at once: for a field [f] of
    the data and any value that prints like [data[f]], [Find] through an
    index on [f] returns exactly the new document (the last writer wins),
    and [Find] by scan returns it among the matches. *)
Theorem Insert_then_Find (rng : Range Document) (created updated : Time)
    (id : string) (data : gmap string Value) (c : Collection)
    (f : string) (v query : Value) :
  Documents c !! id = None →
  data !! f = Some v →
  Sprint query = Sprint v →
  let c' := fst (Insert created updated id data c) in
  let doc := {| ID := id; Data := data; CreatedAt := created; UpdatedAt := updated |} in
  (is_Some (Indexes c !! f) → Find rng c' f query = [doc]) ∧
  (Indexes c !! f = None → go_range rng (Documents c') → doc ∈ Find rng c' f query).
Proof.
  intros Hid Hv Hq c' doc. subst c'. unfold Insert. rewrite Hid. cbn [fst].
  split.
  - intros [index Hf].
    eapply (Find_indexed_entry _ _ _ _ _ id).
    + rewrite updateIndexes_lookup. coll. rewrite Hf. done.
    + unfold updateIndex. simpl. rewrite Hv. simpl. rewrite Hq.
      by rewrite lookup_insert_eq.
    + coll. by rewrite lookup_insert_eq.
  - intros Hf Hrng. unfold Find. rewrite updateIndexes_lookup. coll. rewrite Hf. simpl.
    apply (scanDocuments_elem rng); [done|]. coll.
    exists id, v. by rewrite lookup_insert_eq.
Qed.

(** X4.  Deleting a document right after inserting it restores the
    documents, but not always the indexes: an index on a field of the data
    ends without an entry under the rendering of that value, whatever it held
    there before the insert. *)
Theorem Insert_then_Delete (created updated : Time) (id : string)
    (data : gmap string Value) (c : Collection) :
  Documents c !! id = None →
  let c2 := Delete id (fst (Insert created updated id data c)) in
  snd c2 = None ∧
  Documents (fst c2) = Documents c ∧
  ∀ f index, Indexes c !! f = Some index →
    Values <$> Indexes (fst c2) !! f =
      Some (match data !! f with
            | Some v => delete (Sprint v) (Values index)
            | None => Values index
            end).
Proof.
  intros Hid. cbn zeta. unfold Insert. rewrite Hid. cbn [fst].
  unfold Delete. coll. rewrite lookup_insert_eq. cbn [fst snd].
  split; [done|]. split.
  - coll. rewrite delete_insert_eq. by apply delete_id.
  - intros f index Hf. coll. rewrite removeFromIndexes_lookup, updateIndexes_lookup.
    coll. rewrite Hf. simpl. unfold removeFromIndex, updateIndex. simpl.
    destruct (data !! f) as [v|]; simpl; [|done].
    by rewrite delete_insert_eq.
Qed.

(** X5.  After [Update] of a document stored under its own id in a
    collection with consistent indexes, [Find] returns that document only
    for values that print like the value its new data holds in the field;
    through an index on a field of the new data it returns exactly the
    updated document for such a value. *)
Theorem Update_then_Find (rng : Range Document) (now : Time) (id : string)
    (data : gmap string Value) (c : Collection) (doc : Document) :
  ids_coherent c → index_consistent c →
  Documents c !! id = Some doc →
  let c' := fst (Update now id data c) in
  let doc' := {| ID := ID doc; Data := data;
                 CreatedAt := CreatedAt doc; UpdatedAt := now |} in
  (∀ f v query, is_Some (Indexes c !! f) → data !! f = Some v →
                Sprint query = Sprint v → Find rng c' f query = [doc']) ∧
  (go_range rng (Documents c') →
   ∀ f query d, d ∈ Find rng c' f query → ID d = id →
                ∃ v, data !! f = Some v ∧ Sprint v = Sprint query).
Proof.
  intros Hids Hc Hid c' doc'.
  destruct (Update_preserves now id data c (conj Hids Hc)) as [Hids' Hc'].
  assert (Hdoc' : Documents c' !! id = Some doc').
  { subst c'. unfold Update. rewrite Hid. cbn [fst]. coll. by rewrite lookup_insert_eq. }
  split.
  - intros f v query [index Hf] Hv Hq.
    eapply (Find_indexed_entry _ _ _ _ _ id); [| |exact Hdoc'].
    + subst c'. unfold Update. rewrite Hid. cbn [fst].
      rewrite updateIndexes_lookup. coll. rewrite removeFromIndexes_lookup, Hf. done.
    + unfold updateIndex. simpl. rewrite Hv. simpl.
      rewrite Hq, (Hids id doc Hid). by rewrite lookup_insert_eq.
  - intros Hrng f query d Hin Hd.
    destruct (Find_elem _ _ _ _ _ Hc' Hrng Hin) as (id' & x & Hstored & Hx & Hs).
    rewrite (Hids' id' d Hstored) in Hd. subst id'.
    fold c' in Hstored. rewrite Hdoc' in Hstored. simplify_eq. simpl in Hx. eauto.
Qed.


Lemma buildIndex_complete docs field key d x :
  (key, d) ∈ docs → Data d !! field = Some x →
  is_Some (Values (buildIndex docs field) !! Sprint x).
Proof.
  unfold buildIndex. induction docs as [|[key' d'] docs IH] using rev_ind.
  - by intros ?%not_elem_of_nil.
  - rewrite foldl_app. simpl. intros Hin Hx.
    apply elem_of_app in Hin as [Hin|Hin%list_elem_of_singleton].
    + destruct (Data d' !! field) as [x'|]; simpl; [|by apply IH].
      destruct (decide (Sprint x' = Sprint x)) as [->|Hne].
      * rewrite lookup_insert_eq. by eexists.
      * rewrite lookup_insert_ne by done. by apply IH.
    + simplify_eq. rewrite Hx. simpl. rewrite lookup_insert_eq. by eexists.
Qed.

(** X6.  Right after [CreateIndex] on [f], in a collection whose documents
    are stored under their own ids, the indexed [Find] answers exactly when
    the scan would: it returns one document, which holds the queried
    rendering in [f], if some stored document does, and nothing otherwise.
    The other indexes and the documents are left as they were. *)
Theorem CreateIndex_complete (rng find scan : Range Document) (f : string)
    (c : Collection) (query : Value) :
  ids_coherent c →
  go_range rng (Documents c) → go_range scan (Documents c) →
  let c' := CreateIndex rng f c in
  Documents c' = Documents c ∧
  (∀ g, g ≠ f → Indexes c' !! g = Indexes c !! g) ∧
  (scanDocuments (scan (Documents c)) f query = [] → Find find c' f query = []) ∧
  (scanDocuments (scan (Documents c)) f query ≠ [] →
     ∃ d, Find find c' f query = [d] ∧
          d ∈ scanDocuments (scan (Documents c)) f query).
Proof.
  intros Hids Hrng Hscan c'. subst c'. unfold CreateIndex.
  split; [done|]. split; [intros g Hg; coll; by rewrite lookup_insert_ne|].
  unfold Find. coll. rewrite lookup_insert_eq.
  destruct (Values (buildIndex (rng (Documents c)) f) !! Sprint query)
    as [docID|] eqn:Hk.
  - apply buildIndex_entry in Hk as (key & d & x & Hin & Hid & Hx & Hs).
    rewrite Hrng in Hin. apply elem_of_map_to_list in Hin.
    pose proof (Hids key d Hin) as Hkey. subst docID. rewrite Hkey, Hin.
    assert (d ∈ scanDocuments (scan (Documents c)) f query) as Hd
      by (apply scanDocuments_elem; eauto).
    split.
    + intros Hnil. rewrite Hnil in Hd. by apply not_elem_of_nil in Hd.
    + intros _. by exists d.
  - split; [done|]. intros Hne. exfalso.
    destruct (scanDocuments (scan (Documents c)) f query) as [|d l] eqn:Hl; [done|].
    assert (d ∈ scanDocuments (scan (Documents c)) f query) as Hd
      by (rewrite Hl; by left).
    apply scanDocuments_elem in Hd as (id & x & Hin & Hx & Hs); [|done].
    destruct (buildIndex_complete (rng (Documents c)) f id d x) as [id' Hid']; [|done|].
    + rewrite Hrng. by apply elem_of_map_to_list.
    + rewrite Hs in Hid'. by rewrite Hid' in Hk.
Qed.

(** X7.  [CreateCollection] fails exactly when the name is taken, and then
    changes nothing; otherwise the new name leads to an empty collection of
    that name and every other name leads where it led before.
    [GetCollection] fails exactly on the names that are absent. *)
Theorem CreateCollection_contract (name : string) (db : Database) :
  let r := CreateCollection name db in
  (snd r = Some (CollectionAlreadyExists name) ↔ is_Some (Collections db !! name)) ∧
  (is_Some (snd r) → fst r = db) ∧
  (snd r = None →
     GetCollection name (fst r) = inl (newCollection name) ∧
     DBName (fst r) = DBName db ∧ Path (fst r) = Path db ∧
     ∀ other, other ≠ name → GetCollection other (fst r) = GetCollection other db) ∧
  (∀ other, GetCollection other db = inr (CollectionNotFound other) ↔
            Collections db !! other = None).
Proof.
  cbn zeta. unfold CreateCollection, GetCollection.
  destruct (Collections db !! name) as [c|] eqn:Hname; cbn [fst snd].
  - split; [by eauto|]. split; [done|]. split; [done|].
    intros other. by destruct (Collections db !! other).
  - split; [split; [done|by intros [? ?]]|]. split; [by intros [? ?]|].
    split.
    + intros _. simpl. rewrite lookup_insert_eq. do 3 (split; [done|]).
      intros other Hne. by rewrite lookup_insert_ne.
    + intros other. by destruct (Collections db !! other).
Qed.

(** X8.  [GetAll] returns every stored document once, in the order of the
    map loop. *)
Theorem GetAll_all (rng : Range Document) (c : Collection) :
  go_range rng (Documents c) →
  GetAll rng c ≡ₚ snd <$> map_to_list (Documents c) ∧
  length (GetAll rng c) = size (Documents c) ∧
  ∀ d, d ∈ GetAll rng c ↔ ∃ id, Documents c !! id = Some d.
Proof.
  intros Hrng.
  assert (Hall : GetAll rng c = snd <$> rng (Documents c)).
  { unfold GetAll.
    enough (Hacc : ∀ acc, foldl (λ docs kd, docs ++ [snd kd]) acc (rng (Documents c))
                          = acc ++ (snd <$> rng (Documents c))) by apply Hacc.
    induction (rng (Documents c)) as [|kd l IH]; intros acc; simpl.
    - by rewrite app_nil_r.
    - rewrite IH. by rewrite <- app_assoc. }
  rewrite Hall. unfold go_range in Hrng.
  split; [by rewrite Hrng|]. split.
  - by rewrite length_fmap, Hrng, length_map_to_list.
  - intros d. rewrite list_elem_of_fmap. split.
    + intros ([id d'] & -> & Hin). rewrite Hrng in Hin.
      apply elem_of_map_to_list in Hin. eauto.
    + intros (id & Hd). exists (id, d). split; [done|].
      rewrite Hrng. by apply elem_of_map_to_list.
Qed.

End StorageMore.

(** ** More on the query builder *)

Section QueryMore.
Context `{GoLib}.

(** [Execute] for any skip and limit. *)
Lemma Execute_shape (rng : Range Document) (qb : QueryBuilder) :
  Execute rng qb =
    let rest := drop (Z.to_nat (skip qb))
                  (sortDocuments qb
                     (filter (λ d, matchesAll qb d)
                        (snd <$> rng (Documents (collection qb))))) in
    if limit qb >? 0 then take (Z.to_nat (limit qb)) rest else rest.
Proof.
  cbn zeta. unfold Execute. rewrite filterDocuments_filter.
  set (matches := filter (λ d, matchesAll qb d) (snd <$> rng (Documents (collection qb)))).
  assert (Hsorted :
    (if negb (String.eqb (sortBy qb) "") then sortDocuments qb matches else matches)
    = sortDocuments qb matches).
  { unfold sortDocuments. by destruct (String.eqb (sortBy qb) ""). }
  rewrite Hsorted. set (sorted := sortDocuments qb matches).
  assert (Hdrop :
    (if (skip qb >? 0) && (skip qb <? Z.of_nat (length sorted))
     then drop (Z.to_nat (skip qb)) sorted
     else if skip qb >=? Z.of_nat (length sorted) then [] else sorted)
    = drop (Z.to_nat (skip qb)) sorted).
  { destruct (skip qb >? 0) eqn:Hpos, (skip qb <? Z.of_nat (length sorted)) eqn:Hlt;
      simpl; try done.
    - assert ((skip qb >=? Z.of_nat (length sorted)) = true) as -> by lia.
      symmetry. apply drop_ge. lia.
    - assert ((skip qb >=? Z.of_nat (length sorted)) = false) as -> by lia.
      by assert (Z.to_nat (skip qb) = 0%nat) as -> by lia.
    - assert ((skip qb >=? Z.of_nat (length sorted)) = true) as -> by lia.
      symmetry. apply drop_ge. lia. }
  rewrite Hdrop. set (rest := drop (Z.to_nat (skip qb)) sorted).
  destruct (limit qb >? 0) eqn:Hpos, (limit qb <? Z.of_nat (length rest)) eqn:Hlt;
    simpl; try done.
  symmetry. apply take_ge. lia.
Qed.

(** X9.  A skip or a limit that is zero or negative is ignored: [Execute]
    then returns all the matches, sorted. *)
Theorem Execute_nonpositive_bounds (rng : Range Document) (qb : QueryBuilder) (s l : Z) :
  s ≤ 0 → l ≤ 0 →
  Execute rng (Skip s (Limit l qb)) =
    sortDocuments qb
      (filter (λ d, matchesAll qb d) (snd <$> rng (Documents (collection qb)))).
Proof.
  intros Hs Hl. rewrite Execute_shape. cbn zeta. simpl.
  assert ((l >? 0) = false) as -> by lia.
  by assert (Z.to_nat s = 0%nat) as -> by lia.
Qed.

(** X10.  Whatever the skip and the limit, every document that [Execute]
    returns is stored in the collection and passes all the filters, no
    document is returned more often than it is stored, and a positive limit
    bounds the number of results. *)
Theorem Execute_sound (rng : Range Document) (qb : QueryBuilder) :
  go_range rng (Documents (collection qb)) →
  (∀ d, d ∈ Execute rng qb →
        matchesAll qb d = true ∧ ∃ id, Documents (collection qb) !! id = Some d) ∧
  Execute rng qb ⊆+ snd <$> map_to_list (Documents (collection qb)) ∧
  (0 < limit qb → Z.of_nat (length (Execute rng qb)) ≤ limit qb).
Proof.
  intros Hrng. unfold go_range in Hrng.
  set (matches := filter (λ d, matchesAll qb d) (snd <$> rng (Documents (collection qb)))).
  assert (Hsub : Execute rng qb ⊆+ matches).
  { rewrite Execute_shape. cbn zeta. fold matches.
    rewrite <- (sortDocuments_Permutation qb matches) at 3.
    apply sublist_submseteq.
    destruct (limit qb >? 0); [etrans; [apply sublist_take|]|]; apply sublist_drop. }
  split; [|split].
  - intros d Hd. apply (elem_of_submseteq _ _ _ Hd) in Hsub.
    apply list_elem_of_filter in Hsub as [Hm Hin]. split; [by apply Is_true_true|].
    apply list_elem_of_fmap in Hin as ([id d'] & -> & Hin).
    rewrite Hrng in Hin. apply elem_of_map_to_list in Hin. eauto.
  - etrans; [exact Hsub|]. rewrite <- Hrng.
    apply sublist_submseteq, sublist_filter.
  - intros Hpos. rewrite Execute_shape. cbn zeta.
    assert ((limit qb >? 0) = true) as -> by lia.
    rewrite length_take. lia.
Qed.

Lemma Count_filter (rng : Range Document) (qb : QueryBuilder) :
  Count rng qb =
    Z.of_nat (length (filter (λ d, matchesAll qb d)
                        (snd <$> rng (Documents (collection qb))))).
Proof.
  unfold Count.
  enough (Hacc : ∀ acc,
    foldl (λ count kd, if matchesFilters qb (snd kd) then count + 1 else count)
          acc (rng (Documents (collection qb)))
    = acc + Z.of_nat (length (filter (λ d, matchesAll qb d)
                                (snd <$> rng (Documents (collection qb))))))
    by (rewrite Hacc; lia).
  induction (rng (Documents (collection qb))) as [|[key d] l IH]; intros acc.
  - simpl. lia.
  - cbn [foldl fmap list_fmap snd]. rewrite IH, filter_cons, matchesFilters_matchesAll.
    destruct (matchesAll qb d) eqn:Hm.
    + rewrite decide_True by done. cbn [length]. lia.
    + rewrite decide_False; [done|]. by intros [].
Qed.

(** X11.  [Count] is the number of stored documents that pass all the
    filters, whatever the order of the map loop; sorting, skip and limit do
    not change it; [Execute] never returns more documents than [Count]
    counts, and returns exactly as many when skip and limit are not
    positive. *)
Theorem Count_matches (rng : Range Document) (qb : QueryBuilder) :
  go_range rng (Documents (collection qb)) →
  Count rng qb =
    Z.of_nat (length (filter (λ d, matchesAll qb d)
                        (snd <$> map_to_list (Documents (collection qb))))) ∧
  (∀ field ascending s l,
     Count rng (Sort field ascending (Skip s (Limit l qb))) = Count rng qb) ∧
  Z.of_nat (length (Execute rng qb)) ≤ Count rng qb ∧
  (skip qb ≤ 0 → limit qb ≤ 0 → Z.of_nat (length (Execute rng qb)) = Count rng qb).
Proof.
  intros Hrng. unfold go_range in Hrng. split; [|split; [|split]].
  - rewrite Count_filter. by rewrite Hrng.
  - intros. reflexivity.
  - rewrite Count_filter, Execute_shape. cbn zeta.
    destruct (limit qb >? 0); rewrite ?length_take, length_drop, length_sortDocuments; lia.
  - intros Hs Hl. rewrite Count_filter, Execute_shape. cbn zeta.
    assert ((limit qb >? 0) = false) as -> by lia.
    assert (Z.to_nat (skip qb) = 0%nat) as -> by lia.
    by rewrite drop_0, length_sortDocuments.
Qed.

Lemma compareValues_cases a b :
  (compareValues a b = -1 ∨ compareValues a b = 0 ∨ compareValues a b = 1).
Proof. apply compareValues_range. Qed.

(** X12.  How the operators relate on one document and one filter value:
    [$ne] is the negation of [$eq] and [$nin] of [$in]; [$gte] is [$gt] or
    [$eq], [$lte] is [$lt] or [$eq]; on a document that has the field exactly
    one of [$lt], [$eq], [$gt] holds; on a document that lacks it none of the
    three holds and [$ne] does; an operator outside the twelve known ones
    never holds. *)
Theorem operators_related (d : Document) (f : string) (v : Value) :
  holds d f OpNotEqual v = negb (holds d f OpEqual v) ∧
  holds d f OpNotIn v = negb (holds d f OpIn v) ∧
  holds d f OpGreaterThanOrEqual v = holds d f OpGreaterThan v || holds d f OpEqual v ∧
  holds d f OpLessThanOrEqual v = holds d f OpLessThan v || holds d f OpEqual v ∧
  (is_Some (Data d !! f) →
     (holds d f OpLessThan v = true ∧ holds d f OpEqual v = false ∧
      holds d f OpGreaterThan v = false) ∨
     (holds d f OpLessThan v = false ∧ holds d f OpEqual v = true ∧
      holds d f OpGreaterThan v = false) ∨
     (holds d f OpLessThan v = false ∧ holds d f OpEqual v = false ∧
      holds d f OpGreaterThan v = true)) ∧
  (Data d !! f = None →
     holds d f OpLessThan v = false ∧ holds d f OpEqual v = false ∧
     holds d f OpGreaterThan v = false ∧ holds d f OpNotEqual v = true) ∧
  (∀ op, op ∉ knownOperators → holds d f op v = false).
Proof.
  unfold holds, matchesFilter. cbn [FField FOperator FValue].
  split; [simpl; by destruct (Data d !! f)|].
  split; [simpl; destruct (Data d !! f); [by destruct v|done]|].
  split.
  { simpl. destruct (Data d !! f) as [x|]; [|done].
    destruct (compareValues_cases x v) as [-> | [-> | ->]]; done. }
  split.
  { simpl. destruct (Data d !! f) as [x|]; [|done].
    destruct (compareValues_cases x v) as [-> | [-> | ->]]; done. }
  split.
  { intros [x ->]. simpl.
    destruct (compareValues_cases x v) as [-> | [-> | ->]]; auto. }
  split; [by intros ->|].
  intros op Hop. unfold knownOperators in Hop.
  repeat (apply not_elem_of_cons in Hop as [?%String.eqb_neq Hop]).
  unfold OpEqual, OpNotEqual, OpGreaterThan, OpGreaterThanOrEqual, OpLessThan,
    OpLessThanOrEqual, OpIn, OpNotIn, OpRegex, OpExists, OpType, OpSize in *.
  by repeat match goal with
            | Hne : String.eqb op _ = false |- _ => rewrite Hne; clear Hne
            end.
Qed.

Lemma matchesAll_app_filter qb d flt :
  forallb (matchesFilter d) (filters qb ++ [flt])
  = matchesAll qb d && matchesFilter d flt.
Proof. unfold matchesAll. rewrite forallb_app. simpl. by rewrite andb_true_r. Qed.

Lemma length_filter_weaker {A : Type} (P Q : A → Prop)
    `{∀ x, Decision (P x)} `{∀ x, Decision (Q x)} (l : list A) :
  (∀ x, P x → Q x) → (length (filter P l) ≤ length (filter Q l))%nat.
Proof.
  intros HPQ. induction l as [|x l IH]; [done|].
  rewrite !filter_cons. destruct (decide (P x)) as [HP|HP].
  - rewrite decide_True by auto. simpl. lia.
  - destruct (decide (Q x)); simpl; lia.
Qed.

(** X13.  [Where] adds a conjunct: a document passes the filters of the
    extended query exactly when it passes those of the query and the new
    filter, so adding a filter never makes [Count] grow; sort key, order,
    skip, limit and collection are left as they were. *)
Theorem Where_conjunct (rng : Range Document) (f op : string) (v : Value)
    (qb : QueryBuilder) :
  (∀ d, matchesFilters (Where f op v qb) d = matchesFilters qb d && holds d f op v) ∧
  Count rng (Where f op v qb) ≤ Count rng qb ∧
  (collection (Where f op v qb), sortBy (Where f op v qb), sortOrder (Where f op v qb),
   skip (Where f op v qb), limit (Where f op v qb))
  = (collection qb, sortBy qb, sortOrder qb, skip qb, limit qb).
Proof.
  assert (Hconj : ∀ d, matchesAll (Where f op v qb) d = matchesAll qb d && holds d f op v).
  { intros d. unfold holds. rewrite <- matchesAll_app_filter. reflexivity. }
  split; [|split; [|done]].
  - intros d. by rewrite !matchesFilters_matchesAll.
  - rewrite !Count_filter. apply inj_le. simpl.
    apply length_filter_weaker. intros d. rewrite Hconj.
    by intros [? _]%andb_prop_elim.
Qed.

(** X14.  [compareValues] is antisymmetric and reflexive: exchanging the
    operands negates the result, a value compares equal to itself, and
    equality under it is symmetric. *)
Theorem compareValues_antisymmetric (a b : Value) :
  compareValues b a = - compareValues a b ∧
  compareValues a a = 0 ∧
  (compareValues a b = 0 ↔ compareValues b a = 0).
Proof.
  split; [apply compareValues_antisym|].
  split; [by apply compareValues_same_rendering|].
  rewrite (compareValues_antisym a b). lia.
Qed.

(** X15.  Sorting loses and invents nothing: the sorted sequence is a
    permutation of the input, of the same length, and without a sort key it
    is the input itself. *)
Theorem sortDocuments_permutes (qb : QueryBuilder) (docs : list Document) :
  sortDocuments qb docs ≡ₚ docs ∧
  length (sortDocuments qb docs) = length docs ∧
  (∀ d, d ∈ sortDocuments qb docs ↔ d ∈ docs) ∧
  (sortBy qb = "" → sortDocuments qb docs = docs).
Proof.
  split; [apply sortDocuments_Permutation|].
  split; [apply length_sortDocuments|]. split.
  - intros d. by rewrite (sortDocuments_Permutation qb docs).
  - intros Hby. unfold sortDocuments. by rewrite Hby.
Qed.

Lemma addFilters_fields (fs : list QueryFilter) (q : QueryBuilder) :
  filters (addFilters fs q) = filters q ++ (filterOf <$> fs) ∧
  collection (addFilters fs q) = collection q ∧
  sortBy (addFilters fs q) = sortBy q ∧ sortOrder (addFilters fs q) = sortOrder q ∧
  skip (addFilters fs q) = skip q ∧ limit (addFilters fs q) = limit q.
Proof.
  unfold addFilters. revert q; induction fs as [|f fs IH]; intros q; simpl.
  - by rewrite app_nil_r.
  - destruct (IH (Where (QFField f) (QFOperator f) (QFValue f) q))
      as (-> & -> & -> & -> & -> & ->).
    simpl. by rewrite <- app_assoc.
Qed.

(** X16.  The query that the service builds from a request has the
    filters of the request, in their order, on the collection; its skip and
    its limit are never negative (a request value that is not positive leaves
    them 0); without a sort option it has no sort key.  So the service counts
    at least as many documents as its query returns, and exactly as many when
    the request sets neither a positive limit nor a positive skip. *)
Theorem buildQuery_request (rng : Range Document) (c : Collection)
    (req : AdvancedQueryRequest) :
  filters (buildQuery c req) = filterOf <$> ReqFilters req ∧
  collection (buildQuery c req) = c ∧
  skip (buildQuery c req) = Z.max 0 (ReqSkip req) ∧
  limit (buildQuery c req) = Z.max 0 (ReqLimit req) ∧
  (ReqSort req = None → sortBy (buildQuery c req) = "") ∧
  Z.of_nat (length (AdvancedQueryOn rng c req)) ≤ CountDocumentsOn rng c req ∧
  (ReqLimit req ≤ 0 → ReqSkip req ≤ 0 →
   Z.of_nat (length (AdvancedQueryOn rng c req)) = CountDocumentsOn rng c req).
Proof.
  destruct (addFilters_fields (ReqFilters req) (NewQuery c))
    as (Hf & Hc & Hby & Hord & Hs & Hl). simpl in Hf, Hc, Hby, Hord, Hs, Hl.
  assert (Hfields :
    filters (buildQuery c req) = filterOf <$> ReqFilters req ∧
    collection (buildQuery c req) = c ∧
    skip (buildQuery c req) = Z.max 0 (ReqSkip req) ∧
    limit (buildQuery c req) = Z.max 0 (ReqLimit req) ∧
    (ReqSort req = None → sortBy (buildQuery c req) = "")).
  { unfold buildQuery.
    destruct (ReqSort req) as [srt|], (ReqLimit req >? 0) eqn:Hlim,
             (ReqSkip req >? 0) eqn:Hskip; simpl;
      rewrite ?Hf, ?Hc, ?Hby, ?Hs, ?Hl; repeat split; try done; lia. }
  destruct Hfields as (Hbf & Hbc & Hbs & Hbl & Hbby).
  do 5 (split; [done|]).
  assert (Hcount : CountDocumentsOn rng c req = Count rng (buildQuery c req)).
  { unfold CountDocumentsOn. rewrite !Count_filter. rewrite Hc, Hbc.
    unfold matchesAll. by rewrite Hf, Hbf. }
  rewrite Hcount. unfold AdvancedQueryOn.
  set (qb := buildQuery c req) in *.
  split.
  - rewrite Count_filter, Execute_shape. cbn zeta.
    destruct (limit qb >? 0); rewrite ?length_take, length_drop, length_sortDocuments; lia.
  - intros Hl0 Hs0. rewrite Count_filter, Execute_shape. cbn zeta.
    rewrite Hbl, Hbs.
    assert ((Z.max 0 (ReqLimit req) >? 0) = false) as -> by lia.
    assert (Z.to_nat (Z.max 0 (ReqSkip req)) = 0%nat) as -> by lia.
    by rewrite drop_0, length_sortDocuments.
Qed.

End QueryMore.

(** ** More on the aggregation pipeline *)

Section AggregationMore.
Context `{GoLib}.

(** The groups of the output, one by one: the keys are those of the input,
    each once; every aggregation of the stage succeeded on the items of the
    group and its value is stored under its name; the key is stored under
    [_id] unless an aggregation has that name. *)
Lemma Process_by_group grng frng s data res :
  go_range grng (groupItems s data) →
  (∀ t, go_range (frng t) (Fields s)) →
  Process grng frng s data = inl res →
  ∃ keys : list string,
    NoDup keys ∧
    (∀ k, k ∈ keys ↔ ∃ item, item ∈ data ∧ getGroupKey s item = k) ∧
    Forall2 (λ k g,
               (∀ out agg, Fields s !! out = Some agg →
                  ∃ value, calculateAggregation (itemsOfGroup s k data) agg = inl value ∧
                           g !! out = Some value) ∧
               (Fields s !! "_id" = None → g !! "_id" = Some (VString k)))
            keys res.
Proof.
  intros Hgrng Hfrng Hres. unfold Process in Hres.
  apply groupResults_each in Hres as (new & -> & Hall). simpl.
  exists (fst <$> grng (groupItems s data)). split; [|split].
  - rewrite Hgrng. apply NoDup_fst_map_to_list.
  - intros k. rewrite Hgrng, <- itemsOfGroup_nonempty. split.
    + intros ([k' items] & -> & Hin)%list_elem_of_fmap.
      apply elem_of_map_to_list in Hin. simpl.
      rewrite groupItems_lookup in Hin. by destruct (itemsOfGroup s k' data).
    + intros Hne. apply list_elem_of_fmap.
      exists (k, itemsOfGroup s k data). split; [done|].
      apply elem_of_map_to_list. rewrite groupItems_lookup.
      by destruct (itemsOfGroup s k data).
  - apply Forall2_fmap_l.
    assert (Hin : ∀ kg, kg ∈ grng (groupItems s data) →
                        snd kg = itemsOfGroup s (fst kg) data).
    { intros [k items]. rewrite Hgrng. intros Hin%elem_of_map_to_list.
      rewrite groupItems_lookup in Hin. simpl.
      destruct (itemsOfGroup s k data); by simplify_eq. }
    revert Hin. induction Hall as [|[k items] gr groups new' [t Hgr] Hall IH];
      intros Hin; constructor.
    + simpl in *.
      assert (items = itemsOfGroup s k data) as ->
        by (apply (Hin (k, items)); by left).
      split.
      * intros out agg Hout.
        eapply (groupFields_lookup (frng t (Fields s))); [| |exact Hgr].
        -- rewrite (Hfrng t). apply NoDup_fst_map_to_list.
        -- rewrite (Hfrng t). by apply elem_of_map_to_list.
      * intros Hid.
        assert (Hfresh : "_id" ∉ fst <$> frng t (Fields s)).
        { rewrite (Hfrng t). intros ([out agg] & Heq & Hin')%list_elem_of_fmap.
          simpl in Heq. subst out. apply elem_of_map_to_list in Hin'.
          by rewrite Hid in Hin'. }
        rewrite (groupFields_keeps _ _ _ _ _ Hfresh Hgr).
        by rewrite lookup_singleton_eq.
    + apply IH. intros kg Hkg. apply Hin. by right.
Qed.

Lemma indicator_sum (keys : list string) (k0 : string) :
  NoDup keys → k0 ∈ keys →
  foldr (λ k n, (if decide (k0 = k) then 1 else 0) + n) 0 keys = 1.
Proof.
  induction 1 as [|k keys Hk Hnd IH]; [by intros ?%not_elem_of_nil|].
  intros Hin. simpl. destruct (decide (k0 = k)) as [->|Hne].
  - assert (foldr (λ k' n, (if decide (k = k') then 1 else 0) + n) 0 keys = 0) as ->;
      [|done].
    clear IH Hin Hnd. induction keys as [|k' keys IH]; [done|]. simpl.
    apply not_elem_of_cons in Hk as [Hne Hk].
    rewrite decide_False by done. by rewrite IH.
  - apply elem_of_cons in Hin as [?|Hin]; [done|]. by rewrite IH.
Qed.

Lemma group_sizes_sum (s : GroupStage) (keys : list string)
    (data : list (gmap string Value)) :
  NoDup keys →
  (∀ item, item ∈ data → getGroupKey s item ∈ keys) →
  foldr (λ k n, Z.of_nat (length (itemsOfGroup s k data)) + n) 0 keys
  = Z.of_nat (length data).
Proof.
  intros Hnd. induction data as [|item data IH]; intros Hall.
  - clear. induction keys as [|k keys IH]; [done|]. cbn [foldr]. by rewrite IH.
  - assert (Hstep : ∀ ks,
      foldr (λ k n, Z.of_nat (length (itemsOfGroup s k (item :: data))) + n) 0 ks
      = foldr (λ k n, (if decide (getGroupKey s item = k) then 1 else 0) + n) 0 ks
        + foldr (λ k n, Z.of_nat (length (itemsOfGroup s k data)) + n) 0 ks).
    { induction ks as [|k ks IHks]; [done|]. simpl. rewrite IHks.
      unfold itemsOfGroup. rewrite filter_cons.
      destruct (decide (getGroupKey s item = k)); cbn [length]; lia. }
    rewrite Hstep, IH, indicator_sum; [cbn [length]; lia|done| |].
    + apply Hall. by left.
    + intros item' Hin. apply Hall. by right.
Qed.

(** X17.  The counts of a group stage add up exactly: with a [count]
    aggregation under the name [out], the sum over the output groups of the
    value under [out] is the number of input items. *)
Theorem GroupStage_counts_add_up (grng : Range (list (gmap string Value)))
    (frng : nat → Range AggregateFunc) (s : GroupStage)
    (data : list (gmap string Value)) (out f : string)
    (res : list (gmap string Value)) :
  go_range grng (groupItems s data) →
  (∀ t, go_range (frng t) (Fields s)) →
  Fields s !! out = Some {| Operation := "count"; AggField := f |} →
  Process grng frng s data = inl res →
  sumOfGroupCounts out res = Z.of_nat (length data).
Proof.
  intros Hgrng Hfrng Hout Hres.
  destruct (Process_by_group _ _ _ _ _ Hgrng Hfrng Hres) as (keys & Hnd & Hk & Hall).
  rewrite <- (group_sizes_sum s keys data Hnd).
  - unfold sumOfGroupCounts.
    enough (Hacc : ∀ acc,
      foldl (λ acc g, match g !! out with Some (VInt n) => acc + n | _ => acc end)
            acc res
      = acc + foldr (λ k n, Z.of_nat (length (itemsOfGroup s k data)) + n) 0 keys)
      by (rewrite Hacc; lia).
    clear Hnd Hk Hres.
    induction Hall as [|k g keys res [Hg _] _ IH]; intros acc; simpl.
    + lia.
    + destruct (Hg out _ Hout) as (value & Hcalc & ->).
      cbv [calculateAggregation Operation] in Hcalc. simpl in Hcalc.
      injection Hcalc as <-. rewrite IH. lia.
  - intros item Hin. apply Hk. eauto.
Qed.

Lemma calculateAggregation_error data agg err :
  calculateAggregation data agg = inr err →
  err = UnknownAggregation (Operation agg) ∧ Operation agg ∉ knownAggregations.
Proof.
  unfold calculateAggregation, knownAggregations.
  destruct (String.eqb_spec (Operation agg) "count"); [done|].
  destruct (String.eqb_spec (Operation agg) "sum"); [done|].
  destruct (String.eqb_spec (Operation agg) "avg");
    [by destruct (snd _ >? 0)|].
  destruct (String.eqb_spec (Operation agg) "max"); [by destruct (fst _)|].
  destruct (String.eqb_spec (Operation agg) "min"); [by destruct (fst _)|].
  intros [= <-]. split; [done|]. rewrite !not_elem_of_cons. repeat split; try done.
  apply not_elem_of_nil.
Qed.

Lemma calculateAggregation_known data agg :
  Operation agg ∈ knownAggregations → ∃ value, calculateAggregation data agg = inl value.
Proof.
  intros Hop. destruct (calculateAggregation data agg) as [value|err] eqn:Hcalc;
    [by eexists|].
  by apply calculateAggregation_error in Hcalc as [_ Hno].
Qed.

Lemma groupFields_total fields groupData init :
  (∀ out agg, (out, agg) ∈ fields → Operation agg ∈ knownAggregations) →
  ∃ gr, groupFields fields groupData init = inl gr.
Proof.
  revert init; induction fields as [|[name agg] fields IH]; intros init Hall; simpl.
  - by eexists.
  - destruct (calculateAggregation_known groupData agg) as [value ->].
    + apply (Hall name). by left.
    + apply IH. intros out agg' Hin. apply (Hall out). by right.
Qed.

Lemma calculateAggregation_unknown data agg :
  Operation agg ∉ knownAggregations →
  calculateAggregation data agg = inr (UnknownAggregation (Operation agg)).
Proof.
  unfold calculateAggregation, knownAggregations. rewrite !not_elem_of_cons.
  intros (? & ? & ? & ? & ? & _).
  destruct (String.eqb_spec (Operation agg) "count"); [done|].
  destruct (String.eqb_spec (Operation agg) "sum"); [done|].
  destruct (String.eqb_spec (Operation agg) "avg"); [done|].
  destruct (String.eqb_spec (Operation agg) "max"); [done|].
  by destruct (String.eqb_spec (Operation agg) "min").
Qed.

Lemma groupFields_fails fields groupData init out agg :
  (out, agg) ∈ fields → Operation agg ∉ knownAggregations →
  ∃ op, (op ∉ knownAggregations) ∧
        groupFields fields groupData init = inr (UnknownAggregation op).
Proof.
  revert init; induction fields as [|[name a] fields IH]; intros init Hin Hbad.
  - by apply not_elem_of_nil in Hin.
  - simpl. destruct (calculateAggregation groupData a) as [value|err] eqn:Hcalc.
    + apply elem_of_cons in Hin as [Heq|Hin]; [|by apply IH].
      injection Heq as -> ->.
      by rewrite (calculateAggregation_unknown _ _ Hbad) in Hcalc.
    + apply calculateAggregation_error in Hcalc as [-> Hno]. eauto.
Qed.

Lemma groupResults_total frng s groups turn acc :
  (∀ t out agg, (out, agg) ∈ frng t (Fields s) → Operation agg ∈ knownAggregations) →
  ∃ res, groupResults frng s groups turn acc = inl res.
Proof.
  intros Hall. revert turn acc; induction groups as [|[k gd] groups IH];
    intros turn acc; simpl; [by eexists|].
  destruct (groupFields_total (frng turn (Fields s)) gd {[ "_id" := VString k ]})
    as [gr ->]; [by apply Hall|]. apply IH.
Qed.

(** X18.  The edges of the group stage.  On an empty input it returns no
    group and no error, whatever its aggregations.  On a non-empty input it
    succeeds when every operation is one of [count], [sum], [avg], [max],
    [min], and fails with the unknown-operation error, naming an unknown
    operation, when some aggregation has another one.  When the id of the
    stage is not a string, all the items form the one group ["null"]. *)
Theorem GroupStage_edges (grng : Range (list (gmap string Value)))
    (frng : nat → Range AggregateFunc) (s : GroupStage)
    (data : list (gmap string Value)) :
  go_range grng (groupItems s data) →
  (∀ t, go_range (frng t) (Fields s)) →
  (data = [] → Process grng frng s data = inl []) ∧
  ((∀ out agg, Fields s !! out = Some agg → Operation agg ∈ knownAggregations) →
     ∃ res, Process grng frng s data = inl res) ∧
  (data ≠ [] →
   ∀ out agg, Fields s !! out = Some agg → Operation agg ∉ knownAggregations →
     ∃ op, (op ∉ knownAggregations) ∧
           Process grng frng s data = inr (UnknownAggregation op)) ∧
  ((∀ idStr, GroupID s ≠ VString idStr) → data ≠ [] →
   ∀ res, Process grng frng s data = inl res →
     ∃ g, res = [g] ∧ (Fields s !! "_id" = None → g !! "_id" = Some (VString "null"))).
Proof.
  intros Hgrng Hfrng. split; [|split; [|split]].
  - intros ->. unfold Process. unfold go_range, groupItems in Hgrng.
    cbn [foldl] in Hgrng. rewrite map_to_list_empty in Hgrng.
    apply Permutation_nil_r in Hgrng. unfold groupItems. cbn [foldl].
    by rewrite Hgrng.
  - intros Hknown. apply groupResults_total. intros t out agg Hin.
    rewrite (Hfrng t) in Hin. apply elem_of_map_to_list in Hin. eauto.
  - intros Hne out agg Hout Hbad. unfold Process.
    destruct (grng (groupItems s data)) as [|[k gd] groups] eqn:Hgroups.
    + exfalso. destruct data as [|item data]; [done|].
      assert ((getGroupKey s item, itemsOfGroup s (getGroupKey s item) (item :: data))
                ∈ grng (groupItems s (item :: data))) as Hin.
      { rewrite Hgrng. apply elem_of_map_to_list. rewrite groupItems_lookup.
        unfold itemsOfGroup. by rewrite filter_cons_True. }
      rewrite Hgroups in Hin. by apply not_elem_of_nil in Hin.
    + simpl.
      destruct (groupFields_fails (frng 0%nat (Fields s)) gd
                  {[ "_id" := VString k ]} out agg) as (op & Hop & ->); [|done|eauto].
      rewrite (Hfrng 0%nat). by apply elem_of_map_to_list.
  - intros Hid Hne res Hres.
    destruct (Process_by_group _ _ _ _ _ Hgrng Hfrng Hres) as (keys & Hnd & Hk & Hall).
    assert (Hnull : ∀ item, getGroupKey s item = "null").
    { intros item. unfold getGroupKey. destruct (GroupID s) eqn:Hg; try done.
      by destruct (Hid s0). }
    assert (keys = ["null"]) as ->.
    { destruct data as [|item0 data']; [done|].
      assert ("null" ∈ keys) as Hin0 by (apply Hk; exists item0; split; [by left|done]).
      assert (∀ k, k ∈ keys → k = "null") as Honly
        by (intros k (item & _ & <-)%Hk; done).
      destruct keys as [|k1 [|k2 keys]].
      - by apply not_elem_of_nil in Hin0.
      - f_equal. apply Honly. by left.
      - apply NoDup_cons in Hnd as [Hnotin _]. destruct Hnotin.
        assert (k1 = "null") as -> by (apply Honly; by left).
        assert (k2 = "null") as -> by (apply Honly; right; by left).
        by left. }
    apply Forall2_cons_inv_l in Hall as (g & rest & [_ Hg] & Hrest & ->).
    apply Forall2_nil_inv_l in Hrest as ->. by exists g.
Qed.

End AggregationMore.

Section ReductionsAndStages.
Context `{GoLib}.

Lemma foldl_numbers {S : Type} (g : S → float → S) (f : string)
    (data : list (gmap string Value)) (st : S) :
  foldl (λ st item, match numericField f item with
                    | Some num => g st num
                    | None => st
                    end) st data
  = foldl g st (numbersOf f data).
Proof.
  unfold numbersOf. revert st; induction data as [|item data IH]; intros st; [done|].
  cbn [foldl omap list_omap]. destruct (numericField f item); cbn [foldl]; apply IH.
Qed.

Lemma extremumLoop_numbers better f data :
  extremumLoop better f data
  = match numbersOf f data with
    | [] => (true, 0%float)
    | x :: xs => (false, extremum better x xs)
    end.
Proof.
  unfold extremumLoop.
  rewrite (foldl_numbers
             (λ st num, if fst st || better num (snd st) then (false, num) else st)).
  destruct (numbersOf f data) as [|x xs]; [done|]. cbn [foldl fst orb].
  unfold extremum. generalize x. induction xs as [|y xs IH]; intros cur; [done|].
  cbn [foldl fst snd orb]. destruct (better y cur); apply IH.
Qed.

Lemma mean_numbers (numbers : list float) (sum : float) (count : Z) :
  foldl (λ st num, (PrimFloat.add (fst st) num, snd st + 1)) (sum, count) numbers
  = (foldl PrimFloat.add sum numbers, count + Z.of_nat (length numbers)).
Proof.
  revert sum count; induction numbers as [|x xs IH]; intros sum count.
  - simpl. f_equal. lia.
  - cbn [foldl fst snd length]. rewrite IH. f_equal. lia.
Qed.

Lemma extremum_elem better x xs : extremum better x xs ∈ x :: xs.
Proof.
  unfold extremum. revert x; induction xs as [|y xs IH]; intros x; simpl.
  - by left.
  - destruct (better y x).
    + right. apply IH.
    + specialize (IH x). apply elem_of_cons in IH as [->|?]; [by left|].
      right. by right.
Qed.

(** X19.  The numeric reductions see only the numbers: with [numbers] the
    values of the field that are present and parse, in input order, [sum]
    is their float64 sum from 0; [avg] is that sum divided by their number,
    and the integer 0 when there is none; [max] and [min] are [nil] when
    there is none and otherwise one of the numbers, the one that remains
    when each later number replaces the current one if it is strictly
    greater (smaller). *)
Theorem reductions_over_numbers (data : list (gmap string Value)) (f : string) :
  let numbers := numbersOf f data in
  calculateAggregation data {| Operation := "sum"; AggField := f |}
    = inl (VFloat (foldl PrimFloat.add 0%float numbers)) ∧
  calculateAggregation data {| Operation := "avg"; AggField := f |}
    = inl (match numbers with
           | [] => VInt 0
           | _ => VFloat (PrimFloat.div (foldl PrimFloat.add 0%float numbers)
                            (PrimFloat.of_uint63
                               (Uint63.of_Z (Z.of_nat (length numbers)))))
           end) ∧
  calculateAggregation data {| Operation := "max"; AggField := f |}
    = inl (match numbers with
           | [] => VNil
           | x :: xs => VFloat (extremum (λ num cur, PrimFloat.ltb cur num) x xs)
           end) ∧
  calculateAggregation data {| Operation := "min"; AggField := f |}
    = inl (match numbers with
           | [] => VNil
           | x :: xs => VFloat (extremum (λ num cur, PrimFloat.ltb num cur) x xs)
           end) ∧
  (∀ value,
     calculateAggregation data {| Operation := "max"; AggField := f |} = inl value ∨
     calculateAggregation data {| Operation := "min"; AggField := f |} = inl value →
     value = VNil ∧ numbers = [] ∨ ∃ x, value = VFloat x ∧ x ∈ numbers).
Proof.
  intros numbers.
  assert (Hsum : calculateAggregation data {| Operation := "sum"; AggField := f |}
                 = inl (VFloat (foldl PrimFloat.add 0%float numbers))).
  { unfold calculateAggregation, sumLoop. cbn [Operation AggField].
    change (String.eqb "sum" "count") with false.
    change (String.eqb "sum" "sum") with true. cbv iota.
    by rewrite (foldl_numbers PrimFloat.add). }
  assert (Havg : calculateAggregation data {| Operation := "avg"; AggField := f |}
                 = inl (match numbers with
                        | [] => VInt 0
                        | _ => VFloat (PrimFloat.div (foldl PrimFloat.add 0%float numbers)
                                         (PrimFloat.of_uint63
                                            (Uint63.of_Z (Z.of_nat (length numbers)))))
                        end)).
  { unfold calculateAggregation. cbn [Operation AggField].
    change (String.eqb "avg" "count") with false.
    change (String.eqb "avg" "sum") with false.
    change (String.eqb "avg" "avg") with true. cbv iota zeta.
    rewrite (foldl_numbers (λ st num, (PrimFloat.add (fst st) num, snd st + 1))).
    rewrite mean_numbers. cbn [fst snd]. fold numbers.
    destruct numbers as [|x xs]; [done|].
    rewrite Z.add_0_l.
    destruct (Z.gtb_spec (Z.of_nat (length (x :: xs))) 0) as [_|Hle]; [done|].
    cbn [length] in Hle. lia. }
  assert (Hmax : calculateAggregation data {| Operation := "max"; AggField := f |}
                 = inl (match numbers with
                        | [] => VNil
                        | x :: xs =>
                            VFloat (extremum (λ num cur, PrimFloat.ltb cur num) x xs)
                        end)).
  { unfold calculateAggregation. cbn [Operation AggField].
    change (String.eqb "max" "count") with false.
    change (String.eqb "max" "sum") with false.
    change (String.eqb "max" "avg") with false.
    change (String.eqb "max" "max") with true. cbv iota zeta.
    rewrite extremumLoop_numbers. fold numbers. by destruct numbers. }
  assert (Hmin : calculateAggregation data {| Operation := "min"; AggField := f |}
                 = inl (match numbers with
                        | [] => VNil
                        | x :: xs =>
                            VFloat (extremum (λ num cur, PrimFloat.ltb num cur) x xs)
                        end)).
  { unfold calculateAggregation. cbn [Operation AggField].
    change (String.eqb "min" "count") with false.
    change (String.eqb "min" "sum") with false.
    change (String.eqb "min" "avg") with false.
    change (String.eqb "min" "max") with false.
    change (String.eqb "min" "min") with true. cbv iota zeta.
    rewrite extremumLoop_numbers. fold numbers. by destruct numbers. }
  repeat split; try done.
  intros value. rewrite Hmax, Hmin.
  destruct numbers as [|x xs].
  - intros [[= <-]|[= <-]]; by left.
  - intros [[= <-]|[= <-]]; right; eexists; (split; [done|]); apply extremum_elem.
Qed.

Lemma matchStageAll_passes s item : matchStageAll item (Filters s) = passes s item.
Proof.
  unfold passes. induction (Filters s) as [|flt fs IH]; [done|].
  simpl. by destruct (matchStageFilter item flt).
Qed.

Lemma MatchProcess_filter s data :
  MatchProcess s data = inl (filter (λ item, passes s item = true) data).
Proof.
  unfold MatchProcess. f_equal.
  enough (Hacc : ∀ acc,
    foldl (λ result item,
             if matchStageAll item (Filters s) then result ++ [item] else result)
          acc data
    = acc ++ filter (λ item, passes s item = true) data)
    by apply (Hacc []).
  induction data as [|item data IH]; intros acc; simpl.
  - by rewrite app_nil_r.
  - rewrite IH, filter_cons, matchStageAll_passes.
    destruct (passes s item) eqn:Hp.
    + rewrite decide_True by done. by rewrite <- app_assoc.
    + by rewrite decide_False by done.
Qed.

(** X20.  The match stage keeps, in input order, the items that pass every
    filter, and never fails.  On [$eq], [$gt] and [$lt] a filter decides as
    the query builder does on a document with the item as data; on every
    other operator, those of the query builder included, it rejects every
    item, so a stage with such a filter returns nothing. *)
Theorem MatchStage_contract (s : MatchStage) (data : list (gmap string Value)) :
  MatchProcess s data = inl (filter (λ item, passes s item = true) data) ∧
  (∀ item flt, FOperator flt ∈ matchStageOperators →
     matchStageFilter item flt = matchesFilter (itemAsDocument item) flt) ∧
  (∀ item flt, FOperator flt ∉ matchStageOperators → matchStageFilter item flt = false) ∧
  (∀ flt, flt ∈ Filters s → FOperator flt ∉ matchStageOperators →
     MatchProcess s data = inl []) ∧
  (Filters s = [] → MatchProcess s data = inl data).
Proof.
  assert (Hother : ∀ item flt, FOperator flt ∉ matchStageOperators →
                               matchStageFilter item flt = false).
  { intros item flt. unfold matchStageOperators. rewrite !not_elem_of_cons.
    intros (? & ? & ? & _). unfold matchStageFilter.
    destruct (String.eqb_spec (FOperator flt) OpEqual); [done|].
    destruct (String.eqb_spec (FOperator flt) OpGreaterThan); [done|].
    by destruct (String.eqb_spec (FOperator flt) OpLessThan). }
  split; [apply MatchProcess_filter|]. split; [|split; [done|split]].
  - intros item flt. unfold matchStageOperators. rewrite !elem_of_cons.
    unfold matchStageFilter, matchesFilter, itemAsDocument. cbn [Data].
    intros [->|[->|[->|?%not_elem_of_nil]]]; done.
  - intros flt Hin Hop. rewrite MatchProcess_filter. f_equal.
    induction data as [|item data IH]; [done|].
    rewrite filter_cons, decide_False; [done|].
    unfold passes. intros Hall. rewrite forallb_forall in Hall.
    apply list_elem_of_In in Hin. apply Hall in Hin.
    by rewrite Hother in Hin.
  - intros Hnil. rewrite MatchProcess_filter. f_equal. unfold passes. rewrite Hnil.
    induction data as [|item data IH]; [done|].
    rewrite filter_cons, decide_True by done. by rewrite IH.
Qed.

Lemma runPipeline_app ords p q turn data :
  runPipeline ords (p ++ q) turn data
  = match runPipeline ords p turn data with
    | inl data' => runPipeline ords q (turn + length p) data'
    | inr err => inr err
    end.
Proof.
  revert turn data; induction p as [|stage p IH]; intros turn data; simpl.
  - by rewrite Nat.add_0_r.
  - destruct (stageProcess (ords turn) stage data) as [data'|err]; [|done].
    rewrite IH. by rewrite Nat.add_succ_comm.
Qed.

Lemma Aggregate_items rng ords c :
  Aggregate rng ords c [] = inl (documentItem <$> (snd <$> rng (Documents c))).
Proof.
  unfold Aggregate. simpl. f_equal.
  enough (Hacc : ∀ acc,
    foldl (λ data kd, data ++ [documentItem (snd kd)]) acc (rng (Documents c))
    = acc ++ (documentItem <$> (snd <$> rng (Documents c))))
    by apply (Hacc []).
  induction (rng (Documents c)) as [|kd l IH]; intros acc; simpl.
  - by rewrite app_nil_r.
  - rewrite IH. by rewrite <- app_assoc.
Qed.

(** X21.  [Aggregate] feeds the pipeline one item per stored document; the
    item holds the data of the document and, under [_id], [created_at] and
    [updated_at], the id and the two times of the document unless the data
    has such a key, which then wins.  A pipeline runs stage after stage: a
    stage appended to a pipeline processes what the pipeline returns, and
    the error of the pipeline is the error of the longer one. *)
Theorem Aggregate_contract (rng : Range Document) (ords : nat → StageOrders)
    (c : Collection) :
  go_range rng (Documents c) →
  (∃ items, Aggregate rng ords c [] = inl items ∧
            items ≡ₚ documentItem <$> (snd <$> map_to_list (Documents c)) ∧
            length items = size (Documents c)) ∧
  (∀ doc k v, Data doc !! k = Some v → documentItem doc !! k = Some v) ∧
  (∀ doc, Data doc !! "_id" = None →
          documentItem doc !! "_id" = Some (VString (ID doc))) ∧
  (∀ doc, Data doc !! "created_at" = None →
          documentItem doc !! "created_at" = Some (VTime (CreatedAt doc))) ∧
  (∀ doc, Data doc !! "updated_at" = None →
          documentItem doc !! "updated_at" = Some (VTime (UpdatedAt doc))) ∧
  (∀ doc k, Data doc !! k = None → k ∉ ["_id"; "created_at"; "updated_at"] →
            documentItem doc !! k = None) ∧
  (∀ pipeline stage,
     Aggregate rng ords c (pipeline ++ [stage])
     = match Aggregate rng ords c pipeline with
       | inl data => stageProcess (ords (length pipeline)) stage data
       | inr err => inr err
       end).
Proof.
  intros Hrng. split; [|repeat split].
  - eexists. split; [apply Aggregate_items|]. split.
    + by rewrite Hrng.
    + rewrite !length_fmap, Hrng. apply length_map_to_list.
  - intros doc k v Hk. unfold documentItem. by apply lookup_union_Some_l.
  - intros doc Hk. unfold documentItem. rewrite lookup_union_r by done.
    by rewrite lookup_insert_eq.
  - intros doc Hk. unfold documentItem. rewrite lookup_union_r by done.
    rewrite lookup_insert_ne by done. by rewrite lookup_insert_eq.
  - intros doc Hk. unfold documentItem. rewrite lookup_union_r by done.
    rewrite !lookup_insert_ne by done. by rewrite lookup_singleton_eq.
  - intros doc k Hk. rewrite !not_elem_of_cons. intros (? & ? & ? & _).
    unfold documentItem. rewrite lookup_union_r by done.
    rewrite !lookup_insert_ne by done. by rewrite lookup_singleton_ne.
  - intros pipeline stage. unfold Aggregate. rewrite runPipeline_app.
    destruct (runPipeline ords pipeline 0 _) as [data|err]; [|done].
    simpl. by destruct (stageProcess _ stage data).
Qed.

End ReductionsAndStages.

(** ** Compaction and import *)

Section CompactionAndImport.
Context `{GoLib}.



(** X23.  The prelude of [ImportData].  A missing collection without the
    create flag gives the not-found error and leaves the database as it
    was; with the flag the empty collection is created and no error is
    returned, so the two errors of the create branch never occur.  An
    existing collection is kept as it is, or, with the overwrite flag, with
    an empty document map and its indexes unchanged.  No other collection,
    nor the name and path of the database, changes. *)
Theorem ImportDataPrelude_cases (options : ImportOptions) (db : Database) :
  let name := TargetCollection options in
  let r := ImportDataPrelude options db in
  (Collections db !! name = None → CreateIfMissing options = false →
     r = (db, Some (ImportCollectionNotFound (CollectionNotFound name)))) ∧
  (Collections db !! name = None → CreateIfMissing options = true →
     snd r = None ∧ Collections (fst r) !! name = Some (newCollection name)) ∧
  (∀ c, Collections db !! name = Some c →
     snd r = None ∧
     Collections (fst r) !! name
     = Some (if OverwriteData options then setDocuments ∅ c else c)) ∧
  (∀ other, other ≠ name → Collections (fst r) !! other = Collections db !! other) ∧
  DBName (fst r) = DBName db ∧ Path (fst r) = Path db ∧
  (snd r = None ∨
   snd r = Some (ImportCollectionNotFound (CollectionNotFound name))).
Proof.
  intros name r. subst r. unfold ImportDataPrelude, GetCollection, CreateCollection.
  fold name.
  destruct (Collections db !! name) as [c|] eqn:Hc;
    [|destruct (CreateIfMissing options) eqn:Hcreate];
    cbn [Collections]; rewrite ?lookup_insert_eq;
    destruct (OverwriteData options) eqn:Hover;
    cbn [fst snd Collections DBName Path];
    (split; [|split; [|split; [|split; [|split; [|split]]]]]);
    try done; try (by left); try (by right);
    try (intros c' [= <-]; split; [done|]; by rewrite ?lookup_alter_eq, ?Hc);
    try (intros other Hne; by rewrite ?lookup_alter_ne, ?lookup_insert_ne by done);
    try (intros _ _; split; [done|];
         by rewrite ?lookup_alter_eq, ?lookup_insert_eq).
Qed.

(** What one counted insertion does to the collection and to the counts. *)
Lemma insertCounted_step tick docID docData c r :
  let st := insertCounted tick docID docData (c, r) in
  Imported (snd st) + Skipped (snd st) = Imported r + Skipped r + 1 ∧
  Imported r ≤ Imported (snd st) ∧ Skipped r ≤ Skipped (snd st) ∧
  Z.of_nat (length (Errors (snd st))) - Skipped (snd st)
    = Z.of_nat (length (Errors r)) - Skipped r ∧
  Z.of_nat (size (Documents (fst st))) - Imported (snd st)
    = Z.of_nat (size (Documents c)) - Imported r ∧
  (∀ id d, Documents c !! id = Some d → Documents (fst st) !! id = Some d) ∧
  dom (Indexes (fst st)) = dom (Indexes c) ∧
  (ids_coherent c ∧ index_consistent c →
   ids_coherent (fst st) ∧ index_consistent (fst st)).
Proof.
  intros st. subst st. unfold insertCounted. cbn [fst snd].
  pose proof (Insert_preserves (created tick) (updated tick) docID docData c) as Hinv.
  revert Hinv. unfold Insert.
  destruct (Documents c !! docID) as [d0|] eqn:Hid; cbn [fst snd Imported Skipped Errors].
  - intros Hinv. rewrite length_app. cbn [length]. split_and!; try done; lia.
  - intros Hinv. change (Documents (updateIndexes ?d ?c')) with (Documents c').
    cbn [setDocuments Documents]. rewrite map_size_insert_None by done.
    split_and!; try done; try lia.
    + intros id d Hd. rewrite lookup_insert_ne; [done|]. intros <-. by rewrite Hid in Hd.
    + apply set_eq. intros f. rewrite !elem_of_dom, updateIndexes_lookup.
      cbn [setDocuments Indexes]. by rewrite fmap_is_Some.
Qed.

Lemma importDocuments_accounting idField clock i documents c r :
  let st := importDocuments idField clock i documents (c, r) in
  Imported (snd st) + Skipped (snd st)
    = Imported r + Skipped r + Z.of_nat (length documents) ∧
  Imported r ≤ Imported (snd st) ∧ Skipped r ≤ Skipped (snd st) ∧
  Z.of_nat (length (Errors (snd st))) - Skipped (snd st)
    = Z.of_nat (length (Errors r)) - Skipped r ∧
  Z.of_nat (size (Documents (fst st))) - Imported (snd st)
    = Z.of_nat (size (Documents c)) - Imported r ∧
  (∀ id d, Documents c !! id = Some d → Documents (fst st) !! id = Some d) ∧
  dom (Indexes (fst st)) = dom (Indexes c) ∧
  (ids_coherent c ∧ index_consistent c →
   ids_coherent (fst st) ∧ index_consistent (fst st)).
Proof.
  revert i c r; induction documents as [|docData rest IH]; intros i c r.
  - cbn [importDocuments fst snd length]. split_and!; try done; lia.
  - cbn [importDocuments length].
    destruct (jsonDocument idField (clock i) i docData) as [docID data].
    pose proof (insertCounted_step (clock i) docID data c r) as Hstep.
    destruct (insertCounted (clock i) docID data (c, r)) as [c1 r1].
    cbn [fst snd] in Hstep.
    destruct Hstep as (Hs1 & Hs2 & Hs3 & Hs4 & Hs5 & Hs6 & Hs7 & Hs8).
    specialize (IH (S i) c1 r1). cbv zeta in IH.
    destruct IH as (H1 & H2 & H3 & H4 & H5 & H6 & H7 & H8).
    cbv zeta. split_and!; try lia.
    + intros id d Hd. by apply H6, Hs6.
    + by rewrite H7.
    + intros Hinv. by apply H8, Hs8.
Qed.

Lemma parse_array (items : list Value) :
  parseJsonData (VSlice items) = inl (omap asObject items).
Proof.
  unfold parseJsonData. f_equal.
  enough (Hacc : ∀ acc,
    foldl (λ documents item,
             match item with
             | VMap doc => documents ++ [objectOf doc]
             | _ => documents
             end) acc items
    = acc ++ omap asObject items) by apply (Hacc []).
  induction items as [|item items IH]; intros acc.
  - by rewrite app_nil_r.
  - cbn [foldl omap list_omap]. rewrite IH.
    destruct item; cbn [asObject]; try done. by rewrite <- app_assoc.
Qed.

Lemma parse_documents (docs : list Value) :
  parseDocumentsArray (VSlice docs) = inl (omap exportedData docs).
Proof.
  unfold parseDocumentsArray. f_equal.
  enough (Hacc : ∀ acc,
    foldl (λ result doc,
             match doc with
             | VMap docMap =>
                 match objectOf docMap !! "data" with
                 | Some (VMap dataMap) => result ++ [objectOf dataMap]
                 | Some _ => result
                 | None => result ++ [objectOf docMap]
                 end
             | _ => result
             end) acc docs
    = acc ++ omap exportedData docs) by apply (Hacc []).
  induction docs as [|doc docs IH]; intros acc.
  - by rewrite app_nil_r.
  - cbn [foldl omap list_omap]. rewrite IH.
    destruct doc as [| | | | | | |docMap|]; cbn [exportedData]; try done.
    destruct (objectOf docMap !! "data") as [data|]; cbn [asObject].
    + destruct data; cbn [asObject]; try done. by rewrite <- app_assoc.
    + by rewrite <- app_assoc.
Qed.

(** X24.  The accounts of a JSON import.  When the decoded content gives a
    list of documents, every one of them is either imported or skipped, a
    skipped one leaves exactly one error message, the collection grows by
    the number imported, no document that was stored is changed, the
    indexed fields stay the same and the index invariant is kept.  When the
    content gives none, the collection is unchanged and the error wraps the
    one of the parser. *)
Theorem importJSON_accounts (options : ImportOptions) (clock : nat → Tick)
    (jsonData : Value) (c : Collection) :
  match parseJsonData jsonData with
  | inl documents =>
      ∃ c' r, importJSONDecoded options clock jsonData c = (c', inl r) ∧
        Imported r + Skipped r = Z.of_nat (length documents) ∧
        0 ≤ Imported r ∧ 0 ≤ Skipped r ∧
        Z.of_nat (length (Errors r)) = Skipped r ∧
        Z.of_nat (size (Documents c')) = Z.of_nat (size (Documents c)) + Imported r ∧
        (∀ id d, Documents c !! id = Some d → Documents c' !! id = Some d) ∧
        dom (Indexes c') = dom (Indexes c) ∧
        (ids_coherent c ∧ index_consistent c → ids_coherent c' ∧ index_consistent c')
  | inr err =>
      importJSONDecoded options clock jsonData c = (c, inr (FailedToParseJSONData err))
  end.
Proof.
  unfold importJSONDecoded.
  destruct (parseJsonData jsonData) as [documents|err]; [|done].
  pose proof (importDocuments_accounting (IDField options) clock 0 documents c newResult)
    as Hacc.
  destruct (importDocuments (IDField options) clock 0 documents (c, newResult))
    as [c' r].
  cbn [fst snd newResult Imported Skipped Errors length] in Hacc.
  destruct Hacc as (H1 & H2 & H3 & H4 & H5 & H6 & H7 & H8).
  exists c', r. cbn [fst snd]. split_and!; try done; lia.
Qed.

(** X25.  Which documents a decoded JSON content gives.  An array gives its
    elements that are objects, in order, and drops the others without a
    trace; an object without the key [documents] is one document; an object
    with an array under [documents] gives, for each element that is an
    object, the object under its key [data], or the element itself when it
    has no such key, and drops the elements whose [data] is not an object;
    an object with anything else under [documents] is an error, and so is
    content that is neither an object nor an array.  In no case are there
    more documents than elements. *)
Theorem parseJsonData_shapes :
  (∀ items, parseJsonData (VSlice items) = inl (omap asObject items) ∧
            (length (omap asObject items) ≤ length items)%nat) ∧
  (∀ data, objectOf data !! "documents" = None →
           parseJsonData (VMap data) = inl [objectOf data]) ∧
  (∀ data docs, objectOf data !! "documents" = Some (VSlice docs) →
                parseJsonData (VMap data) = inl (omap exportedData docs) ∧
                (length (omap exportedData docs) ≤ length docs)%nat) ∧
  (∀ data other, objectOf data !! "documents" = Some other →
                 (∀ docs, other ≠ VSlice docs) →
                 parseJsonData (VMap data) = inr DocumentsNotAnArray) ∧
  (∀ jsonData, (∀ data, jsonData ≠ VMap data) → (∀ items, jsonData ≠ VSlice items) →
               parseJsonData jsonData = inr UnsupportedJSONFormat).
Proof.
  assert (Hlen : ∀ {A B} (f : A → option B) (l : list A),
                   (length (omap f l) ≤ length l)%nat).
  { intros A B f l. induction l as [|x l IH]; [done|].
    cbn [omap list_omap]. destruct (f x); cbn [length]; lia. }
  split; [|split; [|split; [|split]]].
  - intros items. split; [apply parse_array|apply Hlen].
  - intros data Hno. unfold parseJsonData. by rewrite Hno.
  - intros data docs Hdocs. split; [|apply Hlen].
    unfold parseJsonData. rewrite Hdocs. apply parse_documents.
  - intros data other Hother Hno. unfold parseJsonData. rewrite Hother.
    destruct other as [| | | | | |docs| |]; try done. by destruct (Hno docs).
  - intros jsonData Hmap Hslice.
    destruct jsonData as [| | | | | |items|data|]; try done.
    + by destruct (Hslice items).
    + by destruct (Hmap data).
Qed.

End CompactionAndImport.

(** ** The CSV export and import *)

Section CSVFacts.
Context `{GoLib}.
Variable FormatRFC3339 : Time → string.
Variable int64OfFloat : float → Z.

Lemma isReserved_spec f : isReserved f = true ↔ f ∈ reservedHeaders.
Proof.
  unfold isReserved, reservedHeaders. rewrite !elem_of_cons, !orb_true_iff.
  destruct (String.eqb_spec f "_id"), (String.eqb_spec f "created_at"),
    (String.eqb_spec f "updated_at"); split; try tauto; try done.
  - intros [[?|?]|?]; done.
  - intros [?|[?|[?|?%not_elem_of_nil]]]; done.
Qed.

Lemma fieldSet_is_Some documents f :
  is_Some (fieldSet documents !! f) ↔
  isReserved f = true ∨ ∃ d, d ∈ documents ∧ is_Some (Data d !! f).
Proof.
  unfold fieldSet.
  enough (Hacc : ∀ init : gmap string bool,
    is_Some (foldl (λ fields doc, ((λ _, true) <$> Data doc) ∪ fields) init documents !! f)
    ↔ is_Some (init !! f) ∨ ∃ d, d ∈ documents ∧ is_Some (Data d !! f)).
  { rewrite Hacc. apply or_iff_compat_r. rewrite isReserved_spec.
    unfold reservedHeaders. rewrite !elem_of_cons.
    destruct (decide (f = "_id")) as [->|?]; [by split; [left|eexists]|].
    rewrite lookup_insert_ne by done.
    destruct (decide (f = "created_at")) as [->|?];
      [by split; [right; left|eexists]|].
    rewrite lookup_insert_ne by done.
    destruct (decide (f = "updated_at")) as [->|?];
      [by split; [right; right; left|eexists]|].
    rewrite lookup_singleton_ne by done. split; [by intros [? ?]|].
    intros [?|[?|[?|?%not_elem_of_nil]]]; done. }
  induction documents as [|doc documents IH]; intros init.
  - simpl. split; [by left|]. intros [?|(d & ?%not_elem_of_nil & _)]; done.
  - cbn [foldl]. rewrite IH, lookup_union_is_Some, lookup_fmap, fmap_is_Some.
    split.
    + intros [[Hd|Hi]|(d & Hin & Hd)].
      * right. exists doc. split; [by left|done].
      * by left.
      * right. exists d. split; [by right|done].
    + intros [Hi|(d & [->|Hin]%elem_of_cons & Hd)].
      * left. by right.
      * left. by left.
      * right. eauto.
Qed.

Lemma csvHeaders_fields rng documents :
  csvHeaders rng documents = reservedHeaders ++ exportedFields rng documents.
Proof.
  unfold csvHeaders, exportedFields.
  generalize (rng (fieldSet documents)) as kvs. intros kvs.
  change ["_id"; "created_at"; "updated_at"] with reservedHeaders.
  generalize reservedHeaders as acc. induction kvs as [|kv kvs IH]; intros acc.
  - simpl. by rewrite app_nil_r.
  - cbn [foldl fmap list_fmap]. rewrite IH, filter_cons.
    destruct (isReserved (fst kv)); cbn [negb].
    + by rewrite decide_False by done.
    + rewrite decide_True by done. by rewrite <- app_assoc.
Qed.

Lemma csvRow_cells fields doc :
  csvRow FormatRFC3339 (reservedHeaders ++ fields) doc
  = [ID doc; FormatRFC3339 (CreatedAt doc); FormatRFC3339 (UpdatedAt doc)]
    ++ (cellOf doc <$> fields).
Proof.
  unfold csvRow. change (drop 3 (reservedHeaders ++ fields)) with fields.
  generalize [ID doc; FormatRFC3339 (CreatedAt doc); FormatRFC3339 (UpdatedAt doc)].
  induction fields as [|f fields IH]; intros acc.
  - simpl. by rewrite app_nil_r.
  - cbn [foldl fmap list_fmap].
    replace (match Data doc !! f with
             | Some value => acc ++ [Sprint value]
             | None => acc ++ [""]
             end) with (acc ++ [cellOf doc f])
      by (unfold cellOf; by destruct (Data doc !! f)).
    rewrite IH. by rewrite <- app_assoc.
Qed.

Lemma csvRows_map fields docs acc :
  foldl (λ rows d, rows ++ [csvRow FormatRFC3339 (reservedHeaders ++ fields) d])
        acc docs
  = acc ++ ((λ d, [ID d; FormatRFC3339 (CreatedAt d); FormatRFC3339 (UpdatedAt d)]
                    ++ (cellOf d <$> fields)) <$> docs).
Proof.
  revert acc; induction docs as [|d docs IH]; intros acc.
  - simpl. by rewrite app_nil_r.
  - cbn [foldl fmap list_fmap]. rewrite IH, csvRow_cells. by rewrite <- app_assoc.
Qed.

Lemma exportCSVRecords_rows rng doc documents :
  exportCSVRecords FormatRFC3339 rng (doc :: documents)
  = inl ((reservedHeaders ++ exportedFields rng (doc :: documents))
           :: ((λ d, [ID d; FormatRFC3339 (CreatedAt d); FormatRFC3339 (UpdatedAt d)]
                       ++ (cellOf d <$> exportedFields rng (doc :: documents)))
                 <$> (doc :: documents))).
Proof.
  unfold exportCSVRecords. cbv zeta. rewrite csvHeaders_fields. do 2 f_equal.
  exact (csvRows_map (exportedFields rng (doc :: documents)) (doc :: documents) []).
Qed.

Lemma exportedFields_spec rng docs :
  go_range rng (fieldSet docs) →
  ∀ f, f ∈ exportedFields rng docs ↔
       isReserved f = false ∧ ∃ d, d ∈ docs ∧ is_Some (Data d !! f).
Proof.
  intros Hrng f. unfold exportedFields. rewrite list_elem_of_filter, Hrng.
  split.
  - intros [Hres ([f' b] & -> & Hin)%list_elem_of_fmap]. split; [done|].
    apply elem_of_map_to_list in Hin. simpl in *.
    assert (is_Some (fieldSet docs !! f')) as Hs by (by eexists).
    apply fieldSet_is_Some in Hs as [Hr|Hd]; [by rewrite Hr in Hres|done].
  - intros [Hres Hd]. split; [done|].
    assert (is_Some (fieldSet docs !! f)) as [b Hb]
      by (apply fieldSet_is_Some; by right).
    apply list_elem_of_fmap. exists (f, b). split; [done|].
    by apply elem_of_map_to_list.
Qed.

(** X26.  The table that [exportCSV] writes.  Without documents it fails.
    Otherwise the header is [_id], [created_at], [updated_at] followed by
    every other field name that occurs in the data of some document, each
    once; there is one row per document, in order, as long as the header;
    the row holds the id, the two times and, under each field, the
    rendering of the value or the empty text when the document lacks the
    field.  A data field named like a reserved column is not exported. *)
Theorem exportCSV_table (rng : Range bool) (documents : list Document) :
  go_range rng (fieldSet documents) →
  match exportCSVRecords FormatRFC3339 rng documents with
  | inr _ => documents = []
  | inl records =>
      ∃ fields,
        records
        = (reservedHeaders ++ fields)
            :: ((λ d, [ID d; FormatRFC3339 (CreatedAt d); FormatRFC3339 (UpdatedAt d)]
                        ++ (cellOf d <$> fields)) <$> documents) ∧
        documents ≠ [] ∧
        NoDup (reservedHeaders ++ fields) ∧
        (∀ f, f ∈ fields ↔
              isReserved f = false ∧ ∃ d, d ∈ documents ∧ is_Some (Data d !! f)) ∧
        Forall (λ record, length record = length (reservedHeaders ++ fields)) records
  end.
Proof.
  intros Hrng. destruct documents as [|doc documents]; [done|].
  rewrite exportCSVRecords_rows.
  set (docs := doc :: documents) in *.
  exists (exportedFields rng docs).
  pose proof (exportedFields_spec rng docs Hrng) as Hfields.
  assert (Hnd : NoDup (reservedHeaders ++ exportedFields rng docs)).
  { apply NoDup_app. split; [|split].
    - unfold reservedHeaders. repeat (apply NoDup_cons; split);
        rewrite ?not_elem_of_cons; try (repeat split; try done; apply not_elem_of_nil).
      apply NoDup_nil_2.
    - intros f Hr%isReserved_spec [Hno _]%Hfields. by rewrite Hr in Hno.
    - unfold exportedFields. apply NoDup_filter. rewrite Hrng.
      apply NoDup_fst_map_to_list. }
  split; [done|]. split; [done|]. split; [done|]. split; [done|].
  constructor; [done|]. apply Forall_fmap, Forall_forall. intros d _.
  unfold compose. rewrite !length_app, length_fmap. done.
Qed.

Lemma accounted_refl st : accounted 0 st st.
Proof. unfold accounted. split_and!; try done; lia. Qed.

Lemma accounted_trans n m a b c :
  accounted n a b → accounted m b c → accounted (n + m) a c.
Proof.
  unfold accounted.
  intros (A1 & A2 & A3 & A4 & A5 & A6 & A7 & A8) (B1 & B2 & B3 & B4 & B5 & B6 & B7 & B8).
  split_and!; try lia.
  - intros id d Hd. by apply B6, A6.
  - by rewrite B7.
  - intros Hinv. by apply B8, A8.
Qed.

Lemma insertCounted_accounted tick docID docData st :
  accounted 1 st (insertCounted tick docID docData st).
Proof. destruct st as [c r]. exact (insertCounted_step tick docID docData c r). Qed.

Lemma mismatch_accounted rowIndex st : accounted 1 st (mismatch rowIndex st).
Proof.
  unfold accounted, mismatch. cbn [fst snd Imported Skipped Errors].
  rewrite length_app. cbn [length]. split_and!; try done; lia.
Qed.

Lemma importRow_accounted idColumn headers tick rowIndex record st :
  accounted 1 st (importRow int64OfFloat idColumn headers tick rowIndex record st).
Proof.
  unfold importRow. destruct (negb _); [apply mismatch_accounted|].
  destruct (recordLoop _ _ _ _ _ _) as [docData docID].
  apply insertCounted_accounted.
Qed.

Lemma importContentRow_accounted headers tick rowIndex record st :
  accounted 1 st (importContentRow int64OfFloat headers tick rowIndex record st).
Proof.
  unfold importContentRow. destruct (negb _); [apply mismatch_accounted|].
  destruct (contentRecordLoop _ _ _ _) as [docData docID].
  apply insertCounted_accounted.
Qed.

Lemma importRows_accounted row i rows st :
  (∀ i record st, accounted 1 st (row i record st)) →
  accounted (Z.of_nat (length rows)) st (importRows row i rows st).
Proof.
  intros Hrow. revert i st; induction rows as [|record rows IH]; intros i st.
  - apply accounted_refl.
  - cbn [importRows length].
    replace (Z.of_nat (S (length rows))) with (1 + Z.of_nat (length rows)) by lia.
    eapply accounted_trans; [apply Hrow|apply IH].
Qed.

Lemma importRows_mismatches row (headers : list string) i rows st :
  (∀ i record st, accounted 1 st (row i record st)) →
  (∀ i record st, length record ≠ length headers → row i record st = mismatch i st) →
  Skipped (snd st)
  + Z.of_nat (length (filter (λ record : list string,
                                length record ≠ length headers) rows))
  ≤ Skipped (snd (importRows row i rows st)).
Proof.
  intros Hrow Hmis. revert i st; induction rows as [|record rows IH]; intros i st.
  - cbn [importRows filter list_filter length]. lia.
  - cbn [importRows]. rewrite filter_cons. specialize (IH (S i) (row i record st)).
    destruct (decide (length record ≠ length headers)) as [Hne|Heq].
    + rewrite (Hmis i record st Hne) in *. cbn [length].
      unfold mismatch in IH at 1. cbn [snd Skipped] in IH. lia.
    + destruct (Hrow i record st) as (_ & _ & Hle & _). lia.
Qed.

(** X27.  The accounts of a CSV import, for the reader of a file and the
    reader of a content alike.  With fewer than two records it fails and
    leaves the collection as it was.  Otherwise every data row is either
    imported or skipped, the rows whose length is not that of the header
    are among the skipped, a skipped row leaves exactly one message, the
    collection grows by the number imported, no stored document changes,
    the indexed fields stay and the invariant of the indexes is kept. *)
Theorem importCSV_accounts (options : ImportOptions) (clock : nat → Tick)
    (records : list (list string)) (c : Collection) :
  let accounts := λ result : Collection * (ImportResult + importError),
    match records with
    | headers :: ((_ :: _) as rows) =>
        ∃ c' r, result = (c', inl r) ∧
          Imported r + Skipped r = Z.of_nat (length rows) ∧
          0 ≤ Imported r ∧
          Z.of_nat (length (filter (λ record : list string,
                                      length record ≠ length headers) rows))
            ≤ Skipped r ∧
          Z.of_nat (length (Errors r)) = Skipped r ∧
          Z.of_nat (size (Documents c')) = Z.of_nat (size (Documents c)) + Imported r ∧
          (∀ id d, Documents c !! id = Some d → Documents c' !! id = Some d) ∧
          dom (Indexes c') = dom (Indexes c) ∧
          (ids_coherent c ∧ index_consistent c →
           ids_coherent c' ∧ index_consistent c')
    | _ => result = (c, inr TooFewRecords)
    end in
  accounts (importCSVRecords int64OfFloat options clock records c) ∧
  accounts (importCSVContentRecords int64OfFloat clock records c).
Proof.
  assert (Hgen : ∀ row (headers : list string) first rest,
    (∀ i record st, accounted 1 st (row i record st)) →
    (∀ i record st, length record ≠ length headers → row i record st = mismatch i st) →
    ∃ c' r,
      (let st := importRows row 0 (first :: rest) (c, newResult) in
       (fst st, inl (snd st) : ImportResult + importError)) = (c', inl r) ∧
      Imported r + Skipped r = Z.of_nat (length (first :: rest)) ∧
      0 ≤ Imported r ∧
      Z.of_nat (length (filter (λ record : list string,
                                  length record ≠ length headers) (first :: rest)))
        ≤ Skipped r ∧
      Z.of_nat (length (Errors r)) = Skipped r ∧
      Z.of_nat (size (Documents c')) = Z.of_nat (size (Documents c)) + Imported r ∧
      (∀ id d, Documents c !! id = Some d → Documents c' !! id = Some d) ∧
      dom (Indexes c') = dom (Indexes c) ∧
      (ids_coherent c ∧ index_consistent c → ids_coherent c' ∧ index_consistent c')).
  { intros row headers first rest Hrow Hmis.
    pose proof (importRows_accounted row 0 (first :: rest) (c, newResult) Hrow) as Hacc.
    pose proof (importRows_mismatches row headers 0 (first :: rest) (c, newResult)
                  Hrow Hmis) as Hskip.
    destruct (importRows row 0 (first :: rest) (c, newResult)) as [c' r].
    unfold accounted in Hacc.
    cbn [fst snd newResult Imported Skipped Errors] in Hacc, Hskip.
    destruct Hacc as (H1 & H2 & H3 & H4 & H5 & H6 & H7 & H8).
    change (length (@nil string)) with 0%nat in H4.
    exists c', r. cbn [fst snd]. split_and!; try done; lia. }
  intros accounts. subst accounts. cbv beta.
  destruct records as [|headers [|first rest]]; [done|done|].
  split.
  - refine (Hgen (λ rowIndex, importRow int64OfFloat
                                (idColumnOf (IDField options) headers) headers
                                (clock rowIndex) rowIndex) headers first rest _ _).
    + intros i record st. apply importRow_accounted.
    + intros i record st Hne. unfold importRow.
      destruct (Nat.eqb_spec (length record) (length headers)); done.
  - refine (Hgen (λ rowIndex, importContentRow int64OfFloat headers
                                (clock rowIndex) rowIndex) headers first rest _ _).
    + intros i record st. apply importContentRow_accounted.
    + intros i record st Hne. unfold importContentRow.
      destruct (Nat.eqb_spec (length record) (length headers)); done.
Qed.

Lemma findIDColumn_range idField headers i :
  findIDColumn idField headers i = -1 ∨ i ≤ findIDColumn idField headers i.
Proof.
  revert i; induction headers as [|h headers IH]; intros i; simpl; [by left|].
  destruct (String.eqb h idField); [right; lia|].
  destruct (IH (i + 1)); [by left|right; lia].
Qed.

Lemma findIDColumn_position idField headers i j h :
  0 ≤ i → NoDup headers → headers !! j = Some h →
  (i + Z.of_nat j =? findIDColumn idField headers i) = String.eqb h idField.
Proof.
  revert i j; induction headers as [|h0 headers IH]; intros i j Hi Hnd Hj; [done|].
  apply NoDup_cons in Hnd as [Hfresh Hnd]. simpl.
  destruct j as [|j]; simpl in Hj.
  - injection Hj as Heq. subst h0.
    destruct (String.eqb_spec h idField) as [Heq|Hne].
    + apply Z.eqb_eq. lia.
    + apply Z.eqb_neq. destruct (findIDColumn_range idField headers (i + 1)); lia.
  - destruct (String.eqb_spec h0 idField) as [Heq|Hne].
    + assert (h ≠ idField) as Hne.
      { intros Hh. apply Hfresh. rewrite Heq, <- Hh. by eapply list_elem_of_lookup_2. }
      destruct (String.eqb_spec h idField); [done|]. apply Z.eqb_neq. lia.
    + rewrite <- (IH (i + 1) j) by (done || lia). f_equal. lia.
Qed.

Lemma recordLoop_data idColumn headers record i st :
  length record = length headers → NoDup headers →
  (∀ h, h ∉ headers →
        fst (recordLoop int64OfFloat idColumn headers record i st) !! h = fst st !! h) ∧
  (∀ k h v, headers !! k = Some h → record !! k = Some v →
     fst (recordLoop int64OfFloat idColumn headers record i st) !! h
     = if (i + Z.of_nat k =? idColumn) || isReserved h then fst st !! h
       else Some (cellValue int64OfFloat v)).
Proof.
  revert record i st; induction headers as [|h0 headers IH];
    intros record i st Hlen Hnd.
  - split; [done|]. by intros k h v ?.
  - destruct record as [|v0 record]; [done|]. injection Hlen as Hlen.
    apply NoDup_cons in Hnd as [Hfresh Hnd]. cbn [recordLoop].
    set (st' := if i =? idColumn then (fst st, v0)
                else if isReserved h0 then
                  if String.eqb h0 "_id" && String.eqb (snd st) "" then (fst st, v0)
                  else st
                else (<[h0 := cellValue int64OfFloat v0]> (fst st), snd st)).
    assert (Hother : ∀ h, h ≠ h0 → fst st' !! h = fst st !! h).
    { intros h Hne. subst st'. destruct (i =? idColumn); [done|].
      destruct (isReserved h0); [by destruct (_ && _)|].
      cbn [fst]. by rewrite lookup_insert_ne. }
    destruct (IH record (i + 1) st' Hlen Hnd) as [IH1 IH2]. split.
    + intros h [Hne Hnot]%not_elem_of_cons. rewrite IH1 by done. by apply Hother.
    + intros [|k] h v Hk Hv; simpl in Hk, Hv.
      * injection Hk as Heq. subst h0. injection Hv as Heq. subst v0.
        rewrite IH1 by done.
        rewrite Z.add_0_r. subst st'. destruct (i =? idColumn); [done|].
        destruct (isReserved h); [by destruct (_ && _)|].
        cbn [fst orb]. by rewrite lookup_insert_eq.
      * rewrite (IH2 k h v Hk Hv).
        replace (i + 1 + Z.of_nat k) with (i + Z.of_nat (S k)) by lia.
        rewrite Hother; [done|]. intros Heq. apply Hfresh. rewrite <- Heq.
        by eapply list_elem_of_lookup_2.
Qed.

Lemma recordLoop_id_kept idColumn headers record i st :
  idColumn < i → snd st ≠ "" →
  snd (recordLoop int64OfFloat idColumn headers record i st) = snd st.
Proof.
  revert record i st; induction headers as [|h0 headers IH]; intros record i st Hi Hid.
  - done.
  - destruct record as [|v0 record]; [done|]. cbn [recordLoop].
    destruct (Z.eqb_spec i idColumn); [lia|].
    destruct (String.eqb_spec (snd st) ""); [done|]. rewrite andb_false_r.
    destruct (isReserved h0); (rewrite IH; [done|lia|done]).
Qed.

Lemma recordLoop_id_column idColumn headers record i st k v :
  length record = length headers →
  i + Z.of_nat k = idColumn → record !! k = Some v → v ≠ "" →
  snd (recordLoop int64OfFloat idColumn headers record i st) = v.
Proof.
  revert record i st k; induction headers as [|h0 headers IH];
    intros record i st k Hlen Hk Hv Hne.
  - destruct record; [done|done].
  - destruct record as [|v0 record]; [done|]. injection Hlen as Hlen.
    cbn [recordLoop]. destruct k as [|k]; simpl in Hv.
    + injection Hv as Heq. subst v0. rewrite Z.add_0_r in Hk. subst idColumn.
      rewrite Z.eqb_refl. rewrite recordLoop_id_kept; [done|lia|done].
    + apply (IH record (i + 1) _ k); [done|lia|done|done].
Qed.

(** X28.  The document that [importCSV] makes of a record as long as a
    header without repeated names.  The data holds, under the header of
    every column other than the id column and the three reserved ones, the
    value of the cell: an integer or a float when the cell parses as a
    number, else a boolean, else the text; it holds nothing else.  A cell
    of the id column that is not empty is the id. *)
Theorem importCSV_record (idField : string) (headers record : list string) :
  length record = length headers → NoDup headers →
  let r := recordLoop int64OfFloat (idColumnOf idField headers) headers record 0 (∅, "") in
  (∀ k h v, headers !! k = Some h → record !! k = Some v →
     fst r !! h
     = if (negb (String.eqb idField "") && String.eqb h idField) || isReserved h
       then None else Some (cellValue int64OfFloat v)) ∧
  (∀ h, h ∉ headers → fst r !! h = None) ∧
  (∀ k v, idField ≠ "" → headers !! k = Some idField → record !! k = Some v →
          v ≠ "" → snd r = v) ∧
  (∀ h value, fst r !! h = Some value →
     match value with
     | VInt64 _ | VFloat _ | VBool _ | VString _ => True
     | _ => False
     end).
Proof.
  intros Hlen Hnd r.
  destruct (recordLoop_data (idColumnOf idField headers) headers record 0 (∅, "")
              Hlen Hnd) as [Hout Hin].
  fold r in Hout, Hin.
  assert (Hcol : ∀ k h, headers !! k = Some h →
            (0 + Z.of_nat k =? idColumnOf idField headers)
            = negb (String.eqb idField "") && String.eqb h idField).
  { intros k h Hk. unfold idColumnOf. destruct (String.eqb idField ""); cbn [negb andb].
    - apply Z.eqb_neq. lia.
    - by apply findIDColumn_position. }
  assert (Hdata : ∀ k h v, headers !! k = Some h → record !! k = Some v →
     fst r !! h
     = if (negb (String.eqb idField "") && String.eqb h idField) || isReserved h
       then None else Some (cellValue int64OfFloat v)).
  { intros k h v Hk Hv. rewrite (Hin k h v Hk Hv), (Hcol k h Hk). cbn [fst].
    by rewrite lookup_empty. }
  split_and!.
  - done.
  - intros h Hh. by rewrite Hout.
  - intros k v Hid Hk Hv Hne. subst r.
    apply (recordLoop_id_column _ _ _ 0 _ k); [done| |done|done].
    pose proof (Hcol k idField Hk) as Hc.
    destruct (String.eqb_spec idField ""); [done|]. rewrite String.eqb_refl in Hc.
    by apply Z.eqb_eq in Hc.
  - intros h value Hval.
    destruct (decide (h ∈ headers)) as [Hh|Hh]; [|by rewrite Hout in Hval].
    apply list_elem_of_lookup_1 in Hh as [k Hk].
    destruct (lookup_lt_is_Some_2 record k) as [v Hv].
    { rewrite Hlen. by eapply lookup_lt_Some. }
    rewrite (Hdata k h v Hk Hv) in Hval.
    destruct (_ || _); [done|]. injection Hval as <-. unfold cellValue.
    destruct (ParseFloat v) as [x|]; [by destruct (PrimFloat.eqb _ _)|].
    by destruct (ParseBool v).
Qed.

Lemma recordLoop_fields fields (g : string → string) i m id :
  Forall (λ f, isReserved f = false) fields → 0 ≤ i →
  recordLoop int64OfFloat (-1) fields (g <$> fields) i (m, id)
  = (foldl (λ m f, <[f := cellValue int64OfFloat (g f)]> m) m fields, id).
Proof.
  intros Hall; revert i m; induction Hall as [|f fields Hf Hall IH]; intros i m Hi;
    [done|].
  cbn [recordLoop fmap list_fmap foldl]. destruct (Z.eqb_spec i (-1)); [lia|].
  rewrite Hf. cbn [fst snd]. apply IH. lia.
Qed.

Lemma foldl_insert_lookup fields (val : string → Value) (m : gmap string Value) f :
  foldl (λ m f, <[f := val f]> m) m fields !! f
  = if bool_decide (f ∈ fields) then Some (val f) else m !! f.
Proof.
  revert m; induction fields as [|f0 fields IH]; intros m; [done|].
  cbn [foldl]. rewrite IH. destruct (decide (f = f0)) as [->|Hne].
  - rewrite (bool_decide_eq_true_2 (f0 ∈ f0 :: fields)) by (by left).
    rewrite lookup_insert_eq. by destruct (bool_decide _).
  - rewrite lookup_insert_ne by done.
    rewrite (bool_decide_ext (f ∈ f0 :: fields) (f ∈ fields)); [done|].
    rewrite elem_of_cons. tauto.
Qed.

Lemma importRow_exported (cell : Document → string → string) (t1 t2 : string)
    fields tick i d c0 r0 :
  Forall (λ f, isReserved f = false) fields →
  ID d ≠ "" → Documents c0 !! ID d = None →
  importRow int64OfFloat (-1) (reservedHeaders ++ fields) tick i
    ([ID d; t1; t2] ++ (cell d <$> fields)) (c0, r0)
  = (fst (Insert (created tick) (updated tick) (ID d)
            (foldl (λ m f, <[f := cellValue int64OfFloat (cell d f)]> m) ∅ fields)
            c0),
     {| Imported := Imported r0 + 1; Skipped := Skipped r0; Errors := Errors r0 |}).
Proof.
  intros Hall Hid Hfresh. unfold importRow.
  rewrite !length_app, length_fmap. cbn [length reservedHeaders].
  rewrite Nat.eqb_refl. cbn [negb].
  assert (Hpre : recordLoop int64OfFloat (-1) (reservedHeaders ++ fields)
                   ([ID d; t1; t2] ++ (cell d <$> fields)) 0 (∅, "")
                 = recordLoop int64OfFloat (-1) fields (cell d <$> fields) 3
                     (∅, ID d)) by reflexivity.
  rewrite Hpre, recordLoop_fields by (done || lia).
  destruct (String.eqb_spec (ID d) ""); [done|].
  unfold insertCounted, Insert. cbn [fst snd]. by rewrite Hfresh.
Qed.

Lemma importRows_exported (cell : Document → string → string)
    (t1 t2 : Document → string) fields clock docs i c0 r0 :
  Forall (λ f, isReserved f = false) fields →
  NoDup (ID <$> docs) →
  (∀ d, d ∈ docs → ID d ≠ "" ∧ Documents c0 !! ID d = None) →
  let st :=
    importRows (λ rowIndex, importRow int64OfFloat (-1) (reservedHeaders ++ fields)
                              (clock rowIndex) rowIndex)
      i ((λ d, [ID d; t1 d; t2 d] ++ (cell d <$> fields)) <$> docs) (c0, r0) in
  Imported (snd st) = Imported r0 + Z.of_nat (length docs) ∧
  Skipped (snd st) = Skipped r0 ∧ Errors (snd st) = Errors r0 ∧
  ∀ k d, docs !! k = Some d →
    Documents (fst st) !! ID d
    = Some {| ID := ID d;
              Data := foldl (λ m f, <[f := cellValue int64OfFloat (cell d f)]> m)
                            ∅ fields;
              CreatedAt := created (clock (i + k)%nat);
              UpdatedAt := updated (clock (i + k)%nat) |}.
Proof.
  intros Hall. revert i c0 r0; induction docs as [|d docs IH]; intros i c0 r0 Hnd Hdocs.
  - cbn [fmap list_fmap importRows fst snd length]. split_and!; try done; lia.
  - cbn [fmap list_fmap importRows]. cbn [fmap list_fmap] in Hnd.
    apply NoDup_cons in Hnd as [Hfresh Hnd].
    destruct (Hdocs d) as [Hid Hnew]; [by left|].
    rewrite importRow_exported by done.
    set (doc' := {| ID := ID d;
                    Data := foldl (λ m f, <[f := cellValue int64OfFloat (cell d f)]> m)
                                  ∅ fields;
                    CreatedAt := created (clock i);
                    UpdatedAt := updated (clock i) |}).
    assert (Hc1 : Documents (fst (Insert (created (clock i)) (updated (clock i)) (ID d)
                                   (Data doc') c0))
                  = <[ID d := doc']> (Documents c0)).
    { unfold Insert. by rewrite Hnew. }
    set (c1 := fst (Insert (created (clock i)) (updated (clock i)) (ID d)
                      (Data doc') c0)) in *.
    change (foldl (λ m f, <[f := cellValue int64OfFloat (cell d f)]> m) ∅ fields)
      with (Data doc').
    fold c1.
    set (r1 := {| Imported := Imported r0 + 1; Skipped := Skipped r0;
                  Errors := Errors r0 |}).
    assert (Hrest : ∀ d', d' ∈ docs → ID d' ≠ "" ∧ Documents c1 !! ID d' = None).
    { intros d' Hin. destruct (Hdocs d') as [Hid' Hnew']; [by right|].
      split; [done|]. rewrite Hc1, lookup_insert_ne; [done|].
      intros Heq. apply Hfresh. rewrite Heq. apply list_elem_of_fmap. eauto. }
    specialize (IH (S i) c1 r1 Hnd Hrest). cbv zeta in IH.
    destruct IH as (IH1 & IH2 & IH3 & IH4).
    pose proof (importRows_accounted
                  (λ rowIndex, importRow int64OfFloat (-1) (reservedHeaders ++ fields)
                                 (clock rowIndex) rowIndex)
                  (S i)
                  ((λ d, [ID d; t1 d; t2 d] ++ (cell d <$> fields)) <$> docs)
                  (c1, r1)) as Hacc.
    destruct Hacc as (_ & _ & _ & _ & _ & Hkeep & _).
    { intros i' record st. apply importRow_accounted. }
    cbv zeta. split_and!.
    + rewrite IH1. subst r1. cbn [Imported length]. lia.
    + by rewrite IH2.
    + by rewrite IH3.
    + intros [|k] d' Hk; simpl in Hk.
      * injection Hk as Heq. subst d'. rewrite Nat.add_0_r.
        apply Hkeep. cbn [fst]. by rewrite Hc1, lookup_insert_eq.
      * rewrite (IH4 k d' Hk). by rewrite Nat.add_succ_r.
Qed.

Lemma readBackField_reserved f : isReserved f = true → readBackField f = f.
Proof.
  intros Hf. apply isReserved_spec in Hf. unfold reservedHeaders in Hf.
  apply elem_of_cons in Hf as [->|Hf]; [done|].
  apply elem_of_cons in Hf as [->|Hf]; [done|].
  apply elem_of_cons in Hf as [->|Hf]; [done|].
  by apply not_elem_of_nil in Hf.
Qed.

Lemma readBack_exported fields docs :
  Forall (λ f, readBackField f = f) fields →
  Forall (λ d, readBackField (ID d) = ID d) docs →
  readBack ((reservedHeaders ++ fields)
              :: ((λ d, [ID d; FormatRFC3339 (CreatedAt d); FormatRFC3339 (UpdatedAt d)]
                          ++ (cellOf d <$> fields)) <$> docs))
  = (reservedHeaders ++ fields)
      :: ((λ d, [ID d; readBackField (FormatRFC3339 (CreatedAt d));
                 readBackField (FormatRFC3339 (UpdatedAt d))]
                  ++ ((λ d f, readBackField (cellOf d f)) d <$> fields)) <$> docs).
Proof.
  intros Hfields Hids. unfold readBack. cbn [fmap list_fmap]. f_equal.
  - rewrite fmap_app. f_equal. clear Hids.
    induction Hfields as [|f fields Hf _ IH]; [done|].
    cbn [fmap list_fmap]. by rewrite Hf, IH.
  - clear Hfields. induction Hids as [|d docs Hd _ IH]; [done|].
    cbn [fmap list_fmap] in *. rewrite IH. f_equal.
    rewrite fmap_app. cbn [fmap list_fmap]. rewrite Hd.
    change (list_fmap string string readBackField (cellOf d <$> fields))
      with (readBackField <$> (cellOf d <$> fields)).
    by rewrite <- list_fmap_compose.
Qed.

(** X29.  An export to CSV followed by an import of the file that was
    written, as [encoding/csv] reads it back.  For documents with distinct
    ids that are not empty and not stored in the target, when no id and no
    field name holds a carriage return before a line feed and no id field
    is configured, every row is imported and none is skipped.  Each document
    comes back under its own id with the times of the import; its data
    holds every exported field, also those it lacked, whose cell is the
    empty text, with the value that the reader makes of the rendering as
    the library reads it back, a CR LF in it having become LF; a data field
    named like a reserved column is lost. *)
Theorem CSV_round_trip (rng : Range bool) (documents : list Document)
    (options : ImportOptions) (clock : nat → Tick) (c : Collection)
    (records : list (list string)) :
  go_range rng (fieldSet documents) →
  NoDup (ID <$> documents) →
  (∀ d, d ∈ documents →
        ID d ≠ "" ∧ readBackField (ID d) = ID d ∧ Documents c !! ID d = None) →
  (∀ d f, d ∈ documents → is_Some (Data d !! f) → readBackField f = f) →
  IDField options = "" →
  exportCSVRecords FormatRFC3339 rng documents = inl records →
  ∃ c' r, importCSVRecords int64OfFloat options clock (readBack records) c
          = (c', inl r) ∧
    Imported r = Z.of_nat (length documents) ∧ Skipped r = 0 ∧ Errors r = [] ∧
    (∀ k d, documents !! k = Some d →
       ∃ d', Documents c' !! ID d = Some d' ∧ ID d' = ID d ∧
             CreatedAt d' = created (clock k) ∧ UpdatedAt d' = updated (clock k) ∧
             ∀ f,
               (isReserved f = false →
                (∃ doc, doc ∈ documents ∧ is_Some (Data doc !! f)) →
                Data d' !! f
                = Some (cellValue int64OfFloat (readBackField (cellOf d f)))) ∧
               (isReserved f = true → Data d' !! f = None) ∧
               ((∀ doc, doc ∈ documents → Data doc !! f = None) →
                Data d' !! f = None)).
Proof.
  intros Hrng Hnd Hdocs Hnames Hid Hexp.
  destruct documents as [|doc documents]; [done|].
  rewrite exportCSVRecords_rows in Hexp. apply (inj inl) in Hexp. subst records.
  set (docs := doc :: documents) in *.
  set (fields := exportedFields rng docs).
  pose proof (exportedFields_spec rng docs Hrng) as Hfields. fold fields in Hfields.
  assert (Hall : Forall (λ f, isReserved f = false) fields).
  { apply Forall_forall. intros f Hf. by apply Hfields in Hf as [? _]. }
  assert (Hplain : Forall (λ f, readBackField f = f) fields).
  { apply Forall_forall. intros f Hf.
    apply Hfields in Hf as [_ (d & Hd & Hf)]. by apply (Hnames d). }
  assert (Hids : Forall (λ d, readBackField (ID d) = ID d) docs).
  { apply Forall_forall. intros d Hd. by destruct (Hdocs d Hd) as (_ & ? & _). }
  assert (Hfresh : ∀ d, d ∈ docs → ID d ≠ "" ∧ Documents c !! ID d = None).
  { intros d Hd. by destruct (Hdocs d Hd) as (? & _ & ?). }
  rewrite (readBack_exported fields docs Hplain Hids).
  pose proof (importRows_exported (λ d f, readBackField (cellOf d f))
                (λ d, readBackField (FormatRFC3339 (CreatedAt d)))
                (λ d, readBackField (FormatRFC3339 (UpdatedAt d)))
                fields clock docs 0 c newResult Hall Hnd Hfresh) as Himp.
  cbv zeta in Himp.
  assert (Hrun : importCSVRecords int64OfFloat options clock
                   ((reservedHeaders ++ fields)
                      :: ((λ d, [ID d; readBackField (FormatRFC3339 (CreatedAt d));
                                 readBackField (FormatRFC3339 (UpdatedAt d))]
                                  ++ ((λ d f, readBackField (cellOf d f)) d <$> fields))
                            <$> docs)) c
                 = (let st :=
                      importRows (λ rowIndex,
                                    importRow int64OfFloat (-1) (reservedHeaders ++ fields)
                                      (clock rowIndex) rowIndex)
                        0 ((λ d, [ID d; readBackField (FormatRFC3339 (CreatedAt d));
                                  readBackField (FormatRFC3339 (UpdatedAt d))]
                                   ++ ((λ d f, readBackField (cellOf d f)) d <$> fields))
                             <$> docs)
                        (c, newResult) in
                    (fst st, inl (snd st)))).
  { unfold importCSVRecords. rewrite Hid. reflexivity. }
  rewrite Hrun. cbv zeta.
  destruct (importRows _ 0 _ (c, newResult)) as [c' r]. cbn [fst snd] in *.
  destruct Himp as (H1 & H2 & H3 & H4). exists c', r.
  split_and!; try done.
  intros k d Hk. eexists. split; [apply (H4 k d Hk)|]. cbn [ID CreatedAt UpdatedAt Data].
  split_and!; try done. intros f.
  rewrite (foldl_insert_lookup fields
             (λ f, cellValue int64OfFloat (readBackField (cellOf d f)))), lookup_empty.
  split_and!.
  - intros Hres Hdoc. rewrite bool_decide_eq_true_2; [done|]. by apply Hfields.
  - intros Hres. rewrite bool_decide_eq_false_2; [done|].
    intros [Hno _]%Hfields. by rewrite Hres in Hno.
  - intros Hnone. rewrite bool_decide_eq_false_2; [done|].
    intros [_ (d0 & Hin & [x Hx])]%Hfields. by rewrite (Hnone d0 Hin) in Hx.
Qed.

End CSVFacts.

(** ** The two CSV readers compared *)

Section CSVReaders.
Context `{GoLib}.
Variable int64OfFloat : float → Z.

Lemma recordLoop_without_id idColumn headers record i st :
  "_id" ∉ headers → idColumn < i →
  snd (recordLoop int64OfFloat idColumn headers record i st) = snd st.
Proof.
  revert record i st; induction headers as [|h0 headers IH]; intros record i st Hno Hi;
    [done|].
  destruct record as [|v0 record]; [done|]. cbn [recordLoop].
  apply not_elem_of_cons in Hno as [Hne Hno].
  destruct (Z.eqb_spec i idColumn); [lia|].
  destruct (String.eqb_spec h0 "_id"); [done|]. cbn [andb].
  rewrite IH by (done || lia). by destruct (isReserved h0).
Qed.

Lemma recordLoop_with_id idColumn headers record i st k v :
  length record = length headers → NoDup headers →
  headers !! k = Some "_id" → record !! k = Some v →
  idColumn < i → snd st = "" →
  snd (recordLoop int64OfFloat idColumn headers record i st) = v.
Proof.
  revert record i st k; induction headers as [|h0 headers IH];
    intros record i st k Hlen Hnd Hk Hv Hi Hid; [done|].
  destruct record as [|v0 record]; [done|]. injection Hlen as Hlen.
  apply NoDup_cons in Hnd as [Hfresh Hnd]. cbn [recordLoop].
  destruct (Z.eqb_spec i idColumn); [lia|].
  destruct k as [|k]; simpl in Hk, Hv.
  - injection Hk as Heq. subst h0. injection Hv as Heq. subst v0.
    rewrite Hid. change (isReserved "_id") with true. cbn [String.eqb andb].
    change (String.eqb "_id" "_id" && String.eqb "" "") with true. cbv iota.
    rewrite recordLoop_without_id by (done || lia). done.
  - assert (h0 ≠ "_id") as Hne.
    { intros Heq. apply Hfresh. rewrite Heq. by eapply list_elem_of_lookup_2. }
    destruct (String.eqb_spec h0 "_id"); [done|]. cbn [andb].
    apply (IH record (i + 1) _ k); try done; try lia.
    by destruct (isReserved h0).
Qed.

Lemma contentRecordLoop_without_id headers record st :
  "_id" ∉ headers →
  snd (contentRecordLoop int64OfFloat headers record st) = snd st.
Proof.
  revert record st; induction headers as [|h0 headers IH]; intros record st Hno;
    [done|].
  destruct record as [|v0 record]; [done|]. cbn [contentRecordLoop].
  apply not_elem_of_cons in Hno as [Hne Hno].
  destruct (String.eqb_spec h0 "_id"); [done|].
  rewrite IH by done. by destruct (isReserved h0).
Qed.

Lemma contentRecordLoop_with_id headers record st k v :
  length record = length headers → NoDup headers →
  headers !! k = Some "_id" → record !! k = Some v →
  snd (contentRecordLoop int64OfFloat headers record st) = v.
Proof.
  revert record st k; induction headers as [|h0 headers IH];
    intros record st k Hlen Hnd Hk Hv; [done|].
  destruct record as [|v0 record]; [done|]. injection Hlen as Hlen.
  apply NoDup_cons in Hnd as [Hfresh Hnd]. cbn [contentRecordLoop].
  destruct k as [|k]; simpl in Hk, Hv.
  - injection Hk as Heq. subst h0. injection Hv as Heq. subst v0.
    change (isReserved "_id") with true. change (String.eqb "_id" "_id") with true.
    cbv iota. by rewrite contentRecordLoop_without_id.
  - by apply (IH record _ k).
Qed.

Lemma readers_same_data idColumn headers record i st st' :
  idColumn < i → fst st = fst st' →
  fst (contentRecordLoop int64OfFloat headers record st)
  = fst (recordLoop int64OfFloat idColumn headers record i st').
Proof.
  revert record i st st'; induction headers as [|h0 headers IH];
    intros record i st st' Hi Hsame; [done|].
  destruct record as [|v0 record]; [done|]. cbn [contentRecordLoop recordLoop].
  destruct (Z.eqb_spec i idColumn); [lia|].
  apply IH; [lia|].
  destruct (isReserved h0).
  - by destruct (String.eqb h0 "_id"), (String.eqb (snd st') ""); cbn [andb fst].
  - cbn [fst]. by rewrite Hsame.
Qed.

(** X30.  The two CSV readers on a record with a column [_id], when no id
    field is configured.  Both store the same data and take the cell under
    [_id] as the id, but on an empty cell the reader of a file generates an
    id while the reader of a content inserts the document under the empty
    id. *)
Theorem CSV_readers_id (headers record : list string) (k : nat) (v : string)
    (tick : Tick) (rowIndex : nat) (st : Collection * ImportResult) :
  length record = length headers → NoDup headers →
  headers !! k = Some "_id" → record !! k = Some v →
  ∃ docData,
    importContentRow int64OfFloat headers tick rowIndex record st
    = insertCounted tick v docData st ∧
    importRow int64OfFloat (idColumnOf "" headers) headers tick rowIndex record st
    = insertCounted tick
        (if String.eqb v ""
         then "csv_import_" +:+ pretty (stamp tick) +:+ "_" +:+ pretty (Z.of_nat rowIndex)
         else v)
        docData st.
Proof.
  intros Hlen Hnd Hk Hv.
  exists (fst (recordLoop int64OfFloat (-1) headers record 0 (∅, ""))).
  change (idColumnOf "" headers) with (-1).
  unfold importContentRow, importRow. rewrite Hlen, Nat.eqb_refl. cbn [negb].
  split.
  - pose proof (contentRecordLoop_with_id headers record
                  (∅, "csv_imported_" +:+ pretty (stamp tick) +:+ "_"
                        +:+ pretty (Z.of_nat rowIndex)) k v Hlen Hnd Hk Hv) as Hid.
    pose proof (readers_same_data (-1) headers record 0
                  (∅, "csv_imported_" +:+ pretty (stamp tick) +:+ "_"
                        +:+ pretty (Z.of_nat rowIndex)) (∅, "")) as Hdata.
    destruct (contentRecordLoop _ _ _ _) as [docData docID].
    cbn [fst snd] in Hid, Hdata. rewrite Hid, Hdata; [done|lia|done].
  - pose proof (recordLoop_with_id (-1) headers record 0 (∅, "") k v Hlen Hnd Hk Hv)
      as Hid.
    destruct (recordLoop _ _ _ _ _ _) as [docData docID].
    cbn [fst snd] in *. rewrite Hid; [done|lia|done].
Qed.

End CSVReaders.

(** ** The properties above, evaluated *)

Section EvaluatedMore.
Import Examples MoreExamples.
#[local] Existing Instance GoModel.exampleLib.

Lemma itemsA_Reachable : Reachable itemsA.
Proof. unfold itemsA, items0. apply reach_Insert, reach_new. Qed.

Lemma Insert_then_Find_witness :
  Documents itemsIndexed !! "b" = None ∧
  Find forwards (fst (Insert 2 2 "b" (fieldIs "f" (VInt 1)) itemsIndexed)) "f"
    (VString "1")
  = [{| ID := "b"; Data := fieldIs "f" (VInt 1); CreatedAt := 2; UpdatedAt := 2 |}].
Proof.
  assert (Documents itemsIndexed !! "b" = None) as Hnew by reflexivity.
  split; [exact Hnew|].
  pose proof (Insert_then_Find forwards 2 2 "b" (fieldIs "f" (VInt 1)) itemsIndexed
                "f" (VInt 1) (VString "1") Hnew eq_refl eq_refl) as Hfind.
  cbv zeta in Hfind. destruct Hfind as [Hindexed _].
  apply Hindexed. eexists. reflexivity.
Defined.

Lemma Insert_then_Delete_witness :
  Documents itemsIndexed !! "b" = None ∧
  snd (Delete "b" (fst (Insert 2 2 "b" (fieldIs "f" (VInt 2)) itemsIndexed))) = None ∧
  Documents (fst (Delete "b" (fst (Insert 2 2 "b" (fieldIs "f" (VInt 2)) itemsIndexed))))
  = Documents itemsIndexed.
Proof.
  assert (Documents itemsIndexed !! "b" = None) as Hnew by reflexivity.
  split; [exact Hnew|].
  pose proof (Insert_then_Delete 2 2 "b" (fieldIs "f" (VInt 2)) itemsIndexed Hnew)
    as Hback.
  cbv zeta in Hback. destruct Hback as (Hok & Hdocs & _). by split.
Defined.

Lemma Update_then_Find_witness :
  Documents itemsAB !! "a" = Some documentA ∧
  Find forwards itemsUpdated "f" (VString "2")
  = [{| ID := "a"; Data := fieldIs "f" (VInt 2); CreatedAt := 1; UpdatedAt := 3 |}].
Proof.
  assert (Documents itemsAB !! "a" = Some documentA) as Hdoc by reflexivity.
  split; [exact Hdoc|].
  destruct (Reachable_invariant itemsAB itemsAB_Reachable) as [Hids Hcons].
  pose proof (Update_then_Find forwards 3 "a" (fieldIs "f" (VInt 2)) itemsAB documentA
                Hids Hcons Hdoc) as Hfind.
  cbv zeta in Hfind. destruct Hfind as [Hindexed _].
  apply (Hindexed "f" (VInt 2) (VString "2")); [by eexists|reflexivity|reflexivity].
Defined.

Lemma CreateIndex_complete_witness :
  ∃ d, Find forwards (CreateIndex forwards "f" itemsA) "f" (VInt 1) = [d] ∧
       d ∈ scanDocuments (backwards (Documents itemsA)) "f" (VInt 1).
Proof.
  destruct (Reachable_invariant itemsA itemsA_Reachable) as [Hids _].
  pose proof (CreateIndex_complete forwards forwards backwards "f" itemsA (VInt 1)
                Hids (forwards_range _) (backwards_range _)) as Hindex.
  cbv zeta in Hindex. destruct Hindex as (_ & _ & _ & Hfound).
  apply Hfound. intros Hnone. vm_compute in Hnone. discriminate Hnone.
Defined.

Lemma GetAll_all_witness :
  length (GetAll backwards itemsAB) = size (Documents itemsAB).
Proof.
  destruct (GetAll_all backwards itemsAB (backwards_range _)) as (_ & Hlen & _).
  exact Hlen.
Defined.

Lemma Execute_nonpositive_bounds_witness :
  -1 ≤ 0 ∧ 0 ≤ 0 ∧
  Execute forwards (Skip (-1) (Limit 0 atLeastThree))
  = sortDocuments atLeastThree
      (filter (λ d, matchesAll atLeastThree d)
         (snd <$> forwards (Documents (collection atLeastThree)))).
Proof.
  assert (-1 ≤ 0) as Hskip by lia. assert (0 ≤ 0) as Hlimit by lia.
  split; [exact Hskip|]. split; [exact Hlimit|].
  exact (Execute_nonpositive_bounds forwards atLeastThree (-1) 0 Hskip Hlimit).
Defined.

Lemma Execute_sound_witness :
  0 < limit page ∧ Z.of_nat (length (Execute forwards page)) ≤ limit page.
Proof.
  assert (0 < limit page) as Hlimit by reflexivity.
  split; [exact Hlimit|].
  destruct (Execute_sound forwards page (forwards_range _)) as (_ & _ & Hle).
  exact (Hle Hlimit).
Defined.

Lemma Count_matches_witness :
  Z.of_nat (length (Execute forwards page)) ≤ Count forwards page ∧
  Count forwards (Sort "n" true (Skip 4 (Limit 1 atLeastThree)))
  = Count forwards atLeastThree.
Proof.
  destruct (Count_matches forwards page (forwards_range _)) as (_ & _ & Hle & _).
  destruct (Count_matches forwards atLeastThree (forwards_range _))
    as (_ & Hsame & _).
  split; [exact Hle|apply Hsame].
Defined.

Lemma GroupStage_counts_add_up_witness :
  match Process forwards (λ _, forwards) tally ledger with
  | inl res => sumOfGroupCounts "n" res = 4
  | inr _ => False
  end.
Proof.
  assert (Hok : match Process forwards (λ _, forwards) tally ledger with
                | inl _ => true
                | inr _ => false
                end = true) by (vm_compute; reflexivity).
  destruct (Process forwards (λ _, forwards) tally ledger) as [res|err] eqn:Hres;
    [|discriminate Hok].
  apply (GroupStage_counts_add_up forwards (λ _, forwards) tally ledger "n" "").
  - apply forwards_range.
  - intros t. apply forwards_range.
  - reflexivity.
  - exact Hres.
Defined.

Lemma GroupStage_edges_witness :
  (∃ res, Process forwards (λ _, forwards) totals ledger = inl res) ∧
  (∃ op, Process forwards (λ _, forwards) medians ledger
         = inr (UnknownAggregation op)).
Proof.
  destruct (GroupStage_edges forwards (λ _, forwards) totals ledger
              (forwards_range _) (λ t, forwards_range _)) as (_ & Hknown & _).
  destruct (GroupStage_edges forwards (λ _, forwards) medians ledger
              (forwards_range _) (λ t, forwards_range _)) as (_ & _ & Hunknown & _).
  split.
  - apply Hknown. intros out agg Hagg. unfold totals in Hagg. cbn [Fields] in Hagg.
    apply lookup_singleton_Some in Hagg as [_ <-]. right. by left.
  - destruct (Hunknown ltac:(done) "m" {| Operation := "median"; AggField := "f" |})
      as (op & _ & Hfail).
    + reflexivity.
    + unfold knownAggregations. rewrite !not_elem_of_cons.
      split_and!; try done. apply not_elem_of_nil.
    + by exists op.
Defined.

Lemma Aggregate_contract_witness :
  ∃ items, Aggregate forwards plainOrders itemsAB [] = inl items ∧
           length items = size (Documents itemsAB).
Proof.
  destruct (Aggregate_contract forwards plainOrders itemsAB (forwards_range _))
    as ((items & Hrun & _ & Hlen) & _).
  exists items. split; [exact Hrun|exact Hlen].
Defined.


Lemma exportCSV_table_witness :
  match exportCSVRecords layout forwards catalog with
  | inr _ => catalog = []
  | inl records =>
      ∃ fields,
        records
        = (reservedHeaders ++ fields)
            :: ((λ d, [ID d; layout (CreatedAt d); layout (UpdatedAt d)]
                        ++ (cellOf d <$> fields)) <$> catalog) ∧
        catalog ≠ [] ∧
        NoDup (reservedHeaders ++ fields) ∧
        (∀ f, f ∈ fields ↔
              isReserved f = false ∧ ∃ d, d ∈ catalog ∧ is_Some (Data d !! f)) ∧
        Forall (λ record, length record = length (reservedHeaders ++ fields)) records
  end.
Proof. exact (exportCSV_table layout forwards catalog (forwards_range _)). Defined.

Lemma importCSV_record_witness :
  length stockRecord = length stockHeaders ∧
  fst (recordLoop truncate (idColumnOf "sku" stockHeaders) stockHeaders stockRecord 0
         (∅, "")) !! "sku" = None ∧
  fst (recordLoop truncate (idColumnOf "sku" stockHeaders) stockHeaders stockRecord 0
         (∅, "")) !! "qty" = Some (cellValue truncate "3") ∧
  snd (recordLoop truncate (idColumnOf "sku" stockHeaders) stockHeaders stockRecord 0
         (∅, "")) = "k1".
Proof.
  assert (length stockRecord = length stockHeaders) as Hlen by reflexivity.
  assert (NoDup stockHeaders) as Hnd
    by (apply (bool_decide_eq_true_1 _); reflexivity).
  split; [exact Hlen|].
  pose proof (importCSV_record truncate "sku" stockHeaders stockRecord Hlen Hnd)
    as Hrecord.
  cbv zeta in Hrecord. destruct Hrecord as (Hdata & _ & Hid & _).
  split; [exact (Hdata 0%nat "sku" "k1" eq_refl eq_refl)|].
  split; [exact (Hdata 2%nat "qty" "3" eq_refl eq_refl)|].
  apply (Hid 0%nat "k1"); done.
Defined.

Lemma CSV_round_trip_witness :
  match exportCSVRecords layout forwards memos with
  | inl records =>
      ∃ c' r, importCSVRecords truncate overwriteItems steady (readBack records)
                (newCollection "copy") = (c', inl r) ∧
              Imported r = 2 ∧ Skipped r = 0 ∧ Errors r = [] ∧
              ∃ d', Documents c' !! "n1" = Some d' ∧
                    Data d' !! "t" = Some (VString ("a" +:+ lf +:+ "b"))
  | inr _ => False
  end.
Proof.
  assert (Hok : match exportCSVRecords layout forwards memos with
                | inl _ => true
                | inr _ => false
                end = true) by reflexivity.
  destruct (exportCSVRecords layout forwards memos) as [records|err] eqn:Hexp;
    [|discriminate Hok].
  destruct (CSV_round_trip layout truncate forwards memos overwriteItems steady
              (newCollection "copy") records)
    as (c' & r & Hrun & Himported & Hskipped & Herrors & Hdocs).
  - apply forwards_range.
  - apply (bool_decide_eq_true_1 _). reflexivity.
  - intros d Hd. unfold memos in Hd.
    apply elem_of_cons in Hd as [->|Hd]; [by split_and!|].
    apply elem_of_cons in Hd as [->|Hd]; [by split_and!|].
    by apply not_elem_of_nil in Hd.
  - intros d f Hd [x Hx]. unfold memos in Hd.
    apply elem_of_cons in Hd as [->|Hd].
    { unfold sortable, fieldIs in Hx. cbn [Data] in Hx.
      by apply lookup_singleton_Some in Hx as [<- _]. }
    apply elem_of_cons in Hd as [->|Hd].
    { unfold sortable, fieldIs in Hx. cbn [Data] in Hx.
      by apply lookup_singleton_Some in Hx as [<- _]. }
    by apply not_elem_of_nil in Hd.
  - reflexivity.
  - exact Hexp.
  - exists c', r. split; [exact Hrun|]. split; [exact Himported|].
    split; [exact Hskipped|]. split; [exact Herrors|].
    destruct (Hdocs 1%nat (sortable "n1" (fieldIs "t" (VString ("a" +:+ crlf +:+ "b"))))
                eq_refl) as (d' & Hd' & _ & _ & _ & Hdata).
    exists d'. split; [exact Hd'|].
    destruct (Hdata "t") as (Ht & _ & _). rewrite Ht.
    + vm_compute. reflexivity.
    + reflexivity.
    + exists (sortable "n1" (fieldIs "t" (VString ("a" +:+ crlf +:+ "b")))).
      split; [apply elem_of_cons; right; apply elem_of_cons; by left|].
      eexists. reflexivity.
Defined.

(** C5, as stated, fails.  The overwriting import empties [items] and
    leaves its index on [f]; after the insertion of a row [a] with [f = 2]
    the entry under ["1"] still names [a].  The indexed [Find] for [1]
    returns [a], whose field holds [2], while the scan, in either order,
    returns nothing. *)
Lemma Find_indexed_outside_scan :
  Collections emptied !! "items" = Some (setDocuments ∅ itemsIndexed) ∧
  Values <$> Indexes reimported !! "f" = Some ({[ "1" := "a"; "2" := "a" ]}) ∧
  Data <$> Documents reimported !! "a" = Some (fieldIs "f" (VInt 2)) ∧
  ID <$> Find forwards reimported "f" (VInt 1) = ["a"] ∧
  ID <$> scanDocuments (forwards (Documents reimported)) "f" (VInt 1) = [] ∧
  ID <$> scanDocuments (backwards (Documents reimported)) "f" (VInt 1) = [].
Proof. repeat split; vm_compute; reflexivity. Qed.

Lemma CSV_readers_id_witness :
  ∃ docData,
    importContentRow truncate stockHeaders (steady 0%nat) 0 blankRecord
      (newCollection "stock", newResult)
    = insertCounted (steady 0%nat) "" docData (newCollection "stock", newResult) ∧
    importRow truncate (idColumnOf "" stockHeaders) stockHeaders (steady 0%nat) 0
      blankRecord (newCollection "stock", newResult)
    = insertCounted (steady 0%nat) "csv_import_7_0" docData
        (newCollection "stock", newResult).
Proof.
  apply (CSV_readers_id truncate stockHeaders blankRecord 1 "" (steady 0%nat) 0
           (newCollection "stock", newResult)).
  - reflexivity.
  - apply (bool_decide_eq_true_1 _). reflexivity.
  - reflexivity.
  - reflexivity.
Defined.

End EvaluatedMore.
